(** * ScraperPotato: change detection and notification fan-out

    A shallow embedding of the job scraper's decision logic:

    - [generateJobsHash], [shouldSendEmail], [filterJobsByKeywords] and the
      two [checkForJobs] cycles of the content-hash scrapers
      (mailslurp-scraper.js and src/worker.js);
    - [checkForNewJobs] and the notification sinks of the identity-set
      scrapers (enhanced-scraper.js and the archived scraper.js), the
      fan-out of [sendNotifications] as the event loop runs it, and the
      seen links as they are saved and loaded across restarts;
    - what the worker answers on [/status].

    Strings are sequences of bytes, read as the UTF-8 encoding of the
    JavaScript string (well-formed strings only).  Functions supplied by the
    JavaScript host whose full definition is a Unicode table
    ([localeCompare], [toLowerCase]) are section variables; everything else
    is defined here and computes. *)

From stdpp Require Import gmap strings list.
From Stdlib Require Import ZArith Ascii String List Lia DecimalString.
From Stdlib Require Import Sorting.Permutation Sorting.Sorted.
Import ListNotations.

Local Open Scope string_scope.
Local Open Scope Z_scope.

(** ** Bytes and text *)

Definition bytes_of_string (s : string) : list Z :=
  map (fun c => Z.of_N (N_of_ascii c)) (list_ascii_of_string s).

Definition ascii_of_Z (z : Z) : ascii := ascii_of_N (Z.to_N z).

Definition chr (z : Z) : string := String (ascii_of_Z z) EmptyString.

(** The double quote, the backslash and the line feed, by code. *)
Definition dquote : string := chr 34.
Definition backslash : string := chr 92.
Definition nl : string := chr 10.

(** [n.toString()] for an array length or index. *)
Definition decimal (n : nat) : string := NilZero.string_of_uint (Nat.to_uint n).

Definition hex_digit (z : Z) : string :=
  String.substring (Z.to_nat z) 1 "0123456789abcdef".

(** [b.toString(16).padStart(2, '0')] for a byte [b]. *)
Definition hex_byte (b : Z) : string := hex_digit (b / 16) +:+ hex_digit (b mod 16).

(** The bytes of the digits 0-9 and a-f. *)
Definition is_hex (b : Z) : bool :=
  ((48 <=? b) && (b <=? 57)) || ((97 <=? b) && (b <=? 102)).

(** [Array.prototype.join]. *)
Definition join (sep : string) (parts : list string) : string := String.concat sep parts.

(** [String.prototype.includes]: [t] occurs in [s] as a contiguous run. *)
Fixpoint includes (s t : string) : bool :=
  String.prefix t s ||
  match s with
  | EmptyString => false
  | String _ s' => includes s' t
  end.

(** [String.prototype.substring(0, n)]. *)
Definition substring_to (n : nat) (s : string) : string := String.substring 0 n s.

(** *** [String.prototype.trim]

    White space and line terminators of ECMAScript, as UTF-8 byte runs:
    U+0009..U+000D, U+0020, U+00A0, U+1680, U+2000..U+200A, U+2028, U+2029,
    U+202F, U+205F, U+3000 and U+FEFF. *)
Definition white_space : list (list Z) :=
  [ [9]; [10]; [11]; [12]; [13]; [32]; [194; 160]; [225; 154; 128] ]
  ++ map (fun k => [226; 128; 128 + k]) [0; 1; 2; 3; 4; 5; 6; 7; 8; 9; 10]
  ++ [ [226; 128; 168]; [226; 128; 169]; [226; 128; 175]; [226; 129; 159];
       [227; 128; 128]; [239; 187; 191] ].

Fixpoint strip_prefix (p l : list Z) : option (list Z) :=
  match p, l with
  | [], _ => Some l
  | a :: p', b :: l' => if a =? b then strip_prefix p' l' else None
  | _ :: _, [] => None
  end.

Fixpoint strip_any (pats : list (list Z)) (l : list Z) : option (list Z) :=
  match pats with
  | [] => None
  | p :: pats' =>
      match strip_prefix p l with
      | Some l' => Some l'
      | None => strip_any pats' l
      end
  end.

Fixpoint trim_start_bytes (fuel : nat) (pats : list (list Z)) (l : list Z) : list Z :=
  match fuel with
  | O => l
  | S fuel' =>
      match strip_any pats l with
      | Some l' => trim_start_bytes fuel' pats l'
      | None => l
      end
  end.

Definition string_of_bytes (l : list Z) : string :=
  string_of_list_ascii (map ascii_of_Z l).

Definition trim (s : string) : string :=
  let l := bytes_of_string s in
  let l1 := trim_start_bytes (length l) white_space l in
  let r := trim_start_bytes (length l1) (map (@rev Z) white_space) (rev l1) in
  string_of_bytes (rev r).

(** ** SHA-256 (FIPS 180-4), on 32-bit words carried in [Z] *)

Module Sha256.

Definition mask32 (x : Z) : Z := Z.land x 4294967295.
Definition add32 (x y : Z) : Z := mask32 (x + y).
Definition rotr (n x : Z) : Z :=
    Z.lor (Z.shiftr x n) (mask32 (Z.shiftl x (32 - n))).

Definition Ch (x y z : Z) : Z :=
    Z.lxor (Z.land x y) (Z.land (mask32 (Z.lnot x)) z).
Definition Maj (x y z : Z) : Z :=
    Z.lxor (Z.lxor (Z.land x y) (Z.land x z)) (Z.land y z).
Definition Sigma0 (x : Z) : Z := Z.lxor (Z.lxor (rotr 2 x) (rotr 13 x)) (rotr 22 x).
Definition Sigma1 (x : Z) : Z := Z.lxor (Z.lxor (rotr 6 x) (rotr 11 x)) (rotr 25 x).
Definition sigma0 (x : Z) : Z := Z.lxor (Z.lxor (rotr 7 x) (rotr 18 x)) (Z.shiftr x 3).
Definition sigma1 (x : Z) : Z := Z.lxor (Z.lxor (rotr 17 x) (rotr 19 x)) (Z.shiftr x 10).

  (** The round constants are the fractional parts of the cube roots of the
      first 64 primes, the initial state those of the square roots of the
      first 8; both tables are computed rather than written out. *)
Definition is_prime (n : Z) : bool :=
    forallb (fun d => negb (n mod d =? 0)) (map Z.of_nat (seq 2 (Z.to_nat n - 2))).

Definition primes : list Z :=
    Eval vm_compute in filter is_prime (map Z.of_nat (seq 2 310)).

Fixpoint icbrt_go (b : nat) (n r : Z) : Z :=
    match b with
    | O => r
    | S b' =>
        let c := r + 2 ^ Z.of_nat b' in
        icbrt_go b' n (if c * c * c <=? n then c else r)
    end.

Definition icbrt (n : Z) : Z := icbrt_go 48 n 0.

Definition K : list Z :=
    Eval vm_compute in map (fun p => mask32 (icbrt (p * 2 ^ 96))) primes.

Definition H0 : list Z :=
    Eval vm_compute in map (fun p => mask32 (Z.sqrt (p * 2 ^ 64))) (firstn 8 primes).

  (** Big-endian bytes of [x], [n] of them. *)
Definition be_bytes (n : nat) (x : Z) : list Z :=
    map (fun i => Z.land (Z.shiftr x (8 * Z.of_nat i)) 255) (rev (seq 0 n)).

Definition be_word (bs : list Z) : Z :=
    fold_left (fun acc b => Z.lor (Z.shiftl acc 8) b) bs 0.

Definition pad (msg : list Z) : list Z :=
    let len := Z.of_nat (length msg) in
    msg ++ [128] ++ repeat 0 (Z.to_nat ((55 - len) mod 64)) ++ be_bytes 8 (8 * len).

Fixpoint chunks (fuel n : nat) (l : list Z) : list (list Z) :=
    match fuel with
    | O => []
    | S fuel' =>
        match l with
        | [] => []
        | _ :: _ => firstn n l :: chunks fuel' n (skipn n l)
        end
    end.

Fixpoint schedule (k : nat) (w : list Z) : list Z :=
    match k with
    | O => w
    | S k' =>
        let t := length w in
        let at_back i := nth (t - i) w 0 in
        schedule k'
          (w ++ [add32 (add32 (sigma1 (at_back 2%nat)) (at_back 7%nat))
                       (add32 (sigma0 (at_back 15%nat)) (at_back 16%nat))])
    end.

Record regs := Regs { ra : Z; rb : Z; rc : Z; rd : Z; re : Z; rf : Z; rg : Z; rh : Z }.

Definition regs_of_list (l : list Z) : regs :=
    let g i := nth i l 0 in
    Regs (g 0%nat) (g 1%nat) (g 2%nat) (g 3%nat) (g 4%nat) (g 5%nat) (g 6%nat) (g 7%nat).

Definition list_of_regs (r : regs) : list Z :=
    [ra r; rb r; rc r; rd r; re r; rf r; rg r; rh r].

Definition round (r : regs) (kw : Z * Z) : regs :=
    let t1 := add32 (add32 (add32 (rh r) (Sigma1 (re r))) (Ch (re r) (rf r) (rg r)))
                    (add32 (fst kw) (snd kw)) in
    let t2 := add32 (Sigma0 (ra r)) (Maj (ra r) (rb r) (rc r)) in
    Regs (add32 t1 t2) (ra r) (rb r) (rc r) (add32 (rd r) t1) (re r) (rf r) (rg r).

Definition compress (h : list Z) (block : list Z) : list Z :=
    let w := schedule 48 (map be_word (chunks 16 4 block)) in
    let r := fold_left round (combine K w) (regs_of_list h) in
    map (fun p => add32 (fst p) (snd p)) (combine h (list_of_regs r)).

Definition digest (msg : list Z) : list Z :=
    let p := pad msg in
    let h := fold_left compress (chunks (length p) 64 p) H0 in
    flat_map (be_bytes 4) h.

End Sha256.

(** [crypto.createHash('sha256').update(s).digest('hex')], and equally the
    worker's [crypto.subtle.digest('SHA-256', encode(s))] rendered byte by
    byte with [toString(16).padStart(2, '0')]. *)
Definition sha256_hex (s : string) : string :=
  join "" (map hex_byte (Sha256.digest (bytes_of_string s))).

(** ** Job records and their canonical form *)

Record Job := {
  title : string;
  link : string;
  department : string;
  location : string;
  scraped_at : string
}.

(** The object literal built inside [generateJobsHash]: the four compared
    fields, [scraped_at] left out; the keys in the order they are written. *)
Record HashedJob := {
  h_title : string;
  h_link : string;
  h_department : string;
  h_location : string
}.

Definition hashed (job : Job) : HashedJob :=
  {| h_title := title job;
     h_link := link job;
     h_department := department job;
     h_location := location job |}.

(** *** [JSON.stringify] on an array of such objects *)

Definition json_escape (b : Z) : string :=
  if b =? 8 then backslash +:+ "b"
  else if b =? 9 then backslash +:+ "t"
  else if b =? 10 then backslash +:+ "n"
  else if b =? 12 then backslash +:+ "f"
  else if b =? 13 then backslash +:+ "r"
  else if b =? 34 then backslash +:+ dquote
  else if b =? 92 then backslash +:+ backslash
  else if b <? 32 then backslash +:+ "u00" +:+ hex_byte b
  else chr b.

Definition json_string (s : string) : string :=
  dquote +:+ join "" (map json_escape (bytes_of_string s)) +:+ dquote.

Definition json_member (key value : string) : string :=
  json_string key +:+ ":" +:+ json_string value.

Definition json_object (o : HashedJob) : string :=
  "{" +:+ join ","
    [ json_member "title" (h_title o);
      json_member "link" (h_link o);
      json_member "department" (h_department o);
      json_member "location" (h_location o) ] +:+ "}".

Definition JSON_stringify (os : list HashedJob) : string :=
  "[" +:+ join "," (map json_object os) +:+ "]".

(** *** [Array.prototype.sort] with a comparator

    The sort is stable, and for a consistent comparator the result is the
    one stable ordering whatever algorithm the engine runs; insertion from
    the right computes it.  An element goes in front of the first one it
    does not exceed, so among ties the earlier input stays first. *)
Section Sort.
Context {A : Type} (compareFn : A -> A -> Z).

Fixpoint insert_sorted (x : A) (l : list A) : list A :=
    match l with
    | [] => [x]
    | y :: l' => if compareFn x y <=? 0 then x :: l else y :: insert_sorted x l'
    end.

Definition sort (l : list A) : list A := fold_right insert_sorted [] l.

  (** [a] may stand before [b]. *)
Definition notAfter (a b : A) : Prop := compareFn a b <= 0.

  (** The comparator does not tell [a] and [b] apart. *)
Definition tied (a b : A) : bool := compareFn a b =? 0.
End Sort.

(** What ECMAScript asks of a comparator for the order to be defined:
    swapping the arguments flips the sign, and "not after" is transitive. *)
Record ConsistentComparator {A : Type} (cmp : A -> A -> Z) : Prop := {
  cmp_flip : forall a b, Z.sgn (cmp b a) = - Z.sgn (cmp a b);
  cmp_trans : forall a b c, cmp a b <= 0 -> cmp b c <= 0 -> cmp a c <= 0
}.

(** ** The content-hash detector and the keyword filter *)

Section Detector.
  (** [String.prototype.localeCompare] and [String.prototype.toLowerCase]
      as the host provides them. *)
Variable localeCompare : string -> string -> Z.
Variable toLowerCase : string -> string.

Definition by_link (a b : HashedJob) : Z := localeCompare (h_link a) (h_link b).

Definition generateJobsHash (jobs : list Job) : string :=
    let jobsString := JSON_stringify (sort by_link (map hashed jobs)) in
    sha256_hex jobsString.

  (** [`${job.title} ${job.department}`.toLowerCase()] *)
Definition searchText (job : Job) : string :=
    toLowerCase (title job +:+ " " +:+ department job).

Definition matchesAny (keywords : list string) (job : Job) : bool :=
    existsb (fun keyword => includes (searchText job) (toLowerCase keyword)) keywords.

  (** [!keywords || keywords.length === 0]; an absent list is [None]. *)
Definition noKeywords (keywords : option (list string)) : bool :=
    match keywords with
    | None => true
    | Some ks => (length ks =? 0)%nat
    end.

Definition keywordList (keywords : option (list string)) : list string :=
    match keywords with
    | None => []
    | Some ks => ks
    end.

  (** worker.js *)
Definition filterJobsByKeywords (jobs : list Job) (keywords : option (list string))
    : list Job :=
    if noKeywords keywords then jobs
    else List.filter (matchesAny (keywordList keywords)) jobs.

  (** mailslurp-scraper.js *)
Record EmailCheck := {
    shouldSend : bool;
    matchingJobs : list Job;
    reason : string
  }.

Definition shouldSendEmail (jobs : list Job) (keywords : option (list string))
    : EmailCheck :=
    if noKeywords keywords then
      {| shouldSend := true; matchingJobs := jobs; reason := "no_keywords_filter" |}
    else
      let matchingJobs := List.filter (matchesAny (keywordList keywords)) jobs in
      if (length matchingJobs =? 0)%nat then
        {| shouldSend := false; matchingJobs := []; reason := "no_keyword_matches" |}
      else
        {| shouldSend := true; matchingJobs := matchingJobs;
           reason := "keyword_matches_found" |}.

  (** [getMatchedKeywords] of the e-mail services. *)
Definition getMatchedKeywords (job : Job) (keywords : list string) : list string :=
    List.filter (fun keyword => includes (searchText job) (toLowerCase keyword)) keywords.
End Detector.

(** *** Host instances used to run the model

    On ASCII text [toLowerCase] lowers the letters A to Z and leaves the
    rest. *)
Definition lower_byte (b : Z) : Z :=
  if (65 <=? b) && (b <=? 90) then b + 32 else b.

Definition asciiLower (s : string) : string :=
  string_of_bytes (map lower_byte (bytes_of_string s)).

(** Code-unit order, the order of [<] on strings. *)
Definition codeUnitCompare (a b : string) : Z :=
  match String.compare a b with
  | Lt => -1
  | Eq => 0
  | Gt => 1
  end.

(** The root collation on strings of ASCII letters and digits, which
    [localeCompare] follows in the default locale: digits before letters
    and letters alphabetically without regard to case; strings equal up to
    case are then told apart at the first difference, lower case first. *)
Definition swap_case_byte (b : Z) : Z :=
  if (65 <=? b) && (b <=? 90) then b + 32
  else if (97 <=? b) && (b <=? 122) then b - 32
  else b.

Definition swapCase (s : string) : string :=
  string_of_bytes (map swap_case_byte (bytes_of_string s)).

Definition alnumCollate (a b : string) : Z :=
  match String.compare (asciiLower a) (asciiLower b) with
  | Lt => -1
  | Gt => 1
  | Eq => codeUnitCompare (swapCase a) (swapCase b)
  end.

(** ** Effects

    A cycle reads and writes a store, leaves a trace of what it asked of
    the outside world, and either completes or throws.  [await] on a
    promise that rejects throws; an [async] function turns a throw of its
    body into a rejection. *)

Inductive Completion (A : Type) : Type :=
| Normal (a : A)
| Throw (e : string).
Arguments Normal {A} a.
Arguments Throw {A} e.

Inductive Settled (A : Type) : Type :=
| Fulfilled (value : A)
| Rejected (reason : string).
Arguments Fulfilled {A} value.
Arguments Rejected {A} reason.

Definition settle {A : Type} (c : Completion A) : Settled A :=
  match c with
  | Normal a => Fulfilled a
  | Throw e => Rejected e
  end.

Definition awaited {A : Type} (p : Settled A) : Completion A :=
  match p with
  | Fulfilled a => Normal a
  | Rejected e => Throw e
  end.

Section Eff.
Context {St Ev : Type}.

Definition Eff (A : Type) : Type := St -> St * list Ev * Completion A.

Definition ret {A : Type} (a : A) : Eff A := fun s => (s, [], Normal a).

Definition throw {A : Type} (e : string) : Eff A := fun s => (s, [], Throw e).

Definition bind {A B : Type} (m : Eff A) (k : A -> Eff B) : Eff B :=
    fun s =>
      match m s with
      | (s1, t1, Normal a) =>
          match k a s1 with
          | (s2, t2, r) => (s2, (t1 ++ t2)%list, r)
          end
      | (s1, t1, Throw e) => (s1, t1, Throw e)
      end.

Definition emit (e : Ev) : Eff unit := fun s => (s, [e], Normal tt).

Definition get : Eff St := fun s => (s, [], Normal s).

Definition put (s' : St) : Eff unit := fun _ => (s', [], Normal tt).

  (** [try { m } catch (error) { handler(error) }] *)
Definition try_catch {A : Type} (m : Eff A) (handler : string -> Eff A) : Eff A :=
    fun s =>
      match m s with
      | (s1, t1, Normal a) => (s1, t1, Normal a)
      | (s1, t1, Throw e) =>
          match handler e s1 with
          | (s2, t2, r) => (s2, (t1 ++ t2)%list, r)
          end
      end.

  (** [await p] *)
Definition await {A : Type} (p : Settled A) : Eff A :=
    fun s => (s, [], awaited p).

  (** Calling an [async] function, read without interleaving: the body is
      run to its end where it is called, and the caller gets a promise
      settled the way the body ended.  This gives what each body does and
      how it ends; when it does it, between its [await]s, is what [Task]
      below adds. *)
Definition async {A : Type} (body : Eff A) : Eff (Settled A) :=
    fun s =>
      match body s with
      | (s1, t1, r) => (s1, t1, Normal (settle r))
      end.
End Eff.

Declare Scope eff_scope.
Delimit Scope eff_scope with eff.
Notation "x <- m ;; k" := (bind m (fun x => k))
  (at level 20, m at level 99, k at level 200, only parsing) : eff_scope.
Notation "m ;; k" := (bind m (fun _ => k))
  (at level 100, k at level 200, right associativity, only parsing) : eff_scope.

(** *** Where an [async] function waits

    Called, an [async] function runs up to its first [await] and hands
    back a promise; the rest of its body runs later, when what it awaits
    has settled.  A [Task] is such a body with its [await]s marked:
    [Waits next] is the body suspended at an [await], to go on as [next]
    once the awaited promise has settled. *)
Inductive Task (Ev A : Type) : Type :=
| Finished (r : Completion A)
| Does (e : Ev) (next : Task Ev A)
| Waits (next : Task Ev A).
Arguments Finished {Ev A} r.
Arguments Does {Ev A} e next.
Arguments Waits {Ev A} next.

Section Task.
Context {Ev : Type}.

Fixpoint andThen {A B : Type} (m : Task Ev A) (k : A -> Task Ev B) : Task Ev B :=
    match m with
    | Finished (Normal a) => k a
    | Finished (Throw e) => Finished (Throw e)
    | Does e next => Does e (andThen next k)
    | Waits next => Waits (andThen next k)
    end.

  (** [try { m } catch (error) { handler(error) }] *)
Fixpoint attempt {A : Type} (m : Task Ev A) (handler : string -> Task Ev A) : Task Ev A :=
    match m with
    | Finished (Normal a) => Finished (Normal a)
    | Finished (Throw e) => handler e
    | Does e next => Does e (attempt next handler)
    | Waits next => Waits (attempt next handler)
    end.

Definition does (e : Ev) : Task Ev unit := Does e (Finished (Normal tt)).

Definition returns {A : Type} (a : A) : Task Ev A := Finished (Normal a).

  (** [await p]: the body is suspended, and goes on with the value of [p]
      or with its rejection thrown. *)
Definition awaiting {A : Type} (p : Settled A) : Task Ev A := Waits (Finished (awaited p)).

  (** Running a body up to its next [await], or to its end: what it did,
      and what is left of it. *)
Fixpoint upToAwait {A : Type} (m : Task Ev A) : list Ev * Task Ev A :=
    match m with
    | Does e next => let '(t, rest) := upToAwait next in (e :: t, rest)
    | _ => ([], m)
    end.

Definition pending {A : Type} (m : Task Ev A) : bool :=
    match m with
    | Waits _ => true
    | _ => false
    end.

  (** The [await]s a body has still to pass. *)
Fixpoint awaitsLeft {A : Type} (m : Task Ev A) : nat :=
    match m with
    | Finished _ => 0
    | Does _ next => awaitsLeft next
    | Waits next => S (awaitsLeft next)
    end.

  (** Everything a body has still to do, and how it ends. *)
Fixpoint eventsLeft {A : Type} (m : Task Ev A) : list Ev :=
    match m with
    | Finished _ => []
    | Does e next => e :: eventsLeft next
    | Waits next => eventsLeft next
    end.

Fixpoint ending {A : Type} (m : Task Ev A) : Completion A :=
    match m with
    | Finished r => r
    | Does _ next => ending next
    | Waits next => ending next
    end.
End Task.

Declare Scope task_scope.
Delimit Scope task_scope with task.
Notation "x <- m ;; k" := (andThen m (fun x => k))
  (at level 20, m at level 99, k at level 200, only parsing) : task_scope.
Notation "m ;; k" := (andThen m (fun _ => k))
  (at level 100, k at level 200, right associativity, only parsing) : task_scope.

Definition final_state {St Ev A : Type} (r : St * list Ev * Completion A) : St :=
  fst (fst r).
Definition trace {St Ev A : Type} (r : St * list Ev * Completion A) : list Ev :=
  snd (fst r).
Definition completion {St Ev A : Type} (r : St * list Ev * Completion A) : Completion A :=
  snd r.

(** [process.env.X ? ... : ...]: an unset variable and the empty string
    both count as absent. *)
Definition truthy (v : option string) : bool :=
  match v with
  | None => false
  | Some s => negb (String.eqb s "")
  end.

(** [s.split(',')] *)
Fixpoint split_commas (cur : string) (s : string) : list string :=
  match s with
  | EmptyString => [cur]
  | String c s' =>
      if Ascii.eqb c ","%char then cur :: split_commas "" s'
      else split_commas (cur +:+ String c EmptyString) s'
  end.

(** [JOB_KEYWORDS ? JOB_KEYWORDS.split(',').map(k => k.trim()) : defaults] *)
Definition keywordsFromEnv (JOB_KEYWORDS : option string) (defaults : list string)
  : list string :=
  match JOB_KEYWORDS with
  | Some s => if truthy (Some s) then map trim (split_commas "" s) else defaults
  | None => defaults
  end.

(** [hash.substring(0, 12)] *)
Definition short_hash (hash : string) : string := substring_to 12 hash.

(** What an e-mail service puts in one alert: the recipient, the keywords
    shown, and per matching job the keywords it matched.  The fixed markup
    of the HTML template is not represented. *)
Record JobAlert := {
  alert_to : option string;
  alert_keywords : list string;
  alert_cards : list (Job * list string)
}.

(** The object [sendJobAlert] resolves to. *)
Inductive AlertResult :=
| AlertSkipped                       (* success, reason: 'no_matching_jobs' *)
| AlertSent (emailId : string)       (* success, emailId *)
| AlertFailed (error : string).      (* success: false, error *)

Definition alert_success (r : AlertResult) : bool :=
  match r with
  | AlertFailed _ => false
  | _ => true
  end.

(** [array.map((x, index) => f(x, index))] *)
Fixpoint mapi_from {A B : Type} (i : nat) (f : nat -> A -> B) (l : list A) : list B :=
  match l with
  | [] => []
  | x :: l' => f i x :: mapi_from (S i) f l'
  end.

(** ** mailslurp-scraper.js with email-service.js *)

Module Mailslurp.
Local Open Scope eff_scope.

Record Config := {
    email_enabled : bool;                (* EMAIL_ENABLED !== 'false' *)
    email_receiver : option string;      (* EMAIL_RECEIVER *)
    keywords : list string               (* config.scraping.keywords *)
  }.

Inductive Activity :=
  | ScrapeCompleted (jobsCount : nat) (status message : string)
  | CheckCompleted (jobsCount : nat) (status : string) (reason : option string)
                   (hash : string)
  | EmailSent (jobsCount matchingJobsCount : nat) (emailId : string) (hash : string)
  | EmailFailed (jobsCount matchingJobsCount : nat) (error : string) (hash : string)
  | CheckFailed (error : string).

Record LogEntry := { timestamp : string; activity : Activity }.

  (** jobs-hash.txt, latest-jobs.json and scraper-log.json; [None] is a
      file that is not there or cannot be read. *)
Record Files := {
    hashFile : option string;
    jobsFile : option (list Job);
    logFile : list LogEntry
  }.

  (** How the outside world answers during one cycle. *)
Record Outside := {
    clock : string;
    hashWrite : Settled unit;
    jobsWrite : Settled unit;
    logWrite : Settled unit;
    inbox : Settled unit;                (* an inbox is there, or initialize() throws *)
    sendEmail : Settled string           (* MailSlurp returns the id of the sent mail *)
  }.

Inductive Event :=
  | ConsoleLog (line : string)
  | ConsoleError (line : string)
  | WriteHash (hash : string)
  | WriteJobs (jobs : list Job)
  | WriteLog (logs : list LogEntry)
  | SendEmail (alert : JobAlert).

Definition M := @Eff Files Event.

  (** [emailService] as the module sets it when it loads: an object when
      e-mail is enabled and a receiver is set.  [start()] puts it back to
      [null] if the service cannot be initialised. *)
Definition configuredEmailService (config : Config) : bool :=
    email_enabled config && truthy (email_receiver config).

Section Cycle.
Variable localeCompare : string -> string -> Z.
Variable toLowerCase : string -> string.
Variable config : Config.
    (** The module variable [emailService]: [true] for a service object,
        [false] for [null]. *)
Variable emailService : bool.
Variable out : Outside.

Definition loadPreviousHash : M (option string) :=
      files <- get ;;
      match hashFile files with
      | Some hash => ret (Some (trim hash))
      | None =>
          emit (ConsoleLog "📋 No previous hash found, treating as first run") ;;
          ret None
      end.

Definition saveHash (hash : string) : M unit :=
      try_catch
        (emit (WriteHash hash) ;;
         await (hashWrite out) ;;
         files <- get ;;
         put {| hashFile := Some hash; jobsFile := jobsFile files;
                logFile := logFile files |} ;;
         emit (ConsoleLog ("💾 Hash saved: " +:+ short_hash hash +:+ "...")))
        (fun error => emit (ConsoleError ("❌ Error saving hash: " +:+ error))).

Definition saveJobs (jobs : list Job) : M unit :=
      try_catch
        (emit (WriteJobs jobs) ;;
         await (jobsWrite out) ;;
         files <- get ;;
         put {| hashFile := hashFile files; jobsFile := Some jobs;
                logFile := logFile files |} ;;
         emit (ConsoleLog ("💾 Saved " +:+ decimal (length jobs)
                           +:+ " jobs to ./latest-jobs.json")))
        (fun error => emit (ConsoleError ("❌ Error saving jobs: " +:+ error))).

    (** Keep only the last 100 entries. *)
Definition last_entries (n : nat) (logs : list LogEntry) : list LogEntry :=
      if (n <? length logs)%nat then skipn (length logs - n) logs else logs.

Definition logActivity (a : Activity) : M unit :=
      try_catch
        (files <- get ;;
         let logEntry := {| timestamp := clock out; activity := a |} in
         let logs := last_entries 100 (logFile files ++ [logEntry])%list in
         emit (WriteLog logs) ;;
         await (logWrite out) ;;
         put {| hashFile := hashFile files; jobsFile := jobsFile files;
                logFile := logs |})
        (fun error => emit (ConsoleError ("❌ Error logging activity: " +:+ error))).

    (** The alert [sendJobAlert] builds for records that matched the
        configured keywords. *)
Definition alertFor (matching : list Job) : JobAlert :=
      {| alert_to := email_receiver config;
         alert_keywords := keywords config;
         alert_cards :=
           map (fun job => (job, getMatchedKeywords toLowerCase job (keywords config)))
               matching |}.

    (** [EmailService.sendJobAlert] *)
Definition sendJobAlert (jobs : list Job) (keywords : list string) : M AlertResult :=
      try_catch
        (await (inbox out) ;;
         let matchingJobs := filterJobsByKeywords toLowerCase jobs (Some keywords) in
         if (length matchingJobs =? 0)%nat then
           emit (ConsoleLog "📧 No jobs match the specified keywords, skipping email") ;;
           ret AlertSkipped
         else
           emit (ConsoleLog ("📧 Sending email notification for "
                             +:+ decimal (length matchingJobs) +:+ " matching job(s)...")) ;;
           emit (SendEmail
                   {| alert_to := email_receiver config;
                      alert_keywords := keywords;
                      alert_cards :=
                        map (fun job => (job, getMatchedKeywords toLowerCase job keywords))
                            matchingJobs |}) ;;
           emailId <- await (sendEmail out) ;;
           emit (ConsoleLog ("✅ Email sent successfully! Email ID: " +:+ emailId)) ;;
           ret (AlertSent emailId))
        (fun error =>
           emit (ConsoleError ("❌ Failed to send email: " +:+ error)) ;;
           ret (AlertFailed error)).

    (** The lines printed for one matching record. *)
Definition matchingBlock (index : nat) (job : Job) : list string :=
      [ nl +:+ decimal (index + 1) +:+ ". " +:+ title job;
        "   Department: " +:+ department job;
        "   Location: " +:+ location job;
        "   Link: " +:+ link job ].

    (** The header and the [forEach] that end a cycle with matches. *)
Definition showMatching (jobs : list Job) : M unit :=
      fold_right (fun line rest => emit (ConsoleLog line) ;; rest) (ret tt)
        ([nl +:+ "📋 Matching Jobs:"] ++ concat (mapi_from 0 matchingBlock jobs))%list.

Definition notifyByEmail (currentJobs : list Job) (currentHash : string)
               (emailCheck : EmailCheck) : M unit :=
      if emailService then
        emit (ConsoleLog "📧 Sending email notification...") ;;
        emailResult <- sendJobAlert (matchingJobs emailCheck) (keywords config) ;;
        match emailResult with
        | AlertFailed error =>
            emit (ConsoleError ("❌ Email sending failed: " +:+ error)) ;;
            logActivity (EmailFailed (length currentJobs)
                                     (length (matchingJobs emailCheck))
                                     error (short_hash currentHash))
        | AlertSent emailId =>
            emit (ConsoleLog "✅ Email sent successfully!") ;;
            logActivity (EmailSent (length currentJobs)
                                   (length (matchingJobs emailCheck))
                                   emailId (short_hash currentHash))
        | AlertSkipped =>
            emit (ConsoleLog "✅ Email sent successfully!") ;;
            logActivity (EmailSent (length currentJobs)
                                   (length (matchingJobs emailCheck))
                                   "" (short_hash currentHash))
        end
      else
        emit (ConsoleLog "📧 Email service not configured, skipping email").

    (** One cycle; [scraped] is what [scrapeJobs()] settles to.  Of what
        the cycle prints, the lines that tell which branch was taken are
        kept; the banner with the start time and the keywords, the two
        lines showing the hashes and the closing line with the duration
        are left out. *)
Definition checkForJobs (scraped : Settled (list Job)) : M unit :=
      try_catch
        (currentJobs <- await scraped ;;
         if (length currentJobs =? 0)%nat then
           emit (ConsoleLog "⚠️ No jobs found - this might indicate a scraping issue") ;;
           logActivity (ScrapeCompleted 0 "warning" "No jobs found")
         else
           let currentHash := generateJobsHash localeCompare currentJobs in
           previousHash <- loadPreviousHash ;;
           let jobsChanged := negb (bool_decide (previousHash = Some currentHash)) in
           if negb jobsChanged then
             emit (ConsoleLog "😴 No changes detected in job listings") ;;
             logActivity (CheckCompleted (length currentJobs) "no_changes" None
                                         (short_hash currentHash))
           else
             emit (ConsoleLog "✨ Jobs have changed! Checking keywords...") ;;
             let emailCheck :=
               shouldSendEmail toLowerCase currentJobs (Some (keywords config)) in
             if negb (shouldSend emailCheck) then
               emit (ConsoleLog ("📧 No email sent: " +:+ reason emailCheck)) ;;
               saveHash currentHash ;;
               saveJobs currentJobs ;;
               logActivity (CheckCompleted (length currentJobs) "no_email"
                                           (Some (reason emailCheck))
                                           (short_hash currentHash))
             else
               emit (ConsoleLog ("📧 Found " +:+ decimal (length (matchingJobs emailCheck))
                                 +:+ " matching job(s)!")) ;;
               notifyByEmail currentJobs currentHash emailCheck ;;
               saveHash currentHash ;;
               saveJobs currentJobs ;;
               showMatching (matchingJobs emailCheck))
        (fun error =>
           emit (ConsoleError ("💥 Error during job check: " +:+ error)) ;;
           logActivity (CheckFailed error)).
End Cycle.

  (** The e-mails a run asked MailSlurp to send. *)
Definition emails (t : list Event) : list JobAlert :=
    flat_map (fun e => match e with SendEmail a => [a] | _ => [] end) t.

  (** The digests a run asked to have written to jobs-hash.txt. *)
Definition hashWrites (t : list Event) : list string :=
    flat_map (fun e => match e with WriteHash h => [h] | _ => [] end) t.

Definition jobsWrites (t : list Event) : list (list Job) :=
    flat_map (fun e => match e with WriteJobs js => [js] | _ => [] end) t.

  (** What a run did after it first asked for the digest to be written. *)
Fixpoint afterHashWrite (t : list Event) : list Event :=
    match t with
    | [] => []
    | WriteHash _ :: t' => t'
    | _ :: t' => afterHashWrite t'
    end.
End Mailslurp.

(** ** src/worker.js with src/worker-email-service.js *)

Module Worker.
Local Open Scope eff_scope.

Definition DEFAULT_KEYWORDS : list string :=
    ["Software"; "Backend"; "Frontend"; "Full Stack"; "DevOps"; "Data";
     "Machine Learning"; "AI"; "Cloud"; "Senior"; "Lead"; "Principal"].

  (** The bindings of [env] that the cycle reads. *)
Record Env := {
    JOB_KEYWORDS : option string;
    EMAIL_ENABLED : option string;
    EMAIL_RECEIVER : option string;
    MAILSLURP_API_KEY : option string
  }.

Inductive LogEntry :=
  | JobsFound (timestamp : string) (jobsCount matchingJobsCount : nat) (hash : string)
              (jobs : list (string * string))
  | ErrorLogged (timestamp : string) (error : string).

  (** The keys of [env.JOB_STORAGE]; [None] is a key never written. *)
Record KV := {
    jobs_hash : option string;
    latest_jobs : option (list Job);
    activity_logs : list LogEntry
  }.

Record Outside := {
    clock : string;
    putHash : Settled unit;
    putJobs : Settled unit;
    putLogs : Settled unit;
    inbox : Settled unit;
    sendEmail : Settled string
  }.

Inductive Event :=
  | ConsoleLog (line : string)
  | ConsoleError (line : string)
  | PutHash (hash : string)
  | PutJobs (jobs : list Job)
  | PutLogs (logs : list LogEntry)
  | SendEmail (alert : JobAlert).

  (** The object [checkForJobs] resolves to. *)
Inductive Result :=
  | NoJobsFound                  (* success: false, message: 'No jobs found' *)
  | NoChanges                    (* success: true, message: 'No changes detected' *)
  | NoMatchingJobs               (* success: true, message: 'No matching jobs found' *)
  | Processed (matchingJobsCount totalJobsCount : nat) (jobs : list Job)
  | Failed (error : string).     (* success: false, error *)

Definition M := @Eff KV Event.

Section Cycle.
Variable localeCompare : string -> string -> Z.
Variable toLowerCase : string -> string.
Variable env : Env.
Variable out : Outside.

Definition keywords : list string := keywordsFromEnv (JOB_KEYWORDS env) DEFAULT_KEYWORDS.

    (** [env.EMAIL_ENABLED !== 'false'] *)
Definition email_enabled : bool :=
      negb (bool_decide (EMAIL_ENABLED env = Some "false")).

    (** Keep only the last 10 entries. *)
Definition last_entries (n : nat) (logs : list LogEntry) : list LogEntry :=
      skipn (length logs - n) logs.

Definition putKey (ev : Event) (answer : Settled unit) (store : KV -> KV)
      : M unit :=
      emit ev ;;
      await answer ;;
      kv <- get ;;
      put (store kv).

Definition put_jobs_hash (hash : string) : M unit :=
      putKey (PutHash hash) (putHash out)
        (fun kv => {| jobs_hash := Some hash; latest_jobs := latest_jobs kv;
                      activity_logs := activity_logs kv |}).

Definition put_latest_jobs (jobs : list Job) : M unit :=
      putKey (PutJobs jobs) (putJobs out)
        (fun kv => {| jobs_hash := jobs_hash kv; latest_jobs := Some jobs;
                      activity_logs := activity_logs kv |}).

Definition put_activity_logs (logs : list LogEntry) : M unit :=
      putKey (PutLogs logs) (putLogs out)
        (fun kv => {| jobs_hash := jobs_hash kv; latest_jobs := latest_jobs kv;
                      activity_logs := logs |}).

Definition appendLog (entry : LogEntry) : M unit :=
      kv <- get ;;
      put_activity_logs (last_entries 10 (activity_logs kv ++ [entry])%list).

    (** E-mail is asked for; and if so, the service can be built. *)
Definition emailOn : bool := email_enabled && truthy (EMAIL_RECEIVER env).
Definition serviceBuilds : bool := negb emailOn || truthy (MAILSLURP_API_KEY env).

    (** [new WorkerEmailService(env)] *)
Definition newWorkerEmailService : M unit :=
      if truthy (MAILSLURP_API_KEY env) then ret tt
      else throw "MAILSLURP_API_KEY is required in environment variables".

    (** [WorkerEmailService.sendJobAlert]; a service just built has no
        inbox, so [initialize()] runs first. *)
Definition sendJobAlert (jobs : list Job) (keywords : list string) : M AlertResult :=
      try_catch
        (emit (ConsoleLog "📧 Initializing inbox for email sending...") ;;
         await (inbox out) ;;
         let matchingJobs := filterJobsByKeywords toLowerCase jobs (Some keywords) in
         if (length matchingJobs =? 0)%nat then
           emit (ConsoleLog "📧 No jobs match the specified keywords, skipping email") ;;
           ret AlertSkipped
         else
           emit (ConsoleLog ("📧 Sending email notification for "
                             +:+ decimal (length matchingJobs) +:+ " matching job(s)...")) ;;
           emit (SendEmail
                   {| alert_to := EMAIL_RECEIVER env;
                      alert_keywords := keywords;
                      alert_cards :=
                        map (fun job => (job, getMatchedKeywords toLowerCase job keywords))
                            matchingJobs |}) ;;
           emailId <- await (sendEmail out) ;;
           emit (ConsoleLog ("✅ Email sent successfully! Email ID: " +:+ emailId)) ;;
           ret (AlertSent emailId))
        (fun error =>
           emit (ConsoleError ("❌ Failed to send email: " +:+ error)) ;;
           ret (AlertFailed error)).

Definition notifyByEmail (matchingJobs : list Job) : M unit :=
      if emailOn then
        emit (ConsoleLog "📧 Sending email notification...") ;;
        newWorkerEmailService ;;
        emailResult <- sendJobAlert matchingJobs keywords ;;
        match emailResult with
        | AlertFailed error => emit (ConsoleError ("❌ Email sending failed: " +:+ error))
        | _ => emit (ConsoleLog "✅ Email sent successfully!")
        end
      else
        emit (ConsoleLog "📧 Email not configured, skipping email notification").

    (** One cycle, to the object it resolves to.  Of what it prints, the
        banner with the start time, the two lines showing the hashes and
        the closing line with the duration are left out. *)
Definition checkForJobs (scraped : Settled (list Job)) : M Result :=
      try_catch
        (emit (ConsoleLog ("🔑 Keywords: " +:+ join ", " keywords)) ;;
         currentJobs <- await scraped ;;
         if (length currentJobs =? 0)%nat then
           emit (ConsoleLog "⚠️ No jobs found - this might indicate a scraping issue") ;;
           ret NoJobsFound
         else
           let currentHash := generateJobsHash localeCompare currentJobs in
           kv <- get ;;
           let previousHash := jobs_hash kv in
           let jobsChanged := negb (bool_decide (previousHash = Some currentHash)) in
           if negb jobsChanged then
             emit (ConsoleLog "😴 No changes detected in job listings") ;;
             ret NoChanges
           else
             emit (ConsoleLog "✨ Jobs have changed! Checking keywords...") ;;
             let matchingJobs :=
               filterJobsByKeywords toLowerCase currentJobs (Some keywords) in
             if (length matchingJobs =? 0)%nat then
               emit (ConsoleLog
                       "📧 No jobs match keywords, saving hash but not sending email") ;;
               put_jobs_hash currentHash ;;
               put_latest_jobs currentJobs ;;
               ret NoMatchingJobs
             else
               emit (ConsoleLog ("📧 Found " +:+ decimal (length matchingJobs)
                                 +:+ " matching job(s)!")) ;;
               notifyByEmail matchingJobs ;;
               put_jobs_hash currentHash ;;
               put_latest_jobs currentJobs ;;
               appendLog (JobsFound (clock out) (length currentJobs) (length matchingJobs)
                                    (short_hash currentHash)
                                    (map (fun job => (title job, link job)) matchingJobs)) ;;
               ret (Processed (length matchingJobs) (length currentJobs) matchingJobs))
        (fun error =>
           emit (ConsoleError ("💥 Error during job check: " +:+ error)) ;;
           try_catch
             (appendLog (ErrorLogged (clock out) error))
             (fun logError => emit (ConsoleError ("Failed to log error: " +:+ logError))) ;;
           ret (Failed error)).
End Cycle.

Definition emails (t : list Event) : list JobAlert :=
    flat_map (fun e => match e with SendEmail a => [a] | _ => [] end) t.

Definition hashPuts (t : list Event) : list string :=
    flat_map (fun e => match e with PutHash h => [h] | _ => [] end) t.

Definition jobsPuts (t : list Event) : list (list Job) :=
    flat_map (fun e => match e with PutJobs js => [js] | _ => [] end) t.

  (** What a run did after it first asked for the digest to be stored. *)
Fixpoint afterHashPut (t : list Event) : list Event :=
    match t with
    | [] => []
    | PutHash _ :: t' => t'
    | _ :: t' => afterHashPut t'
    end.
End Worker.

(** ** enhanced-scraper.js *)

(** [`${v}`] for an environment value. *)
Definition envText (v : option string) : string :=
  match v with
  | Some s => s
  | None => "undefined"
  end.

(** [Promise.allSettled]: it waits for every promise and fulfils with one
    entry per promise, in order, whatever each one did. *)
Definition allSettled {A : Type} (promises : list (Settled A)) : Settled (list (Settled A)) :=
  Fulfilled promises.

(** One job in the HTML of an e-mail: the values the template interpolates,
    in the order it does. *)
Record Card := {
  card_href : string;
  card_title : string;
  card_department : string;
  card_location : string;
  card_apply : string
}.

Record MailOptions := {
  mail_from : option string;
  mail_to : option string;
  mail_subject : string;
  mail_found : option nat;        (* the count shown in the body, if any *)
  mail_cards : list Card
}.

Module Enhanced.
Local Open Scope eff_scope.

Record Config := {
    email_enabled : bool;
    email_user : option string;
    email_pass : option string;
    email_to : option string;
    webhook_enabled : bool;
    webhook_url : option string;
    discord_enabled : bool;
    discord_webhookUrl : option string;
    telegram_enabled : bool;
    telegram_botToken : option string;
    telegram_chatId : option string;
    console_enabled : bool;
    fileLog_enabled : bool;
    fileLog_path : string
  }.

  (** The sinks that are started as promises; the console is written to
      directly. *)
Inductive Sink := Email | Discord | Telegram | Webhook | FileLog.

Definition sink_eqb (a b : Sink) : bool :=
    match a, b with
    | Email, Email | Discord, Discord | Telegram, Telegram
    | Webhook, Webhook | FileLog, FileLog => true
    | _, _ => false
    end.

Definition all_sinks : list Sink := [Email; Discord; Telegram; Webhook; FileLog].

Definition enabled (config : Config) (s : Sink) : bool :=
    match s with
    | Email => email_enabled config
    | Discord => discord_enabled config
    | Telegram => telegram_enabled config
    | Webhook => webhook_enabled config
    | FileLog => fileLog_enabled config
    end.

  (** How the outside world answers each sink: the dynamic import of
      node-fetch, and the call that delivers. *)
Record Outside := {
    clock : string;                       (* new Date().toISOString() *)
    localTime : string;                   (* new Date().toLocaleString() *)
    importFetch : Sink -> Settled unit;
    deliver : Sink -> Settled unit
  }.

Record Field := { name : string; value : string; inline : bool }.

Record Embed := {
    embed_title : string;
    description : string;
    color : Z;
    fields : list Field;
    embed_timestamp : string
  }.

Record TelegramMessage := {
    chat_id : option string;
    text : string;
    parse_mode : string;
    disable_web_page_preview : bool
  }.

Record WebhookPayload := {
    event : string;
    payload_timestamp : string;
    payload_jobs : list Job;
    payload_count : nat
  }.

Record FileEntry := {
    entry_timestamp : string;
    entry_count : nat;
    entry_jobs : list Job
  }.

Inductive Body :=
  | DiscordBody (embeds : list Embed)
  | TelegramBody (message : TelegramMessage)
  | WebhookBody (payload : WebhookPayload).

Inductive Event :=
  | ConsoleLog (line : string)
  | ConsoleError (line : string)
  | SendMail (mailOptions : MailOptions)
  | Post (url : string) (body : Body)
  | AppendFile (path : string) (logEntry : FileEntry).

  (** [previousJobs], the set of links seen. *)
Definition M := @Eff (gset string) Event.

Section Cycle.
Variable config : Config.
Variable out : Outside.

    (** What the module does with [transporter] when it loads (lines
        41-52): with e-mail enabled, a user and a password it calls
        [nodemailer.createTransporter].  nodemailer has no function of that
        name (its function is [createTransport], which the archived
        scraper calls), so the call throws a TypeError and the process
        ends before [start()] runs; otherwise the variable stays [null].
        [true] would be a transporter object. *)
Definition loadTransporter : Completion bool :=
      if email_enabled config && truthy (email_user config) && truthy (email_pass config)
      then Throw "nodemailer.createTransporter is not a function"
      else Normal false.

    (** [transporter] in a process that got as far as a cycle. *)
Definition transporter : bool :=
      match loadTransporter with
      | Normal t => t
      | Throw _ => false
      end.

Definition card (job : Job) : Card :=
      {| card_href := link job; card_title := title job;
         card_department := department job; card_location := location job;
         card_apply := link job |}.

Definition sendEmailNotification (newJobs : list Job) : M unit :=
      if negb transporter || negb (truthy (email_to config)) then
        emit (ConsoleLog "Email not configured, skipping email notification")
      else
        let mailOptions :=
          {| mail_from := email_user config;
             mail_to := email_to config;
             mail_subject := "🔔 " +:+ decimal (length newJobs)
                             +:+ " New Airbnb Job(s) Available!";
             mail_found := Some (length newJobs);
             mail_cards := map card newJobs |} in
        try_catch
          (emit (SendMail mailOptions) ;;
           await (deliver out Email) ;;
           emit (ConsoleLog "✅ Email notification sent successfully"))
          (fun error => emit (ConsoleError ("❌ Error sending email: " +:+ error))).

Definition discordField (job : Job) : Field :=
      {| name := title job;
         value := "**Department:** " +:+ department job +:+ nl
                  +:+ "**Location:** " +:+ location job +:+ nl
                  +:+ "[Apply Here](" +:+ link job +:+ ")";
         inline := false |}.

Definition discordEmbed (newJobs : list Job) : Embed :=
      {| embed_title := "🚀 New Airbnb Job Openings!";
         description := "Found " +:+ decimal (length newJobs)
                        +:+ " new engineering position(s) in Bangalore";
         color := 16734815;
         fields := map discordField (firstn 10 newJobs);
         embed_timestamp := clock out |}.

Definition sendDiscordNotification (newJobs : list Job) : M unit :=
      if negb (discord_enabled config) || negb (truthy (discord_webhookUrl config)) then
        ret tt
      else
        await (importFetch out Discord) ;;
        let embed := discordEmbed newJobs in
        try_catch
          (emit (Post (envText (discord_webhookUrl config)) (DiscordBody [embed])) ;;
           await (deliver out Discord) ;;
           emit (ConsoleLog "✅ Discord notification sent successfully"))
          (fun error =>
             emit (ConsoleError ("❌ Error sending Discord notification: " +:+ error))).

Definition telegramLine (job : Job) : string :=
      "📝 *" +:+ title job +:+ "*" +:+ nl
      +:+ "🏢 " +:+ department job +:+ nl
      +:+ "📍 " +:+ location job +:+ nl
      +:+ "🔗 [Apply Here](" +:+ link job +:+ ")" +:+ nl.

Definition telegramText (newJobs : list Job) : string :=
      "🚀 *New Airbnb Job Openings!*" +:+ nl +:+ nl
      +:+ "Found " +:+ decimal (length newJobs)
      +:+ " new engineering position(s) in Bangalore:" +:+ nl +:+ nl
      +:+ join nl (map telegramLine newJobs).

Definition sendTelegramNotification (newJobs : list Job) : M unit :=
      if negb (telegram_enabled config) || negb (truthy (telegram_botToken config))
         || negb (truthy (telegram_chatId config)) then
        ret tt
      else
        await (importFetch out Telegram) ;;
        let message := telegramText newJobs in
        try_catch
          (emit (Post ("https://api.telegram.org/bot"
                       +:+ envText (telegram_botToken config) +:+ "/sendMessage")
                      (TelegramBody
                         {| chat_id := telegram_chatId config;
                            text := message;
                            parse_mode := "Markdown";
                            disable_web_page_preview := true |})) ;;
           await (deliver out Telegram) ;;
           emit (ConsoleLog "✅ Telegram notification sent successfully"))
          (fun error =>
             emit (ConsoleError ("❌ Error sending Telegram notification: " +:+ error))).

Definition sendWebhookNotification (newJobs : list Job) : M unit :=
      if negb (webhook_enabled config) || negb (truthy (webhook_url config)) then
        ret tt
      else
        await (importFetch out Webhook) ;;
        let payload :=
          {| event := "new_jobs"; payload_timestamp := clock out;
             payload_jobs := newJobs; payload_count := length newJobs |} in
        try_catch
          (emit (Post (envText (webhook_url config)) (WebhookBody payload)) ;;
           await (deliver out Webhook) ;;
           emit (ConsoleLog "✅ Webhook notification sent successfully"))
          (fun error =>
             emit (ConsoleError ("❌ Error sending webhook notification: " +:+ error))).

Definition logToFile (newJobs : list Job) : M unit :=
      if negb (fileLog_enabled config) then ret tt
      else
        let logEntry :=
          {| entry_timestamp := clock out; entry_count := length newJobs;
             entry_jobs := newJobs |} in
        try_catch
          (emit (AppendFile (fileLog_path config) logEntry) ;;
           await (deliver out FileLog) ;;
           emit (ConsoleLog "✅ Jobs logged to file successfully"))
          (fun error => emit (ConsoleError ("❌ Error writing to log file: " +:+ error))).

Definition send (s : Sink) (newJobs : list Job) : M unit :=
      match s with
      | Email => sendEmailNotification newJobs
      | Discord => sendDiscordNotification newJobs
      | Telegram => sendTelegramNotification newJobs
      | Webhook => sendWebhookNotification newJobs
      | FileLog => logToFile newJobs
      end.

Definition consoleBlock (index : nat) (job : Job) : list string :=
      [ nl +:+ decimal (index + 1) +:+ ". " +:+ title job;
        "   Department: " +:+ department job;
        "   Location: " +:+ location job;
        "   Link: " +:+ link job ].

Definition printJobs (newJobs : list Job) : M unit :=
      fold_right (fun line rest => emit (ConsoleLog line) ;; rest) (ret tt)
        ([nl +:+ "🎉 NEW JOBS FOUND!"]
         ++ concat (mapi_from 0 consoleBlock newJobs)
         ++ [nl])%list.

    (** [if (config.x.enabled) notifications.push(sendX(newJobs))] for each
        sink in turn: the array of promises, each with the sink it
        belongs to. *)
Fixpoint launch (sinks : list Sink) (newJobs : list Job)
      : M (list (Sink * Settled unit)) :=
      match sinks with
      | [] => ret []
      | s :: rest =>
          if enabled config s then
            p <- async (send s newJobs) ;;
            ps <- launch rest newJobs ;;
            ret ((s, p) :: ps)
          else launch rest newJobs
      end.

    (** The entry of a sink in that array: how its run ends. *)
Definition entry (newJobs : list Job) (s : Sink) : Sink * Settled unit :=
      (s, settle (completion (send s newJobs ∅))).

    (** [sendNotifications], read sink by sink: each sink has run to its
        end when the array is awaited, so the [await] finds every promise
        settled.  The wait itself, with sinks pending at their [await]s,
        is [Fanout.sendNotifications]. *)
Definition sendNotifications (newJobs : list Job) : M unit :=
      (if console_enabled config then printJobs newJobs else ret tt) ;;
      notifications <- launch all_sinks newJobs ;;
      await (allSettled (map snd notifications)) ;;
      ret tt.

    (** [job => !previousJobs.has(job.link)] *)
Definition unseen (previousJobs : gset string) (job : Job) : bool :=
      negb (bool_decide (link job ∈ previousJobs)).

Definition checkForNewJobs (scraped : Settled (list Job)) : M unit :=
      try_catch
        (emit (ConsoleLog ("🔍 Checking for new jobs at " +:+ localTime out +:+ "...")) ;;
         currentJobs <- await scraped ;;
         if (length currentJobs =? 0)%nat then
           emit (ConsoleLog "⚠️ No jobs found - this might indicate a scraping issue")
         else
           previousJobs <- get ;;
           let newJobs := List.filter (unseen previousJobs) currentJobs in
           (if (0 <? length newJobs)%nat then
              emit (ConsoleLog ("✨ Found " +:+ decimal (length newJobs) +:+ " new job(s)!")) ;;
              sendNotifications newJobs ;;
              put (list_to_set (map link currentJobs))
            else
              emit (ConsoleLog "😴 No new jobs found")) ;;
           emit (ConsoleLog ("📊 Total jobs tracked: " +:+ decimal (length currentJobs))))
        (fun error => emit (ConsoleError ("💥 Error checking for new jobs: " +:+ error))).
End Cycle.

  (** The outside world with one sink answered differently. *)
Definition override (out : Outside) (s : Sink) (imp del : Settled unit) : Outside :=
    {| clock := clock out;
       localTime := localTime out;
       importFetch := fun x => if sink_eqb x s then imp else importFetch out x;
       deliver := fun x => if sink_eqb x s then del else deliver out x |}.

  (** What left the process: everything in a trace except console lines. *)
Definition outbound (t : list Event) : list Event :=
    List.filter (fun e => match e with
                          | ConsoleLog _ | ConsoleError _ => false
                          | _ => true
                          end) t.
End Enhanced.

(** ** enhanced-scraper.js: the fan-out as the event loop runs it

    In [Enhanced] each sink is run to its end where it is called.  Here
    the sinks are bodies with their [await]s marked: a call runs a sink to
    its first [await], and [await Promise.allSettled(notifications)]
    suspends [sendNotifications] while the event loop lets the pending
    sinks go on, one [await] at a time, in an order the program does not
    choose. *)

Module Fanout.
Import Enhanced.
Local Open Scope task_scope.

Section Sinks.
Variable config : Config.
Variable out : Outside.

Definition sendEmailNotification (newJobs : list Job) : Task Event unit :=
      if negb (transporter config) || negb (truthy (email_to config)) then
        does (ConsoleLog "Email not configured, skipping email notification")
      else
        let mailOptions :=
          {| mail_from := email_user config;
             mail_to := email_to config;
             mail_subject := "🔔 " +:+ decimal (length newJobs)
                             +:+ " New Airbnb Job(s) Available!";
             mail_found := Some (length newJobs);
             mail_cards := map card newJobs |} in
        attempt
          (does (SendMail mailOptions) ;;
           awaiting (deliver out Email) ;;
           does (ConsoleLog "✅ Email notification sent successfully"))
          (fun error => does (ConsoleError ("❌ Error sending email: " +:+ error))).

Definition sendDiscordNotification (newJobs : list Job) : Task Event unit :=
      if negb (discord_enabled config) || negb (truthy (discord_webhookUrl config)) then
        returns tt
      else
        awaiting (importFetch out Discord) ;;
        let embed := discordEmbed out newJobs in
        attempt
          (does (Post (envText (discord_webhookUrl config)) (DiscordBody [embed])) ;;
           awaiting (deliver out Discord) ;;
           does (ConsoleLog "✅ Discord notification sent successfully"))
          (fun error =>
             does (ConsoleError ("❌ Error sending Discord notification: " +:+ error))).

Definition sendTelegramNotification (newJobs : list Job) : Task Event unit :=
      if negb (telegram_enabled config) || negb (truthy (telegram_botToken config))
         || negb (truthy (telegram_chatId config)) then
        returns tt
      else
        awaiting (importFetch out Telegram) ;;
        let message := telegramText newJobs in
        attempt
          (does (Post ("https://api.telegram.org/bot"
                       +:+ envText (telegram_botToken config) +:+ "/sendMessage")
                      (TelegramBody
                         {| chat_id := telegram_chatId config;
                            text := message;
                            parse_mode := "Markdown";
                            disable_web_page_preview := true |})) ;;
           awaiting (deliver out Telegram) ;;
           does (ConsoleLog "✅ Telegram notification sent successfully"))
          (fun error =>
             does (ConsoleError ("❌ Error sending Telegram notification: " +:+ error))).

Definition sendWebhookNotification (newJobs : list Job) : Task Event unit :=
      if negb (webhook_enabled config) || negb (truthy (webhook_url config)) then
        returns tt
      else
        awaiting (importFetch out Webhook) ;;
        let payload :=
          {| event := "new_jobs"; payload_timestamp := clock out;
             payload_jobs := newJobs; payload_count := length newJobs |} in
        attempt
          (does (Post (envText (webhook_url config)) (WebhookBody payload)) ;;
           awaiting (deliver out Webhook) ;;
           does (ConsoleLog "✅ Webhook notification sent successfully"))
          (fun error =>
             does (ConsoleError ("❌ Error sending webhook notification: " +:+ error))).

Definition logToFile (newJobs : list Job) : Task Event unit :=
      if negb (fileLog_enabled config) then returns tt
      else
        let logEntry :=
          {| entry_timestamp := clock out; entry_count := length newJobs;
             entry_jobs := newJobs |} in
        attempt
          (does (AppendFile (fileLog_path config) logEntry) ;;
           awaiting (deliver out FileLog) ;;
           does (ConsoleLog "✅ Jobs logged to file successfully"))
          (fun error => does (ConsoleError ("❌ Error writing to log file: " +:+ error))).

Definition send (s : Sink) (newJobs : list Job) : Task Event unit :=
      match s with
      | Email => sendEmailNotification newJobs
      | Discord => sendDiscordNotification newJobs
      | Telegram => sendTelegramNotification newJobs
      | Webhook => sendWebhookNotification newJobs
      | FileLog => logToFile newJobs
      end.

    (** An event with the sink whose body caused it; [None] is
        [sendNotifications] itself. *)
Definition from (origin : option Sink) (t : list Event) : list (option Sink * Event) :=
      map (pair origin) t.

    (** The lines [sendNotifications] prints before it calls a sink. *)
Definition consoleLines (newJobs : list Job) : list string :=
      if console_enabled config then
        ([nl +:+ "🎉 NEW JOBS FOUND!"]
         ++ concat (mapi_from 0 consoleBlock newJobs)
         ++ [nl])%list
      else [].

    (** [if (config.x.enabled) notifications.push(sendX(newJobs))] for each
        sink in turn: every call runs to its first [await]; the array
        holds what is left of each body. *)
Fixpoint launch (sinks : list Sink) (newJobs : list Job)
      : list (option Sink * Event) * list (Sink * Task Event unit) :=
      match sinks with
      | [] => ([], [])
      | s :: rest =>
          if enabled config s then
            let '(t, promise) := upToAwait (send s newJobs) in
            let '(t', promises) := launch rest newJobs in
            ((from (Some s) t ++ t')%list, (s, promise) :: promises)
          else launch rest newJobs
      end.
End Sinks.

  (** What the [n]-th pending promise of the array awaits has settled: its
      body goes on to its next [await] or to its end. *)
Fixpoint resume (n : nat) (promises : list (Sink * Task Event unit))
    : list (option Sink * Event) * list (Sink * Task Event unit) :=
    match promises with
    | [] => ([], [])
    | (s, Waits next) :: rest =>
        match n with
        | O => let '(t, promise) := upToAwait next in
               (map (pair (Some s)) t, (s, promise) :: rest)
        | S n' => let '(t, rest') := resume n' rest in (t, (s, Waits next) :: rest')
        end
    | p :: rest => let '(t, rest') := resume n rest in (t, p :: rest')
    end.

Definition waiting (promises : list (Sink * Task Event unit)) : nat :=
    length (List.filter (fun p => pending (snd p)) promises).

  (** The [await]s the bodies in the array have still to pass. *)
Definition awaits (promises : list (Sink * Task Event unit)) : nat :=
    list_sum (map (fun p => awaitsLeft (snd p)) promises).

  (** The event loop while something is pending: [schedule] tells, turn
      by turn, which of the pending promises goes on next. *)
Fixpoint eventLoop (fuel : nat) (schedule : nat -> nat) (turn : nat)
           (promises : list (Sink * Task Event unit))
    : list (option Sink * Event) * list (Sink * Task Event unit) :=
    match fuel with
    | O => ([], promises)
    | S fuel' =>
        if (waiting promises =? 0)%nat then ([], promises)
        else
          let '(t, promises1) :=
            resume (schedule turn mod waiting promises) promises in
          let '(t', promises2) := eventLoop fuel' schedule (S turn) promises1 in
          ((t ++ t')%list, promises2)
    end.

  (** [await Promise.allSettled(promises)]: the caller goes on when the
      loop has nothing pending left; one turn per [await] still to pass
      is all the loop can take. *)
Definition awaitAllSettled (schedule : nat -> nat)
             (promises : list (Sink * Task Event unit))
    : list (option Sink * Event) * list (Sink * Task Event unit) :=
    eventLoop (awaits promises) schedule 0 promises.

  (** [sendNotifications(newJobs)] to its return: what happened, with the
      sink behind each event, and the array of promises as it is then. *)
Definition sendNotifications (config : Config) (out : Outside) (schedule : nat -> nat)
             (newJobs : list Job)
    : list (option Sink * Event) * list (Sink * Task Event unit) :=
    let console := from None (map ConsoleLog (consoleLines config newJobs)) in
    let '(started, promises) := launch config out all_sinks newJobs in
    let '(waited, settled) := awaitAllSettled schedule promises in
    ((console ++ started ++ waited)%list, settled).

  (** The events of one origin, in the order they happened. *)
Definition origin_eqb (a b : option Sink) : bool :=
    match a, b with
    | None, None => true
    | Some x, Some y => sink_eqb x y
    | _, _ => false
    end.

Definition eventsOf (origin : option Sink) (t : list (option Sink * Event)) : list Event :=
    map snd (List.filter (fun e => origin_eqb (fst e) origin) t).

  (** The events of the sinks still to come in an array of promises. *)
Definition toCome (s : Sink) (promises : list (Sink * Task Event unit)) : list Event :=
    flat_map (fun p => if sink_eqb (fst p) s then eventsLeft (snd p) else []) promises.

  (** A promise is pending at an [await] or settled; and how each body in
      the array ends. *)
Definition suspended (p : Sink * Task Event unit) : Prop :=
    pending (snd p) = true \/ exists r, snd p = Finished r.

Definition endings (promises : list (Sink * Task Event unit))
    : list (Sink * Completion unit) :=
    map (fun p => (fst p, ending (snd p))) promises.
End Fanout.

(** ** The archived scraper.js: e-mail only *)

Module Archive.
Local Open Scope eff_scope.

Record Config := {
    EMAIL_USER : option string;
    EMAIL_TO : option string
  }.

Inductive Event :=
  | ConsoleLog (line : string)
  | ConsoleError (line : string)
  | SendMail (mailOptions : MailOptions).

Definition M := @Eff (gset string) Event.

Section Cycle.
Variable config : Config.
    (** How [transporter.sendMail] settles. *)
Variable sendMail : Settled unit.

Definition card (job : Job) : Card :=
      {| card_href := link job; card_title := title job;
         card_department := department job; card_location := location job;
         card_apply := link job |}.

Definition sendEmailNotification (newJobs : list Job) : M unit :=
      let mailOptions :=
        {| mail_from := EMAIL_USER config;
           mail_to := EMAIL_TO config;
           mail_subject := "New Airbnb Job Openings Alert";
           mail_found := None;
           mail_cards := map card newJobs |} in
      try_catch
        (emit (SendMail mailOptions) ;;
         await sendMail ;;
         emit (ConsoleLog "Email notification sent successfully"))
        (fun error => emit (ConsoleError ("Error sending email: " +:+ error))).

Definition checkForNewJobs (scraped : Settled (list Job)) : M unit :=
      try_catch
        (currentJobs <- await scraped ;;
         let currentJobStrings := map link currentJobs in
         previousJobs <- get ;;
         let newJobs :=
           List.filter (fun job => negb (bool_decide (link job ∈ previousJobs)))
                       currentJobs in
         if (0 <? length newJobs)%nat then
           emit (ConsoleLog ("Found " +:+ decimal (length newJobs) +:+ " new jobs")) ;;
           sendEmailNotification newJobs ;;
           put (list_to_set currentJobStrings)
         else
           emit (ConsoleLog "No new jobs found"))
        (fun error => emit (ConsoleError ("Error checking for new jobs: " +:+ error))).
End Cycle.

Definition mails (t : list Event) : list MailOptions :=
    flat_map (fun e => match e with SendMail m => [m] | _ => [] end) t.
End Archive.

(** ** enhanced-scraper.js: the seen links across restarts *)

Module Seen.
Local Open Scope eff_scope.

(** The process: the set in memory, and previous-jobs.json as the array it
    holds, [None] when the file is missing or cannot be read as one. *)
Record Process := {
  previousJobs : gset string;
  savedJobs : option (list string)
}.

Inductive Event :=
| FromCycle (e : Enhanced.Event)
| ConsoleLog (line : string)
| ConsoleError (line : string)
| WriteSeen (links : list string).

Definition M := @Eff Process Event.

(** A step of the scraper, run on the set in memory. *)
Definition onSet {A : Type} (m : @Eff (gset string) Enhanced.Event A) : M A :=
  fun p =>
    match m (previousJobs p) with
    | (s, t, r) => ({| previousJobs := s; savedJobs := savedJobs p |}, map FromCycle t, r)
    end.

Definition loadPreviousJobs : M unit :=
  p <- get ;;
  match savedJobs p with
  | Some jobs =>
      put {| previousJobs := list_to_set jobs; savedJobs := savedJobs p |} ;;
      emit (ConsoleLog ("📋 Loaded " +:+ decimal (length jobs) +:+ " previously seen jobs"))
  | None =>
      emit (ConsoleLog "📋 No previous jobs file found, starting fresh")
  end.

(** [JSON.stringify([...previousJobs])] written to the file; [fileWrite]
    is how the write settles.  The spread lists the links in the order
    they were inserted, [elements] in an order of its own: the array is
    modelled up to the order of its entries. *)
Definition savePreviousJobs (fileWrite : Settled unit) : M unit :=
  try_catch
    (p <- get ;;
     let links := elements (previousJobs p) in
     emit (WriteSeen links) ;;
     await fileWrite ;;
     put {| previousJobs := previousJobs p; savedJobs := Some links |})
    (fun error => emit (ConsoleError ("Error saving previous jobs: " +:+ error))).

(** The task [scheduleJobs] registers: a check, then a save. *)
Definition scheduledTask (config : Enhanced.Config) (out : Enhanced.Outside)
           (fileWrite : Settled unit) (scraped : Settled (list Job)) : M unit :=
  onSet (Enhanced.checkForNewJobs config out scraped) ;;
  savePreviousJobs fileWrite.

(** [start()] from loading the file to the first save; the lines it prints
    before and the scheduling after are left out. *)
Definition start (config : Enhanced.Config) (out : Enhanced.Outside)
           (fileWrite : Settled unit) (scraped : Settled (list Job)) : M unit :=
  loadPreviousJobs ;;
  onSet (Enhanced.checkForNewJobs config out scraped) ;;
  savePreviousJobs fileWrite.

(** A process just started: nothing in memory, the file as it is. *)
Definition fresh (file : option (list string)) : Process :=
  {| previousJobs := ∅; savedJobs := file |}.

Definition outbound (t : list Event) : list Enhanced.Event :=
  Enhanced.outbound
    (flat_map (fun e => match e with FromCycle e' => [e'] | _ => [] end) t).
End Seen.

(** ** src/worker.js: the status page

    What [handleRequest] answers on [/status], read from the store; [now]
    is the clock when the request is served. *)

Module Status.
Record Report := {
  lastCheck : string;
  currentHash : string;
  jobsCount : nat;
  recentLogs : list Worker.LogEntry;
  timestamp : string
}.

Definition entryTimestamp (logEntry : Worker.LogEntry) : string :=
  match logEntry with
  | Worker.JobsFound t _ _ _ _ => t
  | Worker.ErrorLogged t _ => t
  end.

(** [a || b] for a string that may be absent. *)
Definition orElse (a : option string) (b : string) : string :=
  match a with
  | Some s => if truthy (Some s) then s else b
  | None => b
  end.

(** [logs.slice(-n)] *)
Definition slice_last (n : nat) (logs : list Worker.LogEntry) : list Worker.LogEntry :=
  skipn (length logs - n) logs.

Definition report (now : string) (kv : Worker.KV) : Report :=
  let logs := Worker.activity_logs kv in
  let latestJobs := match Worker.latest_jobs kv with Some jobs => jobs | None => [] end in
  let currentHash := orElse (Worker.jobs_hash kv) "None" in
  {| lastCheck :=
       orElse (option_map entryTimestamp (nth_error logs (length logs - 1))) "Never";
     currentHash := short_hash currentHash;
     jobsCount := length latestJobs;
     recentLogs := slice_last 5 logs;
     timestamp := now |}.
End Status.

(** ** Reading a serialised string back

    The inverse of [json_escape] on the first character or escape of a
    text; used to show that serialisation loses nothing. *)

Definition byte_of (c : ascii) : Z := Z.of_N (N_of_ascii c).

Definition hex_value (c : ascii) : Z :=
  let b := Z.of_N (N_of_ascii c) in
  if (48 <=? b) && (b <=? 57) then b - 48
  else if (97 <=? b) && (b <=? 102) then b - 87
  else 0.

Definition unescape (s : string) : option (Z * string) :=
  match s with
  | EmptyString => None
  | String c rest =>
      let b := Z.of_N (N_of_ascii c) in
      if b =? 92 then
        match rest with
        | EmptyString => None
        | String x rest' =>
            let k := Z.of_N (N_of_ascii x) in
            if k =? 98 then Some (8, rest')
            else if k =? 116 then Some (9, rest')
            else if k =? 110 then Some (10, rest')
            else if k =? 102 then Some (12, rest')
            else if k =? 114 then Some (13, rest')
            else if k =? 34 then Some (34, rest')
            else if k =? 92 then Some (92, rest')
            else if k =? 117 then
              match rest' with
              | String _ (String _ (String h1 (String h2 rest''))) =>
                  Some (16 * hex_value h1 + hex_value h2, rest'')
              | _ => None
              end
            else None
        end
      else if b =? 34 then None
      else Some (b, rest)
  end.

(** An alert agrees with the records that matched: one card each, in
    order, each with the configured keywords found in its record, at
    least one. *)
Definition cards_agree (tl : string -> string) (keywords : list string)
           (matching : list Job) (alert : JobAlert) : Prop :=
  alert_keywords alert = keywords
  /\ map fst (alert_cards alert) = matching
  /\ forall job matched,
       In (job, matched) (alert_cards alert) ->
       matched <> []
       /\ forall keyword,
            In keyword matched <->
            In keyword keywords /\ includes (searchText tl job) (tl keyword) = true.

(** ** Sample records *)

Definition sampleJob (t l d : string) : Job :=
  {| title := t; link := l; department := d; location := "Bangalore, India";
     scraped_at := "2025-01-01T00:00:00.000Z" |}.

Definition backendEngineer : Job := sampleJob "Backend Engineer" "jobA" "Engineering".
Definition designer : Job := sampleJob "Designer" "jobB" "Engineering".
Definition dataAnalyst : Job := sampleJob "Data Analyst" "jobC" "Analytics".

(** A title and a department that read as one word only when nothing
    separates them. *)
Definition dataBase : Job := sampleJob "Data" "jobD" "Base".

(** Two links that differ in case at the point where they differ. *)
Definition lowerLink : Job := sampleJob "Engineer" "jobs7a" "Engineering".
Definition upperLink : Job := sampleJob "Manager" "jobs7B" "Engineering".

(** Two postings under one link. *)
Definition twinOne : Job := sampleJob "Engineer, Payments" "jobT" "Engineering".
Definition twinTwo : Job := sampleJob "Engineer, Search" "jobT" "Engineering".

(** Records known by their link alone. *)
Definition posting (l : string) : Job := sampleJob ("Job " +:+ l) l "Engineering".


(** enhanced-scraper.js with no environment set: only the console. *)
Definition consoleOnly : Enhanced.Config :=
  {| Enhanced.email_enabled := false;
     Enhanced.email_user := None;
     Enhanced.email_pass := None;
     Enhanced.email_to := None;
     Enhanced.webhook_enabled := false;
     Enhanced.webhook_url := None;
     Enhanced.discord_enabled := false;
     Enhanced.discord_webhookUrl := None;
     Enhanced.telegram_enabled := false;
     Enhanced.telegram_botToken := None;
     Enhanced.telegram_chatId := None;
     Enhanced.console_enabled := true;
     Enhanced.fileLog_enabled := false;
     Enhanced.fileLog_path := "./job-alerts.log" |}.

(** Three chat and web hooks switched on, the console off. *)
Definition threeHooks : Enhanced.Config :=
  {| Enhanced.email_enabled := false;
     Enhanced.email_user := None;
     Enhanced.email_pass := None;
     Enhanced.email_to := None;
     Enhanced.webhook_enabled := true;
     Enhanced.webhook_url := Some "https://hooks.example.com/jobs";
     Enhanced.discord_enabled := true;
     Enhanced.discord_webhookUrl := Some "https://discord.example.com/hook";
     Enhanced.telegram_enabled := true;
     Enhanced.telegram_botToken := Some "token";
     Enhanced.telegram_chatId := Some "42";
     Enhanced.console_enabled := false;
     Enhanced.fileLog_enabled := false;
     Enhanced.fileLog_path := "./job-alerts.log" |}.



Definition allDelivered : Enhanced.Outside :=
  {| Enhanced.clock := "2025-01-01T00:00:00.000Z";
     Enhanced.localTime := "1/1/2025, 12:00:00 AM";
     Enhanced.importFetch := fun _ => Fulfilled tt;
     Enhanced.deliver := fun _ => Fulfilled tt |}.

Definition telegramDown : Enhanced.Outside :=
  Enhanced.override allDelivered Enhanced.Telegram (Fulfilled tt) (Rejected "ETIMEDOUT").

(** A store with nothing in it, and an outside world where every call
    succeeds. *)
Definition noFiles : Mailslurp.Files :=
  {| Mailslurp.hashFile := None; Mailslurp.jobsFile := None; Mailslurp.logFile := [] |}.

Definition calmDay : Mailslurp.Outside :=
  {| Mailslurp.clock := "2025-01-01T00:00:00.000Z";
     Mailslurp.hashWrite := Fulfilled tt;
     Mailslurp.jobsWrite := Fulfilled tt;
     Mailslurp.logWrite := Fulfilled tt;
     Mailslurp.inbox := Fulfilled tt;
     Mailslurp.sendEmail := Fulfilled "mail-1" |}.

(** The same day with MailSlurp refusing the e-mail. *)
Definition mailDown : Mailslurp.Outside :=
  {| Mailslurp.clock := "2025-01-01T00:00:00.000Z";
     Mailslurp.hashWrite := Fulfilled tt;
     Mailslurp.jobsWrite := Fulfilled tt;
     Mailslurp.logWrite := Fulfilled tt;
     Mailslurp.inbox := Fulfilled tt;
     Mailslurp.sendEmail := Rejected "503" |}.

(** The same day with the jobs file refusing to be written. *)
Definition recordsRefused : Mailslurp.Outside :=
  {| Mailslurp.clock := "2025-01-01T00:00:00.000Z";
     Mailslurp.hashWrite := Fulfilled tt;
     Mailslurp.jobsWrite := Rejected "ENOSPC";
     Mailslurp.logWrite := Fulfilled tt;
     Mailslurp.inbox := Fulfilled tt;
     Mailslurp.sendEmail := Fulfilled "mail-1" |}.

Definition backendOnly : Mailslurp.Config :=
  {| Mailslurp.email_enabled := true;
     Mailslurp.email_receiver := Some "me@example.com";
     Mailslurp.keywords := ["Backend"] |}.

Definition emptyKV : Worker.KV :=
  {| Worker.jobs_hash := None; Worker.latest_jobs := None; Worker.activity_logs := [] |}.

Definition calmWorkerDay : Worker.Outside :=
  {| Worker.clock := "2025-01-01T00:00:00.000Z";
     Worker.putHash := Fulfilled tt;
     Worker.putJobs := Fulfilled tt;
     Worker.putLogs := Fulfilled tt;
     Worker.inbox := Fulfilled tt;
     Worker.sendEmail := Fulfilled "mail-1" |}.

(** A worker told where to send mail and what to look for, with and
    without the key of the mail service. *)
Definition workerWithKey : Worker.Env :=
  {| Worker.JOB_KEYWORDS := Some "Backend";
     Worker.EMAIL_ENABLED := None;
     Worker.EMAIL_RECEIVER := Some "me@example.com";
     Worker.MAILSLURP_API_KEY := Some "key" |}.

Definition workerWithoutKey : Worker.Env :=
  {| Worker.JOB_KEYWORDS := Some "Backend";
     Worker.EMAIL_ENABLED := None;
     Worker.EMAIL_RECEIVER := Some "me@example.com";
     Worker.MAILSLURP_API_KEY := None |}.

(** The digest as the specification words it: the same canonical form,
    serialisation and digest, the tuples ordered by link in code-unit
    order. *)
Definition spec_contentDigest (jobs : list Job) : string :=
  sha256_hex (JSON_stringify (sort (fun a b => codeUnitCompare (h_link a) (h_link b))
                                   (map hashed jobs))).

(** A keyword matches as the specification words it: it occurs, case
    folded, in the title followed directly by the department. *)
Definition spec_matches (toLowerCase : string -> string) (keyword : string) (job : Job)
  : Prop :=
  exists pre post,
    toLowerCase (title job +:+ department job) = pre +:+ toLowerCase keyword +:+ post.

(** The number of enabled sinks as the specification counts them: the
    console is one of the channels. *)
Definition spec_enabledSinks (config : Enhanced.Config) : nat :=
  ((if Enhanced.console_enabled config then 1 else 0)
   + length (List.filter (Enhanced.enabled config) Enhanced.all_sinks))%nat.

(** * Properties *)

(** ** Known answers *)

Example sha256_abc :
  sha256_hex "abc" = "ba7816bf8f01cfea414140de5dae2223b00361a396177a9cb410ff61f20015ad".
Proof. vm_compute. reflexivity. Qed.

Example sha256_empty :
  sha256_hex "" = "e3b0c44298fc1c149afbf4c8996fb92427ae41e4649b934ca495991b7852b855".
Proof. vm_compute. reflexivity. Qed.

Example sha256_two_blocks :
  sha256_hex "abcdbcdecdefdefgefghfghighijhijkijkljklmklmnlmnomnopnopq"
  = "248d6a61d20638b8e5c026930c3e6039a33ce45964ff2167f6ecedd419db06c1".
Proof. vm_compute. reflexivity. Qed.

Example trim_example : trim (" ab c" +:+ nl) = "ab c".
Proof. vm_compute. reflexivity. Qed.

Example split_example : map trim (split_commas "" "Software, Backend,") = ["Software"; "Backend"; ""].
Proof. vm_compute. reflexivity. Qed.

Example stringify_example :
  JSON_stringify [ {| h_title := "a"; h_link := "b"; h_department := "c"; h_location := "d" |} ]
  = "[{" +:+ dquote +:+ "title" +:+ dquote +:+ ":" +:+ dquote +:+ "a" +:+ dquote +:+ ","
    +:+ dquote +:+ "link" +:+ dquote +:+ ":" +:+ dquote +:+ "b" +:+ dquote +:+ ","
    +:+ dquote +:+ "department" +:+ dquote +:+ ":" +:+ dquote +:+ "c" +:+ dquote +:+ ","
    +:+ dquote +:+ "location" +:+ dquote +:+ ":" +:+ dquote +:+ "d" +:+ dquote +:+ "}]".
Proof. vm_compute. reflexivity. Qed.

(** ** Sorting with a consistent comparator *)

Section SortFacts.
Context {A : Type} (cmp : A -> A -> Z).

Lemma insert_sorted_perm x l : Permutation (insert_sorted cmp x l) (x :: l).
  Proof.
    induction l as [|y l IH]; simpl; [reflexivity|].
    destruct (cmp x y <=? 0); [reflexivity|].
    rewrite IH. apply perm_swap.
  Qed.

Lemma sort_perm l : Permutation (sort cmp l) l.
  Proof.
    induction l as [|x l IH]; simpl; [constructor|].
    rewrite insert_sorted_perm. now constructor.
  Qed.

Lemma sort_In x l : In x (sort cmp l) <-> In x l.
  Proof.
    split; apply Permutation_in; [|symmetry]; apply sort_perm.
  Qed.

Lemma sort_length l : length (sort cmp l) = length l.
  Proof. apply Permutation_length, sort_perm. Qed.

Hypothesis consistent : ConsistentComparator cmp.

Lemma notAfter_refl a : notAfter cmp a a.
  Proof.
    unfold notAfter. pose proof (cmp_flip cmp consistent a a) as H.
    destruct (cmp a a); simpl in H; try lia; discriminate.
  Qed.

Lemma notAfter_total a b : ~ notAfter cmp a b -> notAfter cmp b a.
  Proof.
    unfold notAfter. intros H. pose proof (cmp_flip cmp consistent a b) as F.
    destruct (cmp a b); destruct (cmp b a); simpl in F; try lia; discriminate.
  Qed.

Lemma notAfter_tie a b : notAfter cmp a b -> notAfter cmp b a -> cmp a b = 0.
  Proof.
    unfold notAfter. intros H1 H2. pose proof (cmp_flip cmp consistent a b) as F.
    destruct (cmp a b); destruct (cmp b a); simpl in F; try lia; discriminate.
  Qed.

Lemma insert_sorted_sorted x l :
    StronglySorted (notAfter cmp) l -> StronglySorted (notAfter cmp) (insert_sorted cmp x l).
  Proof.
    induction 1 as [|y l Hs IH Hy]; simpl.
    - repeat constructor.
    - destruct (cmp x y <=? 0) eqn:E.
      + apply Z.leb_le in E. constructor; [now constructor|].
        constructor; [exact E|].
        eapply Forall_impl; [|exact Hy].
        intros z Hz. exact (cmp_trans cmp consistent x y z E Hz).
      + apply Z.leb_gt in E. constructor; [exact IH|].
        apply Forall_forall. intros z Hz.
        apply (Permutation_in _ (insert_sorted_perm x l)) in Hz.
        destruct Hz as [<-|Hz].
        * apply notAfter_total. unfold notAfter. lia.
        * rewrite Forall_forall in Hy. now apply Hy.
  Qed.

Lemma sort_sorted l : StronglySorted (notAfter cmp) (sort cmp l).
  Proof.
    induction l as [|x l IH]; simpl; [constructor|].
    now apply insert_sorted_sorted.
  Qed.

  (** Two orderings of the same elements coincide when ties are only
      between equal elements. *)
Lemma sorted_unique l1 :
    forall l2,
      StronglySorted (notAfter cmp) l1 -> StronglySorted (notAfter cmp) l2 ->
      Permutation l1 l2 ->
      (forall a b, In a l1 -> In b l1 -> cmp a b = 0 -> a = b) ->
      l1 = l2.
  Proof.
    induction l1 as [|a l1 IH]; intros l2 S1 S2 P T.
    - now apply Permutation_nil in P.
    - destruct l2 as [|b l2].
      + symmetry in P. now apply Permutation_nil in P.
      + apply StronglySorted_inv in S1 as [S1 F1].
        apply StronglySorted_inv in S2 as [S2 F2].
        rewrite Forall_forall in F1, F2.
        assert (Hb : In b (a :: l1))
          by (eapply Permutation_in; [symmetry; exact P | now left]).
        assert (Ha : In a (b :: l2))
          by (eapply Permutation_in; [exact P | now left]).
        assert (E : a = b).
        { destruct Hb as [Hb|Hb]; [exact Hb|].
          destruct Ha as [Ha|Ha]; [now symmetry|].
          apply T; [now left | now right |].
          apply notAfter_tie; [now apply F1 | now apply F2]. }
        subst b. f_equal.
        apply IH; try assumption.
        * now apply Permutation_cons_inv in P.
        * intros x y Hx Hy. apply T; now right.
  Qed.

Lemma sort_permuted l1 l2 :
    Permutation l1 l2 ->
    (forall a b, In a l1 -> In b l1 -> cmp a b = 0 -> a = b) ->
    sort cmp l1 = sort cmp l2.
  Proof.
    intros P T. apply sorted_unique.
    - apply sort_sorted.
    - apply sort_sorted.
    - rewrite !sort_perm. exact P.
    - intros a b Ha Hb. apply T; now apply sort_In.
  Qed.
End SortFacts.

(** The result of a sort depends on the comparator only through the
    comparisons it makes between elements of the list. *)
Lemma insert_sorted_ext {A : Type} (c1 c2 : A -> A -> Z) x l :
  (forall y, In y l -> (c1 x y <=? 0) = (c2 x y <=? 0)) ->
  insert_sorted c1 x l = insert_sorted c2 x l.
Proof.
  induction l as [|y l IH]; intros H; simpl; [reflexivity|].
  rewrite (H y (or_introl eq_refl)).
  destruct (c2 x y <=? 0); [reflexivity|].
  f_equal. apply IH. intros z Hz. apply H. now right.
Qed.

Lemma sort_ext {A : Type} (c1 c2 : A -> A -> Z) l :
  (forall x y, In x l -> In y l -> (c1 x y <=? 0) = (c2 x y <=? 0)) ->
  sort c1 l = sort c2 l.
Proof.
  induction l as [|x l IH]; intros H; simpl; [reflexivity|].
  rewrite IH by (intros; apply H; now right).
  apply insert_sorted_ext. intros y Hy.
  apply H; [now left | right; exact (proj1 (sort_In c2 y l) Hy)].
Qed.

(** ** The sort is stable *)

Section Stability.
Context {A : Type} (cmp : A -> A -> Z).
Hypothesis consistent : ConsistentComparator cmp.

Lemma tied_refl a : tied cmp a a = true.
Proof.
  unfold tied. apply Z.eqb_eq.
  pose proof (cmp_flip cmp consistent a a) as H.
  destruct (cmp a a); simpl in H; [reflexivity | discriminate | discriminate].
Qed.

Lemma tied_sym a b : tied cmp a b = tied cmp b a.
Proof.
  unfold tied. pose proof (cmp_flip cmp consistent a b) as H.
  destruct (cmp a b), (cmp b a); simpl in H; try reflexivity; discriminate.
Qed.

Lemma tied_not_after a b : tied cmp a b = true -> notAfter cmp a b /\ notAfter cmp b a.
Proof.
  intros H. pose proof H as H'. rewrite tied_sym in H'.
  unfold tied in *. apply Z.eqb_eq in H, H'. unfold notAfter. lia.
Qed.

Lemma insert_sorted_stable x l a :
  List.filter (tied cmp a) (insert_sorted cmp x l) = List.filter (tied cmp a) (x :: l).
Proof.
  induction l as [|y l IH]; [reflexivity|].
  cbn [insert_sorted]. destruct (cmp x y <=? 0) eqn:E; [reflexivity|].
  apply Z.leb_gt in E.
  cbn [List.filter] in *. rewrite IH.
  destruct (tied cmp a x) eqn:Tx, (tied cmp a y) eqn:Ty; try reflexivity.
  exfalso.
  destruct (tied_not_after a x Tx) as [_ Hxa].
  destruct (tied_not_after a y Ty) as [Hay _].
  pose proof (cmp_trans cmp consistent x a y Hxa Hay). lia.
Qed.

Lemma sort_stable l a :
  List.filter (tied cmp a) (sort cmp l) = List.filter (tied cmp a) l.
Proof.
  induction l as [|x l IH]; [reflexivity|].
  change (sort cmp (x :: l)) with (insert_sorted cmp x (sort cmp l)).
  rewrite insert_sorted_stable. cbn [List.filter]. now rewrite IH.
Qed.

Lemma stable_sorted_unique l1 :
  forall l2,
    StronglySorted (notAfter cmp) l1 -> StronglySorted (notAfter cmp) l2 ->
    (forall a, List.filter (tied cmp a) l1 = List.filter (tied cmp a) l2) ->
    l1 = l2.
Proof.
  induction l1 as [|a l1 IH]; intros l2 S1 S2 H.
  - destruct l2 as [|b l2]; [reflexivity|].
    specialize (H b). cbn [List.filter] in H. rewrite tied_refl in H. discriminate.
  - destruct l2 as [|b l2].
    { specialize (H a). cbn [List.filter] in H. rewrite tied_refl in H. discriminate. }
    apply StronglySorted_inv in S1 as [S1 F1]. apply StronglySorted_inv in S2 as [S2 F2].
    assert (Hab : a = b).
    { pose proof (H a) as Ha. cbn [List.filter] in Ha. rewrite tied_refl in Ha.
      destruct (tied cmp a b) eqn:T; [now injection Ha|]. exfalso.
      pose proof (H b) as Hb. cbn [List.filter] in Hb. rewrite tied_refl in Hb.
      rewrite tied_sym, T in Hb.
      assert (In b l1) as Ib.
      { assert (In b (List.filter (tied cmp b) l1)) by (rewrite Hb; now left).
        now apply filter_In in H0. }
      assert (In a l2) as Ia.
      { assert (In a (List.filter (tied cmp a) l2)) by (rewrite <- Ha; now left).
        now apply filter_In in H0. }
      rewrite Forall_forall in F1, F2.
      pose proof (notAfter_tie cmp consistent a b (F1 b Ib) (F2 a Ia)) as Z0.
      unfold tied in T. rewrite Z0 in T. discriminate. }
    subst b. f_equal. apply IH; [assumption | assumption |].
    intros c. specialize (H c). cbn [List.filter] in H.
    destruct (tied cmp c a); [now injection H | exact H].
Qed.
End Stability.

(** ** Code-unit order is a consistent comparator *)

Lemma ascii_compare_trans x y z :
  Ascii.compare x y <> Gt -> Ascii.compare y z <> Gt -> Ascii.compare x z <> Gt.
Proof.
  unfold Ascii.compare. rewrite !N.compare_le_iff. lia.
Qed.

Lemma ascii_compare_refl x : Ascii.compare x x = Eq.
Proof. unfold Ascii.compare. apply N.compare_refl. Qed.

Lemma string_compare_trans a :
  forall b c,
    String.compare a b <> Gt -> String.compare b c <> Gt -> String.compare a c <> Gt.
Proof.
  induction a as [|x a IH]; intros [|y b] [|z c]; simpl; try congruence.
  destruct (Ascii.compare x y) eqn:Exy; try congruence.
  - apply Ascii.compare_eq_iff in Exy. subst y.
    destruct (Ascii.compare x z); try congruence. apply IH.
  - destruct (Ascii.compare y z) eqn:Eyz; try congruence.
    + apply Ascii.compare_eq_iff in Eyz. subst z. rewrite Exy. congruence.
    + intros _ _.
      assert (H : Ascii.compare x z <> Gt)
        by (apply (ascii_compare_trans x y z); congruence).
      destruct (Ascii.compare x z) eqn:Exz; try congruence.
      apply Ascii.compare_eq_iff in Exz. subst z.
      rewrite Ascii.compare_antisym, Exy in Eyz. discriminate.
Qed.

Lemma codeUnitCompare_consistent : ConsistentComparator codeUnitCompare.
Proof.
  split.
  - intros a b. unfold codeUnitCompare. rewrite (String.compare_antisym a b).
    destruct (String.compare b a); reflexivity.
  - intros a b c. unfold codeUnitCompare.
    pose proof (string_compare_trans a b c) as T.
    destruct (String.compare a b), (String.compare b c), (String.compare a c);
      intros; try lia; exfalso; apply T; congruence.
Qed.

(** A comparator on a key of the elements is consistent when the
    comparator on keys is. *)
Lemma on_key_consistent {A K : Type} (key : A -> K) (cmp : K -> K -> Z) :
  ConsistentComparator cmp -> ConsistentComparator (fun a b => cmp (key a) (key b)).
Proof.
  intros [F T]. split; intros; [apply F | eapply T; eassumption].
Qed.

(** ** Substrings *)

Lemma prefix_spec t : forall s, String.prefix t s = true <-> exists post, s = t +:+ post.
Proof.
  induction t as [|a t IH]; intros [|b s]; simpl.
  - split; [intros _; now exists "" | reflexivity].
  - split; [intros _; now exists (String b s) | reflexivity].
  - split; [discriminate | intros [post H]; discriminate].
  - destruct (ascii_dec a b) as [->|Hne].
    + rewrite IH. split; intros [post H]; exists post; [now rewrite H | now inversion H].
    + split; [discriminate | intros [post H]; inversion H; congruence].
Qed.

Lemma includes_spec s :
  forall t, includes s t = true <-> exists pre post, s = pre +:+ t +:+ post.
Proof.
  induction s as [|c s IH]; intros t.
  - change (includes "" t) with (String.prefix t "" || false).
    rewrite orb_false_r, prefix_spec. split.
    + intros [post H]. now exists "", post.
    + intros [[|c pre] [post H]]; [now exists post | discriminate].
  - change (includes (String c s) t)
      with (String.prefix t (String c s) || includes s t).
    rewrite orb_true_iff, prefix_spec, IH. split.
    + intros [[post H]|[pre [post H]]].
      * now exists "", post.
      * exists (String c pre), post. simpl. now rewrite H.
    + intros [[|c' pre] [post H]].
      * left. now exists post.
      * right. simpl in H. inversion H. now exists pre, post.
Qed.

(** ** Digests are lower-case hexadecimal, and [trim] leaves them alone *)

Lemma string_of_bytes_of_string s : string_of_bytes (bytes_of_string s) = s.
Proof.
  unfold string_of_bytes, bytes_of_string. rewrite map_map.
  rewrite <- (string_of_list_ascii_of_string s) at 2. f_equal.
  rewrite <- (map_id (list_ascii_of_string s)) at 2.
  apply map_ext. intros c. unfold ascii_of_Z.
  now rewrite N2Z.id, ascii_N_embedding.
Qed.

Lemma bytes_of_string_app s t :
  bytes_of_string (s +:+ t) = (bytes_of_string s ++ bytes_of_string t)%list.
Proof.
  unfold bytes_of_string. induction s as [|c s IH]; simpl; [reflexivity|].
  now rewrite IH.
Qed.

Lemma strip_any_head pats b l :
  forallb (fun p => match p with [] => false | a :: _ => negb (a =? b) end) pats = true ->
  strip_any pats (b :: l) = None.
Proof.
  induction pats as [|p pats IH]; simpl; [reflexivity|].
  rewrite andb_true_iff. intros [Hp Hs].
  destruct p as [|a p]; [discriminate|]. simpl.
  apply negb_true_iff in Hp. rewrite Hp. now apply IH.
Qed.

Lemma is_hex_cases b :
  is_hex b = true ->
  In b [48; 49; 50; 51; 52; 53; 54; 55; 56; 57; 97; 98; 99; 100; 101; 102].
Proof.
  unfold is_hex. intros H. simpl.
  assert (48 <= b <= 57 \/ 97 <= b <= 102) as [R|R] by lia; lia.
Qed.

Lemma trim_start_hex fuel pats b l :
  (forall h, is_hex h = true ->
     forallb (fun p => match p with [] => false | a :: _ => negb (a =? h) end) pats = true) ->
  is_hex b = true ->
  trim_start_bytes fuel pats (b :: l) = b :: l.
Proof.
  intros Hp Hb. destruct fuel; simpl; [reflexivity|].
  now rewrite strip_any_head by now apply Hp.
Qed.

Lemma white_space_not_hex h :
  is_hex h = true ->
  forallb (fun p => match p with [] => false | a :: _ => negb (a =? h) end) white_space = true
  /\ forallb (fun p => match p with [] => false | a :: _ => negb (a =? h) end)
             (map (@rev Z) white_space) = true.
Proof.
  intros H. apply is_hex_cases in H. simpl in H.
  repeat (destruct H as [<-|H]; [split; vm_compute; reflexivity|]).
  contradiction.
Qed.

Lemma trim_hex s :
  Forall (fun b => is_hex b = true) (bytes_of_string s) -> trim s = s.
Proof.
  intros H. unfold trim.
  set (l := bytes_of_string s) in *.
  assert (E1 : trim_start_bytes (length l) white_space l = l).
  { destruct l as [|b l']; [reflexivity|].
    inversion H; subst. apply trim_start_hex; [|assumption].
    intros h Hh. now apply white_space_not_hex. }
  rewrite E1.
  assert (E2 : trim_start_bytes (length l) (map (@rev Z) white_space) (rev l) = rev l).
  { destruct (rev l) as [|b r] eqn:Er; [now destruct (length l)|].
    apply trim_start_hex.
    - intros h Hh. now apply white_space_not_hex.
    - rewrite Forall_forall in H. apply H. apply in_rev. rewrite Er. now left. }
  rewrite E2, rev_involutive. apply string_of_bytes_of_string.
Qed.

Lemma hex_digit_hex z :
  0 <= z < 16 -> Forall (fun b => is_hex b = true) (bytes_of_string (hex_digit z)).
Proof.
  intros H.
  assert (In z [0; 1; 2; 3; 4; 5; 6; 7; 8; 9; 10; 11; 12; 13; 14; 15]) as C
    by (simpl; lia).
  simpl in C.
  repeat (destruct C as [<-|C]; [vm_compute; repeat constructor|]).
  contradiction.
Qed.

Lemma hex_byte_hex b :
  0 <= b < 256 -> Forall (fun b => is_hex b = true) (bytes_of_string (hex_byte b)).
Proof.
  intros H. unfold hex_byte. rewrite bytes_of_string_app. apply Forall_app. split.
  - apply hex_digit_hex. split; [apply Z.div_pos; lia | apply Z.div_lt_upper_bound; lia].
  - apply hex_digit_hex. apply Z.mod_pos_bound. lia.
Qed.

Lemma be_bytes_range n x : Forall (fun b => 0 <= b < 256) (Sha256.be_bytes n x).
Proof.
  unfold Sha256.be_bytes. apply Forall_forall. intros b Hb.
  apply in_map_iff in Hb as [i [<- _]].
  change 255 with (Z.ones 8). rewrite Z.land_ones by lia.
  apply Z.mod_pos_bound. lia.
Qed.

Lemma digest_range msg : Forall (fun b => 0 <= b < 256) (Sha256.digest msg).
Proof.
  unfold Sha256.digest. apply Forall_forall. intros b Hb.
  apply in_flat_map in Hb as [w [_ Hb]].
  pose proof (be_bytes_range 4 w) as R. rewrite Forall_forall in R. now apply R.
Qed.

Lemma join_empty_hex parts :
  Forall (fun p => Forall (fun b => is_hex b = true) (bytes_of_string p)) parts ->
  Forall (fun b => is_hex b = true) (bytes_of_string (join "" parts)).
Proof.
  induction 1 as [|p parts Hp Hps IH]; [constructor|].
  unfold join in *. simpl. destruct parts as [|q parts]; [exact Hp|].
  rewrite bytes_of_string_app. apply Forall_app. split; [exact Hp|].
  simpl. exact IH.
Qed.

Lemma sha256_hex_is_hex s :
  Forall (fun b => is_hex b = true) (bytes_of_string (sha256_hex s)).
Proof.
  unfold sha256_hex. apply join_empty_hex.
  apply Forall_forall. intros p Hp. apply in_map_iff in Hp as [b [<- Hb]].
  apply hex_byte_hex.
  pose proof (digest_range (bytes_of_string s)) as R.
  rewrite Forall_forall in R. now apply R.
Qed.

Lemma trim_sha256_hex s : trim (sha256_hex s) = sha256_hex s.
Proof. apply trim_hex, sha256_hex_is_hex. Qed.

Arguments generateJobsHash : simpl never.
Arguments sha256_hex : simpl never.
Arguments trim : simpl never.
Arguments short_hash : simpl never.
Arguments decimal : simpl never.
Arguments filterJobsByKeywords : simpl never.
Arguments shouldSendEmail : simpl never.
Arguments getMatchedKeywords : simpl never.
Arguments String.append : simpl never.

(** ** The keyword filter *)

Lemma matchesAny_spec toLowerCase keywords job :
  matchesAny toLowerCase keywords job = true <->
  exists keyword,
    In keyword keywords
    /\ exists pre post,
         toLowerCase (title job +:+ " " +:+ department job)
         = pre +:+ toLowerCase keyword +:+ post.
Proof.
  unfold matchesAny, searchText. rewrite existsb_exists.
  split; intros [k [Hk H]]; exists k; (split; [exact Hk|]); now apply includes_spec.
Qed.

Lemma shouldSendEmail_matching toLowerCase jobs keywords :
  matchingJobs (shouldSendEmail toLowerCase jobs keywords)
  = filterJobsByKeywords toLowerCase jobs keywords.
Proof.
  unfold shouldSendEmail, filterJobsByKeywords.
  destruct (noKeywords keywords); [reflexivity|].
  destruct (List.filter _ jobs) eqn:E; reflexivity.
Qed.

Lemma shouldSendEmail_shouldSend toLowerCase jobs keywords :
  shouldSend (shouldSendEmail toLowerCase jobs keywords)
  = noKeywords keywords
    || negb (length (filterJobsByKeywords toLowerCase jobs keywords) =? 0)%nat.
Proof.
  unfold shouldSendEmail, filterJobsByKeywords.
  destruct (noKeywords keywords); [reflexivity|].
  destruct (List.filter _ jobs) eqn:E; reflexivity.
Qed.

(** C3, as stated, fails: with the keyword "Database", the record titled
    "Data" in department "Base" matches on the title followed directly by
    the department, yet the filter does not select it, because the text
    searched has a space between the two. *)
Lemma keyword_filter_joins_with_space :
  (exists keyword, In keyword ["Database"] /\ spec_matches asciiLower keyword dataBase)
  /\ ~ In dataBase (filterJobsByKeywords asciiLower [dataBase] (Some ["Database"])).
Proof.
  split.
  - exists "Database". split; [now left|]. exists "", "". vm_compute. reflexivity.
  - vm_compute. intros H. exact H.
Qed.

(** C3, amended: a record is selected if and only if some keyword, lower
    cased, occurs in the lower-cased text made of the title, one space and
    the department; with no keywords (an absent or empty list) every record
    is selected.  [shouldSendEmail] selects the same records.  With the
    keyword "Backend", of "Backend Engineer" and "Designer" only the first
    is selected; with no keyword both are. *)
Theorem keyword_filter_selects (toLowerCase : string -> string) (jobs : list Job)
        (keywords : option (list string)) :
  (noKeywords keywords = true ->
   filterJobsByKeywords toLowerCase jobs keywords = jobs)
  /\ (noKeywords keywords = false ->
      forall job,
        In job (filterJobsByKeywords toLowerCase jobs keywords) <->
        In job jobs
        /\ exists keyword,
             In keyword (keywordList keywords)
             /\ exists pre post,
                  toLowerCase (title job +:+ " " +:+ department job)
                  = pre +:+ toLowerCase keyword +:+ post)
  /\ matchingJobs (shouldSendEmail toLowerCase jobs keywords)
     = filterJobsByKeywords toLowerCase jobs keywords
  /\ filterJobsByKeywords asciiLower [backendEngineer; designer] (Some ["Backend"])
     = [backendEngineer]
  /\ filterJobsByKeywords asciiLower [backendEngineer; designer] (Some [])
     = [backendEngineer; designer]
  /\ filterJobsByKeywords asciiLower [backendEngineer; designer] None
     = [backendEngineer; designer].
Proof.
  repeat split.
  - intros H. unfold filterJobsByKeywords. now rewrite H.
  - unfold filterJobsByKeywords in H0. rewrite H in H0.
    apply filter_In in H0. tauto.
  - unfold filterJobsByKeywords in H0. rewrite H in H0.
    apply filter_In in H0. apply matchesAny_spec. tauto.
  - intros [Hj Hk]. unfold filterJobsByKeywords. rewrite H.
    apply filter_In. split; [exact Hj|]. now apply matchesAny_spec.
  - apply shouldSendEmail_matching.
Qed.

Lemma keyword_filter_selects_witness :
  filterJobsByKeywords asciiLower [backendEngineer; designer] None
  = [backendEngineer; designer]
  /\ (In backendEngineer
         (filterJobsByKeywords asciiLower [backendEngineer; designer] (Some ["Backend"]))
      <-> In backendEngineer [backendEngineer; designer]
          /\ exists keyword,
               In keyword ["Backend"]
               /\ exists pre post,
                    asciiLower (title backendEngineer +:+ " " +:+ department backendEngineer)
                    = pre +:+ asciiLower keyword +:+ post).
Proof.
  split.
  - apply (proj1 (keyword_filter_selects asciiLower [backendEngineer; designer] None)).
    reflexivity.
  - apply (proj1 (proj2 (keyword_filter_selects asciiLower [backendEngineer; designer]
                                                 (Some ["Backend"])))).
    reflexivity.
Defined.

(** ** The digest *)

Lemma by_link_consistent localeCompare :
  ConsistentComparator localeCompare -> ConsistentComparator (by_link localeCompare).
Proof. apply (on_key_consistent h_link). Qed.

Lemma generateJobsHash_hashed localeCompare jobs jobs' :
  map hashed jobs' = map hashed jobs ->
  generateJobsHash localeCompare jobs' = generateJobsHash localeCompare jobs.
Proof. unfold generateJobsHash. now intros ->. Qed.

(** C8, as stated, fails: two records under one link, taken in the two
    possible orders, are permutations of each other with different
    digests.  The sort compares links only and is stable, so records that
    tie keep their input order. *)
Lemma digest_differs_for_reordered_twins :
  Permutation [twinOne; twinTwo] [twinTwo; twinOne]
  /\ generateJobsHash alnumCollate [twinTwo; twinOne]
     <> generateJobsHash alnumCollate [twinOne; twinTwo].
Proof.
  split; [apply perm_swap|].
  vm_compute. intros H. discriminate H.
Qed.

(** C8, amended: for a consistent comparator, the digest of a permuted
    sequence equals the digest of the original whenever records whose links
    compare equal agree on title, link, department and location; in
    particular whenever no two records have links that compare equal. *)
Theorem digest_stable_under_reordering
        (localeCompare : string -> string -> Z) (jobs permuted : list Job) :
  ConsistentComparator localeCompare ->
  Permutation jobs permuted ->
  (forall a b, In a jobs -> In b jobs ->
               localeCompare (link a) (link b) = 0 -> hashed a = hashed b) ->
  generateJobsHash localeCompare permuted = generateJobsHash localeCompare jobs.
Proof.
  intros C P T. unfold generateJobsHash. do 2 f_equal. symmetry.
  apply sort_permuted.
  - now apply by_link_consistent.
  - now apply Permutation_map.
  - intros a b Ha Hb E.
    apply in_map_iff in Ha as [ja [<- Ha]].
    apply in_map_iff in Hb as [jb [<- Hb]].
    now apply T.
Qed.

Lemma digest_stable_under_reordering_witness :
  generateJobsHash codeUnitCompare [designer; dataAnalyst; backendEngineer]
  = generateJobsHash codeUnitCompare [backendEngineer; designer; dataAnalyst].
Proof.
  apply digest_stable_under_reordering.
  - exact codeUnitCompare_consistent.
  - apply (Permutation_cons_append [designer; dataAnalyst]).
  - intros a b [<-|[<-|[<-|[]]]] [<-|[<-|[<-|[]]]]; vm_compute; congruence.
Defined.

(** C1, as stated, fails: the tuples are ordered by link under
    [localeCompare], which is not code-unit order.  For links "jobs7a" and
    "jobs7B" collation puts "jobs7a" first and code-unit order puts
    "jobs7B" first, so the digest the code computes is not the digest of
    the list sorted on the raw string. *)
Lemma content_hash_not_in_code_unit_order :
  generateJobsHash alnumCollate [lowerLink; upperLink]
  <> spec_contentDigest [lowerLink; upperLink].
Proof. vm_compute. intros H. discriminate H. Qed.

(** ** Running a cycle *)

Arguments Mailslurp.showMatching : simpl never.
Arguments Mailslurp.last_entries : simpl never.
Arguments Worker.last_entries : simpl never.
Arguments Worker.keywords : simpl never.
Arguments join : simpl never.

Ltac eff_unfold :=
  unfold try_catch, bind, await, async, emit, get, put, ret, throw, awaited, settle,
    final_state, trace, completion in *.

Lemma emit_then {St Ev : Type} (e : Ev) (k : @Eff St Ev unit) (st st' : St) t r :
  k st = (st', t, r) -> bind (emit e) (fun _ => k) st = (st', e :: t, r).
Proof. intros H. unfold bind, emit. now rewrite H. Qed.

Lemma bind_run {St Ev A B : Type} (m : @Eff St Ev A) (k : A -> @Eff St Ev B)
      (st st1 : St) t1 a :
  m st = (st1, t1, Normal a) ->
  bind m k st = (let '(s2, t2, r) := k a st1 in (s2, (t1 ++ t2)%list, r)).
Proof. intros H. unfold bind. now rewrite H. Qed.

Lemma showMatching_run jobs files :
  exists t,
    Mailslurp.showMatching jobs files = (files, t, Normal tt)
    /\ Mailslurp.emails t = []
    /\ Mailslurp.hashWrites t = []
    /\ Mailslurp.jobsWrites t = [].
Proof.
  unfold Mailslurp.showMatching.
  generalize ([nl +:+ "📋 Matching Jobs:"]
                ++ concat (mapi_from 0 Mailslurp.matchingBlock jobs))%list.
  intros lines. induction lines as [|line lines [t [E [He [Hh Hj]]]]].
  - exists []. repeat split.
  - exists (Mailslurp.ConsoleLog line :: t). split; [|repeat split; assumption].
    exact (emit_then (Mailslurp.ConsoleLog line) _ files files t (Normal tt) E).
Qed.

Lemma filter_idem {A : Type} (f : A -> bool) l :
  List.filter f (List.filter f l) = List.filter f l.
Proof.
  induction l as [|x l IH]; simpl; [reflexivity|].
  destruct (f x) eqn:E; simpl; [rewrite E; now f_equal | exact IH].
Qed.

Lemma filterJobsByKeywords_idem toLowerCase jobs keywords :
  filterJobsByKeywords toLowerCase (filterJobsByKeywords toLowerCase jobs keywords) keywords
  = filterJobsByKeywords toLowerCase jobs keywords.
Proof.
  unfold filterJobsByKeywords. destruct (noKeywords keywords); [reflexivity|].
  apply filter_idem.
Qed.

Lemma no_match_shouldSend toLowerCase jobs keywords :
  jobs <> [] ->
  filterJobsByKeywords toLowerCase jobs (Some keywords) = [] ->
  shouldSend (shouldSendEmail toLowerCase jobs (Some keywords)) = false.
Proof.
  intros Hne Hnone. rewrite shouldSendEmail_shouldSend, Hnone.
  unfold filterJobsByKeywords in Hnone.
  destruct (noKeywords (Some keywords)); [congruence | reflexivity].
Qed.

Lemma match_shouldSend toLowerCase jobs keywords :
  filterJobsByKeywords toLowerCase jobs (Some keywords) <> [] ->
  shouldSend (shouldSendEmail toLowerCase jobs (Some keywords)) = true.
Proof.
  intros Hsome. rewrite shouldSendEmail_shouldSend.
  destruct (filterJobsByKeywords toLowerCase jobs (Some keywords)); [congruence|].
  apply orb_true_r.
Qed.

Ltac run_cases :=
  repeat (first [ case_bool_decide | case_match ]; simpl in *; simplify_eq).

Module MailslurpRuns.
Import Mailslurp.

Section Runs.
Variable lc : string -> string -> Z.
Variable tl : string -> string.
Variable config : Config.
Variable es : bool.
Variable out : Outside.

Lemma mailslurp_run_empty files :
      let r := checkForJobs lc tl config es out (Fulfilled []) files in
      hashFile (final_state r) = hashFile files
      /\ jobsFile (final_state r) = jobsFile files
      /\ emails (trace r) = []
      /\ hashWrites (trace r) = []
      /\ jobsWrites (trace r) = []
      /\ completion r = Normal tt
      /\ In (ConsoleLog "⚠️ No jobs found - this might indicate a scraping issue")
            (trace r).
    Proof.
      unfold checkForJobs, logActivity. eff_unfold. simpl.
      destruct (logWrite out); simpl; repeat split; auto.
    Qed.

Lemma mailslurp_run_unchanged files jobs :
      jobs <> [] ->
      option_map trim (hashFile files) = Some (generateJobsHash lc jobs) ->
      let r := checkForJobs lc tl config es out (Fulfilled jobs) files in
      hashFile (final_state r) = hashFile files
      /\ jobsFile (final_state r) = jobsFile files
      /\ emails (trace r) = []
      /\ hashWrites (trace r) = []
      /\ jobsWrites (trace r) = []
      /\ completion r = Normal tt.
    Proof.
      intros Hne Hprev.
      destruct jobs as [|j0 jobs0]; [congruence|].
      remember (j0 :: jobs0) as jobs eqn:Ejobs.
      assert (Hlen : (length jobs =? 0)%nat = false) by (subst jobs; reflexivity).
      unfold checkForJobs, loadPreviousHash, logActivity. eff_unfold. simpl.
      rewrite Hlen.
      destruct (hashFile files) as [stored|] eqn:Ef; simpl in *; [|congruence].
      case_bool_decide; [|congruence]. simpl.
      destruct (logWrite out); simpl; repeat split; auto.
    Qed.

Lemma mailslurp_run_no_match files jobs :
      jobs <> [] ->
      option_map trim (hashFile files) <> Some (generateJobsHash lc jobs) ->
      filterJobsByKeywords tl jobs (Some (keywords config)) = [] ->
      let r := checkForJobs lc tl config es out (Fulfilled jobs) files in
      emails (trace r) = []
      /\ hashWrites (trace r) = [generateJobsHash lc jobs]
      /\ jobsWrites (trace r) = [jobs]
      /\ hashFile (final_state r)
         = match hashWrite out with
           | Fulfilled _ => Some (generateJobsHash lc jobs)
           | Rejected _ => hashFile files
           end
      /\ jobsFile (final_state r)
         = match jobsWrite out with
           | Fulfilled _ => Some jobs
           | Rejected _ => jobsFile files
           end
      /\ completion r = Normal tt.
    Proof.
      intros Hne Hprev Hnone.
      pose proof (no_match_shouldSend tl jobs (keywords config) Hne Hnone) as Hs.
      destruct jobs as [|j0 jobs0]; [congruence|].
      remember (j0 :: jobs0) as jobs eqn:Ejobs.
      assert (Hlen : (length jobs =? 0)%nat = false) by (subst jobs; reflexivity).
      unfold checkForJobs, loadPreviousHash, saveHash, saveJobs, logActivity.
      eff_unfold. simpl. rewrite Hlen, Hs.
      destruct (hashFile files) as [stored|] eqn:Ef; simpl in *;
        [case_bool_decide; [congruence|] | ]; simpl;
        destruct (hashWrite out), (jobsWrite out), (logWrite out); simpl;
        repeat split; auto.
    Qed.

Lemma mailslurp_run_match files jobs :
      jobs <> [] ->
      option_map trim (hashFile files) <> Some (generateJobsHash lc jobs) ->
      filterJobsByKeywords tl jobs (Some (keywords config)) <> [] ->
      let r := checkForJobs lc tl config es out (Fulfilled jobs) files in
      emails (trace r)
      = (if es then
           match inbox out with
           | Fulfilled _ => [alertFor tl config
                              (filterJobsByKeywords tl jobs (Some (keywords config)))]
           | Rejected _ => []
           end
         else [])
      /\ emails (afterHashWrite (trace r)) = []
      /\ hashWrites (trace r) = [generateJobsHash lc jobs]
      /\ jobsWrites (trace r) = [jobs]
      /\ hashFile (final_state r)
         = match hashWrite out with
           | Fulfilled _ => Some (generateJobsHash lc jobs)
           | Rejected _ => hashFile files
           end
      /\ jobsFile (final_state r)
         = match jobsWrite out with
           | Fulfilled _ => Some jobs
           | Rejected _ => jobsFile files
           end
      /\ completion r = Normal tt.
    Proof.
      intros Hne Hprev Hsome.
      pose proof (match_shouldSend tl jobs (keywords config) Hsome) as Hs.
      pose proof (shouldSendEmail_matching tl jobs (Some (keywords config))) as Hm.
      pose proof (filterJobsByKeywords_idem tl jobs (Some (keywords config))) as Hi.
      set (matching := filterJobsByKeywords tl jobs (Some (keywords config))) in *.
      assert (Hmlen : (length matching =? 0)%nat = false)
        by (destruct matching; [congruence | reflexivity]).
      destruct jobs as [|j0 jobs0]; [congruence|].
      remember (j0 :: jobs0) as jobs eqn:Ejobs.
      assert (Hlen : (length jobs =? 0)%nat = false) by (subst jobs; reflexivity).
      unfold checkForJobs, loadPreviousHash, notifyByEmail, sendJobAlert,
        saveHash, saveJobs, logActivity, alertFor.
      eff_unfold. simpl. rewrite Hlen, Hs, Hm, Hi, Hmlen.
      clearbody matching.
      destruct (hashFile files) as [stored|] eqn:Ef; simpl in *;
        [case_bool_decide; [congruence|] | ]; simpl;
        destruct es, (inbox out), (sendEmail out), (logWrite out), (hashWrite out),
          (jobsWrite out); simpl;
        match goal with
        | |- context [showMatching ?js ?s] =>
            destruct (showMatching_run js s) as (t & -> & He & Hh & Hj)
        end; simpl;
        unfold emails, hashWrites, jobsWrites in *; simpl;
        rewrite ?flat_map_app, ?He, ?Hh, ?Hj; simpl; rewrite ?He, ?Hh, ?Hj;
        repeat split; auto.
    Qed.
End Runs.
End MailslurpRuns.

Module WorkerRuns.
Import Worker.

Section Runs.
Variable lc : string -> string -> Z.
Variable tl : string -> string.
Variable env : Env.
Variable out : Outside.

Lemma worker_run_empty kv :
      let r := checkForJobs lc tl env out (Fulfilled []) kv in
      final_state r = kv
      /\ emails (trace r) = []
      /\ hashPuts (trace r) = []
      /\ jobsPuts (trace r) = []
      /\ completion r = Normal NoJobsFound.
    Proof.
      unfold checkForJobs. eff_unfold. simpl. repeat split.
    Qed.

Lemma worker_run_unchanged kv jobs :
      jobs <> [] ->
      jobs_hash kv = Some (generateJobsHash lc jobs) ->
      let r := checkForJobs lc tl env out (Fulfilled jobs) kv in
      final_state r = kv
      /\ emails (trace r) = []
      /\ hashPuts (trace r) = []
      /\ jobsPuts (trace r) = []
      /\ completion r = Normal NoChanges.
    Proof.
      intros Hne Hprev.
      destruct jobs as [|j0 jobs0]; [congruence|].
      remember (j0 :: jobs0) as jobs eqn:Ejobs.
      assert (Hlen : (length jobs =? 0)%nat = false) by (subst jobs; reflexivity).
      unfold checkForJobs. eff_unfold. simpl. rewrite Hlen, Hprev.
      case_bool_decide; [|congruence]. simpl. repeat split.
    Qed.

Lemma worker_run_no_match kv jobs :
      jobs <> [] ->
      jobs_hash kv <> Some (generateJobsHash lc jobs) ->
      filterJobsByKeywords tl jobs (Some (keywords env)) = [] ->
      let r := checkForJobs lc tl env out (Fulfilled jobs) kv in
      emails (trace r) = []
      /\ hashPuts (trace r) = [generateJobsHash lc jobs]
      /\ jobsPuts (trace r)
         = match putHash out with
           | Fulfilled _ => [jobs]
           | Rejected _ => []
           end
      /\ jobs_hash (final_state r)
         = match putHash out with
           | Fulfilled _ => Some (generateJobsHash lc jobs)
           | Rejected _ => jobs_hash kv
           end
      /\ latest_jobs (final_state r)
         = match putHash out, putJobs out with
           | Fulfilled _, Fulfilled _ => Some jobs
           | _, _ => latest_jobs kv
           end
      /\ completion r
         = match putHash out, putJobs out with
           | Fulfilled _, Fulfilled _ => Normal NoMatchingJobs
           | Rejected e, _ => Normal (Failed e)
           | _, Rejected e => Normal (Failed e)
           end.
    Proof.
      intros Hne Hprev Hnone.
      destruct jobs as [|j0 jobs0]; [congruence|].
      remember (j0 :: jobs0) as jobs eqn:Ejobs.
      assert (Hlen : (length jobs =? 0)%nat = false) by (subst jobs; reflexivity).
      unfold checkForJobs, put_jobs_hash, put_latest_jobs, appendLog, put_activity_logs,
        putKey.
      eff_unfold. simpl. rewrite Hlen, Hnone.
      case_bool_decide; [congruence|]. simpl.
      destruct (putHash out), (putJobs out), (putLogs out); simpl; repeat split; auto.
    Qed.

Lemma worker_run_match kv jobs :
      jobs <> [] ->
      jobs_hash kv <> Some (generateJobsHash lc jobs) ->
      filterJobsByKeywords tl jobs (Some (keywords env)) <> [] ->
      serviceBuilds env = true ->
      let r := checkForJobs lc tl env out (Fulfilled jobs) kv in
      emails (afterHashPut (trace r)) = []
      /\ hashPuts (trace r) = [generateJobsHash lc jobs]
      /\ jobsPuts (trace r)
         = match putHash out with
           | Fulfilled _ => [jobs]
           | Rejected _ => []
           end
      /\ jobs_hash (final_state r)
         = match putHash out with
           | Fulfilled _ => Some (generateJobsHash lc jobs)
           | Rejected _ => jobs_hash kv
           end
      /\ latest_jobs (final_state r)
         = match putHash out, putJobs out with
           | Fulfilled _, Fulfilled _ => Some jobs
           | _, _ => latest_jobs kv
           end
      /\ completion r <> Normal NoChanges.
    Proof.
      intros Hne Hprev Hsome Hbuilds.
      pose proof (filterJobsByKeywords_idem tl jobs (Some (keywords env))) as Hi.
      set (matching := filterJobsByKeywords tl jobs (Some (keywords env))) in *.
      assert (Hmlen : (length matching =? 0)%nat = false)
        by (destruct matching; [congruence | reflexivity]).
      destruct jobs as [|j0 jobs0]; [congruence|].
      remember (j0 :: jobs0) as jobs eqn:Ejobs.
      assert (Hlen : (length jobs =? 0)%nat = false) by (subst jobs; reflexivity).
      unfold serviceBuilds in Hbuilds.
      unfold checkForJobs, notifyByEmail, newWorkerEmailService, sendJobAlert,
        put_jobs_hash, put_latest_jobs, appendLog, put_activity_logs, putKey.
      eff_unfold. simpl. fold matching. rewrite Hlen, Hmlen.
      case_bool_decide; [congruence|]. simpl.
      destruct (emailOn env); simpl in *.
      - rewrite Hbuilds. simpl. rewrite Hi, Hmlen.
        destruct (inbox out), (sendEmail out), (putHash out), (putJobs out), (putLogs out);
          simpl; repeat split; auto; discriminate.
      - destruct (putHash out), (putJobs out), (putLogs out);
          simpl; repeat split; auto; discriminate.
    Qed.

    (** With e-mail asked for and no API key, building the service throws
        and the cycle ends there. *)
Lemma worker_run_match_no_key kv jobs :
      jobs <> [] ->
      jobs_hash kv <> Some (generateJobsHash lc jobs) ->
      filterJobsByKeywords tl jobs (Some (keywords env)) <> [] ->
      serviceBuilds env = false ->
      let r := checkForJobs lc tl env out (Fulfilled jobs) kv in
      emails (trace r) = []
      /\ hashPuts (trace r) = []
      /\ jobsPuts (trace r) = []
      /\ jobs_hash (final_state r) = jobs_hash kv
      /\ latest_jobs (final_state r) = latest_jobs kv
      /\ completion r
         = Normal (Failed "MAILSLURP_API_KEY is required in environment variables").
    Proof.
      intros Hne Hprev Hsome Hbuilds.
      set (matching := filterJobsByKeywords tl jobs (Some (keywords env))) in *.
      assert (Hmlen : (length matching =? 0)%nat = false)
        by (destruct matching; [congruence | reflexivity]).
      destruct jobs as [|j0 jobs0]; [congruence|].
      remember (j0 :: jobs0) as jobs eqn:Ejobs.
      assert (Hlen : (length jobs =? 0)%nat = false) by (subst jobs; reflexivity).
      unfold serviceBuilds in Hbuilds.
      apply orb_false_iff in Hbuilds as [Hon Hkey]. apply negb_false_iff in Hon.
      unfold checkForJobs, notifyByEmail, newWorkerEmailService, sendJobAlert,
        put_jobs_hash, put_latest_jobs, appendLog, put_activity_logs, putKey.
      eff_unfold. simpl. fold matching. rewrite Hlen, Hmlen.
      case_bool_decide; [congruence|]. simpl.
      rewrite Hon. simpl. rewrite Hkey. simpl.
      destruct (putLogs out); simpl; repeat split; auto.
    Qed.
End Runs.
End WorkerRuns.

(** ** The cycles of the content-hash scrapers *)





Lemma hashed_nonempty jobs jobs' :
  jobs <> [] -> map hashed jobs' = map hashed jobs -> jobs' <> [].
Proof. intros Hne E ->. destruct jobs; [congruence | discriminate]. Qed.

Lemma trim_generateJobsHash lc jobs :
  trim (generateJobsHash lc jobs) = generateJobsHash lc jobs.
Proof. unfold generateJobsHash. apply trim_sha256_hex. Qed.

(** C9, as stated, fails in src/worker.js: with a receiver set and no API
    key, a change is detected and a record matches the keyword, yet
    building the e-mail service throws, the cycle ends in its [catch], and
    neither the digest nor the records are stored. *)
Lemma worker_without_key_stores_nothing :
  let r := Worker.checkForJobs alnumCollate asciiLower workerWithoutKey calmWorkerDay
                               (Fulfilled [backendEngineer]) emptyKV in
  filterJobsByKeywords asciiLower [backendEngineer]
                       (Some (Worker.keywords workerWithoutKey)) = [backendEngineer]
  /\ Worker.jobs_hash emptyKV <> Some (generateJobsHash alnumCollate [backendEngineer])
  /\ Worker.hashPuts (trace r) = []
  /\ Worker.jobsPuts (trace r) = []
  /\ Worker.jobs_hash (final_state r) = None
  /\ Worker.latest_jobs (final_state r) = None
  /\ completion r
     = Normal (Worker.Failed "MAILSLURP_API_KEY is required in environment variables").
Proof.
  vm_compute. repeat split. discriminate.
Qed.

(** C9, amended: once a change is detected and records match, the cycle
    asks for the new digest to be stored whatever [sendJobAlert] reports,
    and sends no e-mail after that; in src/worker.js this holds when the
    e-mail service can be built (e-mail not asked for, or the API key
    set).  The current records are asked to be stored too: in
    mailslurp-scraper.js always, in src/worker.js when the store accepted
    the digest; when it refused, the cycle ends there, after the attempt
    to notify, and the records are not asked for.  When the store accepts the digest, a later cycle
    that scrapes the same records, whatever their timestamps and whatever
    the outside world does then, sends no e-mail and writes no digest;
    when it refuses, the old digest stays. *)
Theorem persisted_whatever_the_email_result :
  (forall lc tl config es out files jobs,
      jobs <> [] ->
      option_map trim (Mailslurp.hashFile files) <> Some (generateJobsHash lc jobs) ->
      filterJobsByKeywords tl jobs (Some (Mailslurp.keywords config)) <> [] ->
      let r := Mailslurp.checkForJobs lc tl config es out (Fulfilled jobs) files in
      Mailslurp.hashWrites (trace r) = [generateJobsHash lc jobs]
      /\ Mailslurp.jobsWrites (trace r) = [jobs]
      /\ Mailslurp.emails (Mailslurp.afterHashWrite (trace r)) = []
      /\ Mailslurp.hashFile (final_state r)
         = match Mailslurp.hashWrite out with
           | Fulfilled _ => Some (generateJobsHash lc jobs)
           | Rejected _ => Mailslurp.hashFile files
           end
      /\ (Mailslurp.hashWrite out = Fulfilled tt ->
          Mailslurp.hashFile (final_state r) = Some (generateJobsHash lc jobs)
          /\ forall config' es' out' jobs',
               map hashed jobs' = map hashed jobs ->
               let r' := Mailslurp.checkForJobs lc tl config' es' out' (Fulfilled jobs')
                                                (final_state r) in
               Mailslurp.emails (trace r') = []
               /\ Mailslurp.hashWrites (trace r') = []))
  /\ (forall lc tl env out kv jobs,
        jobs <> [] ->
        Worker.jobs_hash kv <> Some (generateJobsHash lc jobs) ->
        filterJobsByKeywords tl jobs (Some (Worker.keywords env)) <> [] ->
        Worker.serviceBuilds env = true ->
        let r := Worker.checkForJobs lc tl env out (Fulfilled jobs) kv in
        Worker.hashPuts (trace r) = [generateJobsHash lc jobs]
        /\ Worker.emails (Worker.afterHashPut (trace r)) = []
        /\ Worker.jobsPuts (trace r)
           = match Worker.putHash out with
             | Fulfilled _ => [jobs]
             | Rejected _ => []
             end
        /\ Worker.jobs_hash (final_state r)
           = match Worker.putHash out with
             | Fulfilled _ => Some (generateJobsHash lc jobs)
             | Rejected _ => Worker.jobs_hash kv
             end
        /\ (Worker.putHash out = Fulfilled tt ->
            Worker.jobsPuts (trace r) = [jobs]
            /\ Worker.jobs_hash (final_state r) = Some (generateJobsHash lc jobs)
            /\ forall env' out' jobs',
                 map hashed jobs' = map hashed jobs ->
                 let r' := Worker.checkForJobs lc tl env' out' (Fulfilled jobs')
                                               (final_state r) in
                 Worker.emails (trace r') = []
                 /\ Worker.hashPuts (trace r') = []
                 /\ completion r' = Normal Worker.NoChanges)).
Proof.
  split.
  - intros lc tl config es out files jobs Hne Hprev Hsome r. subst r.
    destruct (MailslurpRuns.mailslurp_run_match lc tl config es out files jobs Hne Hprev Hsome)
      as (_ & Ha & Hh & Hj & Hhf & _).
    split; [exact Hh|]. split; [exact Hj|]. split; [exact Ha|]. split; [exact Hhf|].
    intros Hw. rewrite Hw in Hhf. split; [exact Hhf|].
    intros config' es' out' jobs' Hsame r'. subst r'.
    destruct (MailslurpRuns.mailslurp_run_unchanged lc tl config' es' out'
                (final_state (Mailslurp.checkForJobs lc tl config es out (Fulfilled jobs)
                                                     files)) jobs')
      as (_ & _ & He' & Hh' & _).
    + now apply (hashed_nonempty jobs).
    + rewrite Hhf. simpl. rewrite trim_generateJobsHash. f_equal. symmetry.
      now apply generateJobsHash_hashed.
    + split; assumption.
  - intros lc tl env out kv jobs Hne Hprev Hsome Hb r. subst r.
    destruct (WorkerRuns.worker_run_match lc tl env out kv jobs Hne Hprev Hsome Hb)
      as (Ha & Hh & Hj & Hhf & _).
    split; [exact Hh|]. split; [exact Ha|]. split; [exact Hj|]. split; [exact Hhf|].
    intros Hw. rewrite Hw in Hhf, Hj. split; [exact Hj|]. split; [exact Hhf|].
    intros env' out' jobs' Hsame r'. subst r'.
    destruct (WorkerRuns.worker_run_unchanged lc tl env' out'
                (final_state (Worker.checkForJobs lc tl env out (Fulfilled jobs) kv)) jobs')
      as (_ & He' & Hh' & _ & Hc').
    + now apply (hashed_nonempty jobs).
    + rewrite Hhf. f_equal. symmetry. now apply generateJobsHash_hashed.
    + repeat split; assumption.
Qed.

Lemma persisted_whatever_the_email_result_witness :
  (let r := Mailslurp.checkForJobs codeUnitCompare asciiLower backendOnly true mailDown
                                   (Fulfilled [backendEngineer; designer]) noFiles in
   Mailslurp.hashWrites (trace r)
   = [generateJobsHash codeUnitCompare [backendEngineer; designer]]
   /\ Mailslurp.emails
        (trace (Mailslurp.checkForJobs codeUnitCompare asciiLower backendOnly true calmDay
                                       (Fulfilled [backendEngineer; designer])
                                       (final_state r))) = [])
  /\ (let r := Worker.checkForJobs codeUnitCompare asciiLower workerWithKey calmWorkerDay
                                  (Fulfilled [backendEngineer; designer]) emptyKV in
      Worker.hashPuts (trace r)
      = [generateJobsHash codeUnitCompare [backendEngineer; designer]]
      /\ Worker.emails
           (trace (Worker.checkForJobs codeUnitCompare asciiLower workerWithKey calmWorkerDay
                                       (Fulfilled [backendEngineer; designer])
                                       (final_state r))) = []).
Proof.
  split.
  - pose proof (proj1 persisted_whatever_the_email_result codeUnitCompare asciiLower
                      backendOnly true mailDown noFiles [backendEngineer; designer]
                      ltac:(discriminate) ltac:(simpl; discriminate)
                      ltac:(vm_compute; discriminate))
      as (Hh & _ & _ & _ & Hnext).
    split; [exact Hh|].
    apply (proj2 (Hnext eq_refl) backendOnly true calmDay [backendEngineer; designer]).
    reflexivity.
  - pose proof (proj2 persisted_whatever_the_email_result codeUnitCompare asciiLower
                      workerWithKey calmWorkerDay emptyKV [backendEngineer; designer]
                      ltac:(discriminate) ltac:(simpl; discriminate)
                      ltac:(vm_compute; discriminate) ltac:(reflexivity))
      as (Hh & _ & _ & _ & Hnext).
    split; [exact Hh|].
    apply (proj2 (proj2 (Hnext eq_refl)) workerWithKey calmWorkerDay
                 [backendEngineer; designer]).
    reflexivity.
Defined.


(** C1, amended: the digest of a non-empty sequence is the SHA-256, in
    hexadecimal, of the JSON text of the records reduced to title, link,
    department and location and put in ascending order of link under
    [localeCompare], records whose links compare equal staying in the
    order they were scraped in; that arrangement is the only one that is
    in order and keeps tied records as they came, so the digest is
    determined.  The timestamp has no part in it.  It is the digest of the
    list sorted on the raw string whenever the two orders agree on the
    links present.  A cycle leaves the stored digest alone and sends
    nothing exactly when this digest equals the stored one. *)
Theorem content_hash_strategy (localeCompare : string -> string -> Z) (jobs : list Job) :
  ConsistentComparator localeCompare ->
  jobs <> [] ->
  (exists sorted,
      Permutation sorted (map hashed jobs)
      /\ StronglySorted (fun a b => localeCompare (h_link a) (h_link b) <= 0) sorted
      /\ (forall a,
            List.filter (tied (by_link localeCompare) a) sorted
            = List.filter (tied (by_link localeCompare) a) (map hashed jobs))
      /\ generateJobsHash localeCompare jobs = sha256_hex (JSON_stringify sorted))
  /\ (forall sorted,
        StronglySorted (fun a b => localeCompare (h_link a) (h_link b) <= 0) sorted ->
        (forall a,
            List.filter (tied (by_link localeCompare) a) sorted
            = List.filter (tied (by_link localeCompare) a) (map hashed jobs)) ->
        generateJobsHash localeCompare jobs = sha256_hex (JSON_stringify sorted))
  /\ (forall jobs',
        map hashed jobs' = map hashed jobs ->
        generateJobsHash localeCompare jobs' = generateJobsHash localeCompare jobs)
  /\ ((forall a b, In a jobs -> In b jobs ->
                   (localeCompare (link a) (link b) <=? 0)
                   = (codeUnitCompare (link a) (link b) <=? 0)) ->
      generateJobsHash localeCompare jobs = spec_contentDigest jobs)
  /\ (forall tl config es out files,
        let r := Mailslurp.checkForJobs localeCompare tl config es out (Fulfilled jobs)
                                        files in
        (Mailslurp.hashWrites (trace r) = []
         <-> option_map trim (Mailslurp.hashFile files)
             = Some (generateJobsHash localeCompare jobs))
        /\ (option_map trim (Mailslurp.hashFile files)
            = Some (generateJobsHash localeCompare jobs) ->
            Mailslurp.emails (trace r) = []
            /\ Mailslurp.hashFile (final_state r) = Mailslurp.hashFile files
            /\ Mailslurp.jobsFile (final_state r) = Mailslurp.jobsFile files))
  /\ (forall tl env out kv,
        let r := Worker.checkForJobs localeCompare tl env out (Fulfilled jobs) kv in
        (completion r = Normal Worker.NoChanges
         <-> Worker.jobs_hash kv = Some (generateJobsHash localeCompare jobs))
        /\ (Worker.jobs_hash kv = Some (generateJobsHash localeCompare jobs) ->
            Worker.emails (trace r) = [] /\ final_state r = kv)).
Proof.
  intros C Hne.
  pose proof (by_link_consistent localeCompare C) as Cl.
  split; [|split; [|split; [|split; [|split]]]].
  - exists (sort (by_link localeCompare) (map hashed jobs)). split; [|split; [|split]].
    + apply sort_perm.
    + apply (sort_sorted (by_link localeCompare)). exact Cl.
    + intros a. apply sort_stable. exact Cl.
    + unfold generateJobsHash. reflexivity.
  - intros sorted Hsorted Hstable. unfold generateJobsHash.
    apply (f_equal sha256_hex), (f_equal JSON_stringify).
    apply (stable_sorted_unique (by_link localeCompare) Cl).
    + apply (sort_sorted (by_link localeCompare)). exact Cl.
    + exact Hsorted.
    + intros a. rewrite Hstable. apply sort_stable. exact Cl.
  - intros jobs'. apply generateJobsHash_hashed.
  - intros Hagree. unfold generateJobsHash, spec_contentDigest.
    apply (f_equal sha256_hex), (f_equal JSON_stringify).
    apply sort_ext. intros x y Hx Hy.
    apply in_map_iff in Hx as [a [<- Ha]]. apply in_map_iff in Hy as [b [<- Hb]].
    now apply Hagree.
  - intros tl config es out files r. subst r. split.
    + split.
      * intros Hnone.
        destruct (decide (option_map trim (Mailslurp.hashFile files)
                          = Some (generateJobsHash localeCompare jobs))) as [E|N];
          [exact E|]. exfalso.
        destruct (filterJobsByKeywords tl jobs (Some (Mailslurp.keywords config))) eqn:Hf.
        -- destruct (MailslurpRuns.mailslurp_run_no_match localeCompare tl config es out files jobs
                       Hne N Hf) as (_ & Hh & _).
           rewrite Hh in Hnone. discriminate.
        -- assert (Hsome : filterJobsByKeywords tl jobs (Some (Mailslurp.keywords config))
                           <> []) by (rewrite Hf; discriminate).
           destruct (MailslurpRuns.mailslurp_run_match localeCompare tl config es out files jobs
                       Hne N Hsome) as (_ & _ & Hh & _).
           rewrite Hh in Hnone. discriminate.
      * intros E.
        destruct (MailslurpRuns.mailslurp_run_unchanged localeCompare tl config es out files jobs
                    Hne E) as (_ & _ & _ & Hh & _).
        exact Hh.
    + intros E.
      destruct (MailslurpRuns.mailslurp_run_unchanged localeCompare tl config es out files jobs
                  Hne E) as (Hhf & Hjf & He & _).
      split; [exact He | split; [exact Hhf | exact Hjf]].
  - intros tl env out kv r. subst r. split.
    + split.
      * intros Hres.
        destruct (decide (Worker.jobs_hash kv
                          = Some (generateJobsHash localeCompare jobs))) as [E|N];
          [exact E|]. exfalso.
        destruct (filterJobsByKeywords tl jobs (Some (Worker.keywords env))) eqn:Hf.
        -- destruct (WorkerRuns.worker_run_no_match localeCompare tl env out kv jobs Hne N Hf)
             as (_ & _ & _ & _ & _ & Hc).
           rewrite Hc in Hres.
           destruct (Worker.putHash out), (Worker.putJobs out); discriminate.
        -- assert (Hsome : filterJobsByKeywords tl jobs (Some (Worker.keywords env)) <> [])
             by (rewrite Hf; discriminate).
           destruct (Worker.serviceBuilds env) eqn:Hb.
           ++ destruct (WorkerRuns.worker_run_match localeCompare tl env out kv jobs
                          Hne N Hsome Hb) as (_ & _ & _ & _ & _ & Hc).
              exact (Hc Hres).
           ++ destruct (WorkerRuns.worker_run_match_no_key localeCompare tl env out kv jobs
                          Hne N Hsome Hb) as (_ & _ & _ & _ & _ & Hc).
              rewrite Hc in Hres. discriminate.
      * intros E.
        destruct (WorkerRuns.worker_run_unchanged localeCompare tl env out kv jobs Hne E)
          as (_ & _ & _ & _ & Hc).
        exact Hc.
    + intros E.
      destruct (WorkerRuns.worker_run_unchanged localeCompare tl env out kv jobs Hne E)
        as (Hs & He & _).
      split; [exact He | exact Hs].
Qed.


Lemma content_hash_strategy_witness :
  generateJobsHash codeUnitCompare [designer; backendEngineer]
  = spec_contentDigest [designer; backendEngineer]
  /\ Worker.emails
       (trace (Worker.checkForJobs codeUnitCompare asciiLower workerWithKey calmWorkerDay
                 (Fulfilled [designer; backendEngineer])
                 {| Worker.jobs_hash :=
                      Some (generateJobsHash codeUnitCompare [designer; backendEngineer]);
                    Worker.latest_jobs := None;
                    Worker.activity_logs := [] |})) = [].
Proof.
  pose proof (content_hash_strategy codeUnitCompare [designer; backendEngineer]
                codeUnitCompare_consistent ltac:(discriminate))
    as (_ & _ & _ & Hspec & _ & Hworker).
  split.
  - apply Hspec. intros a b _ _. reflexivity.
  - apply (proj2 (Hworker asciiLower workerWithKey calmWorkerDay _)). reflexivity.
Defined.


(** ** The sinks of enhanced-scraper.js *)

Module EnhancedRuns.
Import Enhanced.

Section Runs.
Variable config : Config.
Variable out : Outside.

    (** A sink leaves the set of seen links alone and does not look at it. *)
Lemma send_run s newJobs (st : gset string) :
      send config out s newJobs st
      = (st, trace (send config out s newJobs ∅), completion (send config out s newJobs ∅)).
    Proof.
      destruct s; unfold send, sendEmailNotification, sendDiscordNotification,
        sendTelegramNotification, sendWebhookNotification, logToFile;
        eff_unfold; simpl; run_cases; reflexivity.
    Qed.

Lemma send_state s newJobs (st : gset string) :
      final_state (send config out s newJobs st) = st.
    Proof. now rewrite send_run. Qed.

Lemma launch_run sinks newJobs (st : gset string) :
      launch config out sinks newJobs st
      = (st,
         flat_map (fun s => trace (send config out s newJobs ∅))
                  (List.filter (enabled config) sinks),
         Normal (map (entry config out newJobs) (List.filter (enabled config) sinks))).
    Proof.
      induction sinks as [|s sinks IH]; [reflexivity|].
      simpl. destruct (enabled config s); [|exact IH].
      unfold bind, async, ret. rewrite send_run, IH. simpl.
      now rewrite app_nil_r.
    Qed.

Lemma printJobs_run newJobs (st : gset string) :
      exists t,
        printJobs newJobs st = (st, t, Normal tt) /\ outbound t = [].
    Proof.
      unfold printJobs.
      generalize ([nl +:+ "🎉 NEW JOBS FOUND!"]
                    ++ concat (mapi_from 0 consoleBlock newJobs) ++ [nl])%list.
      intros lines. induction lines as [|line lines [t [E Ho]]].
      - exists []. split; reflexivity.
      - exists (ConsoleLog line :: t). split; [|exact Ho].
        exact (emit_then (ConsoleLog line) _ st st t (Normal tt) E).
    Qed.

Lemma sendNotifications_run newJobs (st : gset string) :
      exists console,
        sendNotifications config out newJobs st
        = (st,
           (console ++ flat_map (fun s => trace (send config out s newJobs ∅))
                                (List.filter (enabled config) all_sinks))%list,
           Normal tt)
        /\ outbound console = []
        /\ (console_enabled config = false -> console = []).
    Proof.
      assert (Hc : exists console,
                 (if console_enabled config then printJobs newJobs else ret tt) st
                 = (st, console, Normal tt)
                 /\ outbound console = []
                 /\ (console_enabled config = false -> console = [])).
      { destruct (console_enabled config).
        - destruct (printJobs_run newJobs st) as [t [E Ho]].
          exists t. split; [exact E|]. split; [exact Ho | discriminate].
        - exists []. repeat split. }
      destruct Hc as [console [E [Ho Hoff]]].
      exists console. split; [|split; assumption].
      unfold sendNotifications.
      rewrite (bind_run _ _ st st console tt E).
      rewrite (bind_run _ _ st st _ _ (launch_run all_sinks newJobs st)).
      generalize (flat_map (fun s => trace (send config out s newJobs ∅))
                           (List.filter (enabled config) all_sinks)).
      intros t. unfold bind, await, ret, allSettled, awaited.
      now rewrite !app_nil_r.
    Qed.
End Runs.

Lemma sink_eqb_neq a b : a <> b -> sink_eqb a b = false.
  Proof. destruct a, b; simpl; congruence. Qed.

  (** What another sink is told by the outside world is nothing to this
      one. *)
Lemma send_override config out s other imp del newJobs (st : gset string) :
    s <> other ->
    send config (override out other imp del) s newJobs st = send config out s newJobs st.
  Proof.
    intros Hne. destruct s, other; try congruence; reflexivity.
  Qed.
End EnhancedRuns.


Arguments Enhanced.sendNotifications : simpl never.
Arguments Enhanced.send : simpl never.

Lemma outbound_app t1 t2 :
  Enhanced.outbound (t1 ++ t2)%list = (Enhanced.outbound t1 ++ Enhanced.outbound t2)%list.
Proof. unfold Enhanced.outbound. apply filter_app. Qed.

Lemma enhanced_check_run config out current (previous : gset string) :
  let newJobs := List.filter (Enhanced.unseen previous) current in
  let r := Enhanced.checkForNewJobs config out (Fulfilled current) previous in
  completion r = Normal tt
  /\ final_state r = (if (0 <? length newJobs)%nat
                      then list_to_set (map link current) else previous)
  /\ Enhanced.outbound (trace r)
     = (if (0 <? length newJobs)%nat
        then Enhanced.outbound
               (flat_map (fun s => trace (Enhanced.send config out s newJobs ∅))
                         (List.filter (Enhanced.enabled config) Enhanced.all_sinks))
        else []).
Proof.
  intros newJobs r. subst r.
  set (sent := flat_map (fun s => trace (Enhanced.send config out s newJobs ∅))
                        (List.filter (Enhanced.enabled config) Enhanced.all_sinks)).
  destruct (EnhancedRuns.sendNotifications_run config out newJobs previous)
    as [console [E [Ho _]]].
  fold sent in E. clearbody sent.
  unfold Enhanced.checkForNewJobs.
  destruct current as [|j0 rest]; [repeat split|].
  remember (j0 :: rest) as current eqn:Ec.
  assert (Hlen : (length current =? 0)%nat = false) by (subst current; reflexivity).
  eff_unfold. simpl. rewrite Hlen. fold newJobs.
  destruct (0 <? length newJobs)%nat eqn:Hn.
  - rewrite E. simpl.
    split; [reflexivity|]. split; [reflexivity|].
    change (Enhanced.ConsoleLog ?x :: ?t) with ([Enhanced.ConsoleLog x] ++ t)%list.
    rewrite !outbound_app, Ho. simpl. now rewrite !app_nil_r.
  - simpl. repeat split.
Qed.

Lemma archive_check_run config sendMail current (previous : gset string) :
  let newJobs :=
    List.filter (fun job => negb (bool_decide (link job ∈ previous))) current in
  let r := Archive.checkForNewJobs config sendMail (Fulfilled current) previous in
  completion r = Normal tt
  /\ final_state r = (if (0 <? length newJobs)%nat
                      then list_to_set (map link current) else previous)
  /\ Archive.mails (trace r)
     = (if (0 <? length newJobs)%nat
        then [ {| mail_from := Archive.EMAIL_USER config;
                  mail_to := Archive.EMAIL_TO config;
                  mail_subject := "New Airbnb Job Openings Alert";
                  mail_found := None;
                  mail_cards := map Archive.card newJobs |} ]
        else []).
Proof.
  intros newJobs r. subst r.
  unfold Archive.checkForNewJobs, Archive.sendEmailNotification.
  eff_unfold. simpl. fold newJobs.
  destruct (0 <? length newJobs)%nat; [|repeat split].
  destruct sendMail; simpl; repeat split.
Qed.


Lemma positive_length {A : Type} (l : list A) : (0 <? length l)%nat = negb (bool_decide (l = [])).
Proof. destruct l; reflexivity. Qed.

Lemma unseen_spec (previous : gset string) current job :
  In job (List.filter (Enhanced.unseen previous) current)
  <-> In job current /\ link job ∉ previous.
Proof.
  rewrite filter_In. unfold Enhanced.unseen. rewrite negb_true_iff, bool_decide_eq_false.
  reflexivity.
Qed.

(** C2: the records handed to the sinks are those of the current scrape
    whose link is not in the set of seen links.  When there is none, the
    set is left as it was and nothing leaves the process; otherwise the set
    becomes the set of the links of the current scrape, links no longer
    listed being dropped.  The archived scraper does the same with its one
    e-mail.  With {A, B} seen and A, B, C scraped, C alone is notified and
    the set becomes {A, B, C}. *)
Theorem identity_set_strategy
        (config : Enhanced.Config) (out : Enhanced.Outside)
        (current : list Job) (previous : gset string) :
  let newJobs := List.filter (Enhanced.unseen previous) current in
  let r := Enhanced.checkForNewJobs config out (Fulfilled current) previous in
  (forall job, In job newJobs <-> In job current /\ link job ∉ previous)
  /\ (newJobs = [] ->
      final_state r = previous /\ Enhanced.outbound (trace r) = [])
  /\ (newJobs <> [] ->
      final_state r = list_to_set (map link current)
      /\ (forall l, l ∈ final_state r <-> In l (map link current))
      /\ Enhanced.outbound (trace r)
         = Enhanced.outbound
             (flat_map (fun s => trace (Enhanced.send config out s newJobs ∅))
                       (List.filter (Enhanced.enabled config) Enhanced.all_sinks)))
  /\ (forall archived sendMail,
        let r' := Archive.checkForNewJobs archived sendMail (Fulfilled current) previous in
        (newJobs = [] -> final_state r' = previous /\ Archive.mails (trace r') = [])
        /\ (newJobs <> [] ->
            final_state r' = list_to_set (map link current)
            /\ map mail_cards (Archive.mails (trace r')) = [map (Archive.card) newJobs]))
  /\ List.filter (Enhanced.unseen {[ "A"; "B" ]}) [posting "A"; posting "B"; posting "C"]
     = [posting "C"]
  /\ final_state (Enhanced.checkForNewJobs config out
                    (Fulfilled [posting "A"; posting "B"; posting "C"]) {[ "A"; "B" ]})
     = {[ "A"; "B"; "C" ]}.
Proof.
  intros newJobs r.
  destruct (enhanced_check_run config out current previous) as (_ & Hs & Ho).
  fold newJobs in Hs, Ho. fold r in Hs, Ho. rewrite positive_length in Hs, Ho.
  split; [intros job; apply unseen_spec|].
  split; [|split; [|split; [|split]]].
  - intros E. rewrite E in Hs, Ho. simpl in Hs, Ho. split; assumption.
  - intros N. rewrite bool_decide_eq_false_2 in Hs, Ho by exact N. simpl in Hs, Ho.
    split; [exact Hs|]. split; [|exact Ho].
    intros l. rewrite Hs. rewrite elem_of_list_to_set. apply list_elem_of_In.
  - intros archived sendMail r'.
    destruct (archive_check_run archived sendMail current previous) as (_ & Hs' & Hm').
    fold r' in Hs', Hm'. change (List.filter _ current) with newJobs in Hs', Hm'.
    rewrite positive_length in Hs', Hm'. split.
    + intros E. rewrite E in Hs', Hm'. split; assumption.
    + intros N. rewrite bool_decide_eq_false_2 in Hs', Hm' by exact N. simpl in Hs', Hm'.
      split; [exact Hs'|]. now rewrite Hm'.
  - vm_compute. reflexivity.
  - destruct (enhanced_check_run config out [posting "A"; posting "B"; posting "C"]
                                 {[ "A"; "B" ]}) as (_ & Hs3 & _).
    rewrite Hs3.
    replace (List.filter (Enhanced.unseen {[ "A"; "B" ]})
                         [posting "A"; posting "B"; posting "C"])
      with [posting "C"] by (vm_compute; reflexivity).
    simpl. set_solver.
Qed.

Lemma identity_set_strategy_witness :
  (final_state (Enhanced.checkForNewJobs threeHooks allDelivered
                  (Fulfilled [posting "A"; posting "B"]) {[ "A"; "B"; "D" ]})
   = {[ "A"; "B"; "D" ]})
  /\ (final_state (Enhanced.checkForNewJobs threeHooks allDelivered
                     (Fulfilled [posting "A"; posting "B"; posting "C"]) {[ "A"; "B"; "D" ]})
      = list_to_set (map link [posting "A"; posting "B"; posting "C"])).
Proof.
  split.
  - apply (proj1 (proj2 (identity_set_strategy threeHooks allDelivered
                           [posting "A"; posting "B"] {[ "A"; "B"; "D" ]}))).
    vm_compute. reflexivity.
  - apply (proj1 (proj2 (proj2 (identity_set_strategy threeHooks allDelivered
                                   [posting "A"; posting "B"; posting "C"]
                                   {[ "A"; "B"; "D" ]})))).
    vm_compute. discriminate.
Defined.


(** ** The fan-out *)

(** ** The fan-out in the event loop *)

Lemma upToAwait_spec {Ev A : Type} (m : Task Ev A) :
  eventsLeft m = (fst (upToAwait m) ++ eventsLeft (snd (upToAwait m)))%list
  /\ ending (snd (upToAwait m)) = ending m
  /\ awaitsLeft (snd (upToAwait m)) = awaitsLeft m
  /\ (pending (snd (upToAwait m)) = true \/ exists r, snd (upToAwait m) = Finished r).
Proof.
  induction m as [r|e next IH|next IH].
  - simpl. repeat split. right. now exists r.
  - simpl. destruct (upToAwait next) as [t rest]. simpl in *.
    destruct IH as (He & Hr & Ha & Hs). rewrite He. repeat split; assumption.
  - simpl. repeat split. now left.
Qed.

Lemma sink_eqb_eq a b : Enhanced.sink_eqb a b = true <-> a = b.
Proof. destruct a, b; simpl; split; congruence. Qed.

Lemma sink_eqb_refl a : Enhanced.sink_eqb a a = true.
Proof. now apply sink_eqb_eq. Qed.

Lemma eventsOf_app origin t1 t2 :
  Fanout.eventsOf origin (t1 ++ t2)
  = (Fanout.eventsOf origin t1 ++ Fanout.eventsOf origin t2)%list.
Proof. unfold Fanout.eventsOf. now rewrite filter_app, map_app. Qed.

Lemma eventsOf_from origin origin' t :
  Fanout.eventsOf origin (Fanout.from origin' t)
  = if Fanout.origin_eqb origin' origin then t else [].
Proof.
  unfold Fanout.eventsOf, Fanout.from.
  induction t as [|e t IH]; simpl; [now destruct (Fanout.origin_eqb origin' origin)|].
  destruct (Fanout.origin_eqb origin' origin); simpl; [now rewrite IH | exact IH].
Qed.

Section Loop.
Import Fanout.
Lemma resume_spec n (promises : list (Enhanced.Sink * Task Enhanced.Event unit)) :
  NoDup (map fst promises) ->
  Forall suspended promises ->
  let t := fst (Fanout.resume n promises) in
  let after := snd (Fanout.resume n promises) in
  map fst after = map fst promises
  /\ endings after = endings promises
  /\ Forall suspended after
  /\ Fanout.eventsOf None t = []
  /\ (forall s, ~ In s (map fst promises) -> Fanout.eventsOf (Some s) t = [])
  /\ (forall s, (Fanout.eventsOf (Some s) t ++ Fanout.toCome s after)%list
                = Fanout.toCome s promises)
  /\ ((n < Fanout.waiting promises)%nat -> S (awaits after) = awaits promises).
Proof.
  revert n. induction promises as [|[s0 p0] rest IH]; intros n Hnd Hs.
  - simpl. repeat split; auto. intros H. inversion H.
  - inversion Hnd as [|? ? Hnot Hnd']; subst.
    inversion Hs as [|? ? Hs0 Hsr]; subst.
    assert (Skip : forall m,
               Fanout.resume n ((s0, p0) :: rest)
               = (fst (Fanout.resume m rest), (s0, p0) :: snd (Fanout.resume m rest)) ->
               ((n < Fanout.waiting ((s0, p0) :: rest))%nat ->
                (m < Fanout.waiting rest)%nat) ->
               let t := fst (Fanout.resume n ((s0, p0) :: rest)) in
               let after := snd (Fanout.resume n ((s0, p0) :: rest)) in
               map fst after = map fst ((s0, p0) :: rest)
               /\ endings after = endings ((s0, p0) :: rest)
               /\ Forall suspended after
               /\ Fanout.eventsOf None t = []
               /\ (forall s, ~ In s (map fst ((s0, p0) :: rest)) ->
                             Fanout.eventsOf (Some s) t = [])
               /\ (forall s, (Fanout.eventsOf (Some s) t ++ Fanout.toCome s after)%list
                             = Fanout.toCome s ((s0, p0) :: rest))
               /\ ((n < Fanout.waiting ((s0, p0) :: rest))%nat ->
                   S (awaits after) = awaits ((s0, p0) :: rest))).
    { intros m Hres Hm. rewrite Hres. simpl.
      destruct (IH m Hnd' Hsr) as (Hf & He & Hsu & Hn & Hout & Hc & Ha).
      split; [now rewrite Hf|]. split; [unfold endings in *; simpl; now rewrite He|].
      split; [constructor; assumption|]. split; [exact Hn|].
      split; [intros s Hin; apply Hout; intros Hin'; apply Hin; now right|].
      split.
      - intros s. unfold Fanout.toCome. simpl.
        fold (Fanout.toCome s (snd (Fanout.resume m rest))).
        fold (Fanout.toCome s rest).
        destruct (Enhanced.sink_eqb s0 s) eqn:E.
        + apply sink_eqb_eq in E. subst s0.
          specialize (Hc s). rewrite (Hout s Hnot) in *. simpl in *. now rewrite Hc.
        + simpl. apply Hc.
      - intros Hlt. specialize (Ha (Hm Hlt)). unfold awaits in *. simpl. lia. }
    destruct p0 as [r|e next|next].
    + apply (Skip n); [simpl; now destruct (Fanout.resume n rest)|].
      unfold Fanout.waiting. simpl. auto.
    + apply (Skip n); [simpl; now destruct (Fanout.resume n rest)|].
      unfold Fanout.waiting. simpl. auto.
    + destruct n as [|n'].
      * simpl. pose proof (upToAwait_spec next) as (He & Hr & Ha & Hsus).
        destruct (upToAwait next) as [t0 rest0]. simpl in *.
        split; [reflexivity|]. split; [unfold endings; simpl; now rewrite Hr|].
        split; [constructor; assumption|].
        split; [change (map (pair (Some s0)) t0) with (Fanout.from (Some s0) t0);
                now rewrite eventsOf_from|].
        split.
        { intros s Hin.
          change (map (pair (Some s0)) t0) with (Fanout.from (Some s0) t0).
          rewrite eventsOf_from. simpl.
          destruct (Enhanced.sink_eqb s0 s) eqn:E; [|reflexivity].
          apply sink_eqb_eq in E. subst. exfalso. apply Hin. now left. }
        split.
        { intros s.
          change (map (pair (Some s0)) t0) with (Fanout.from (Some s0) t0).
          rewrite eventsOf_from. unfold Fanout.toCome. simpl.
          destruct (Enhanced.sink_eqb s0 s); simpl; [|reflexivity].
          rewrite He. now rewrite app_assoc. }
        intros _. unfold awaits. simpl. now rewrite Ha.
      * apply (Skip n'); [simpl; now destruct (Fanout.resume n' rest)|].
        unfold Fanout.waiting. simpl. lia.
Qed.

Lemma settled_when_none_waits (promises : list (Enhanced.Sink * Task Enhanced.Event unit)) :
  Forall suspended promises ->
  Fanout.waiting promises = 0%nat ->
  Forall (fun p => snd p = Finished (ending (snd p))) promises.
Proof.
  induction 1 as [|[s p] rest Hs Hrest IH]; intros Hw; [constructor|].
  unfold Fanout.waiting in *. simpl in *.
  destruct Hs as [Hp|[r Hr]]; simpl in *.
  - rewrite Hp in Hw. discriminate.
  - subst p. simpl in Hw. constructor; [reflexivity | now apply IH].
Qed.

Lemma waiting_le_awaits (promises : list (Enhanced.Sink * Task Enhanced.Event unit)) :
  (Fanout.waiting promises <= awaits promises)%nat.
Proof.
  induction promises as [|[s p] rest IH]; [reflexivity|].
  unfold Fanout.waiting, awaits in *. simpl.
  destruct p; simpl; lia.
Qed.

Lemma eventLoop_spec fuel schedule :
  forall turn (promises : list (Enhanced.Sink * Task Enhanced.Event unit)),
    NoDup (map fst promises) ->
    Forall suspended promises ->
    let t := fst (Fanout.eventLoop fuel schedule turn promises) in
    let after := snd (Fanout.eventLoop fuel schedule turn promises) in
    map fst after = map fst promises
    /\ endings after = endings promises
    /\ Fanout.eventsOf None t = []
    /\ (forall s, (Fanout.eventsOf (Some s) t ++ Fanout.toCome s after)%list
                  = Fanout.toCome s promises)
    /\ ((awaits promises <= fuel)%nat ->
        Forall (fun p => snd p = Finished (ending (snd p))) after).
Proof.
  induction fuel as [|fuel IH]; intros turn promises Hnd Hs.
  - simpl. repeat split; auto. intros Hle.
    apply settled_when_none_waits; [exact Hs|].
    pose proof (waiting_le_awaits promises). lia.
  - simpl. destruct (Fanout.waiting promises =? 0)%nat eqn:Ew.
    + simpl. repeat split; auto. intros _.
      apply settled_when_none_waits; [exact Hs | now apply Nat.eqb_eq].
    + apply Nat.eqb_neq in Ew.
      pose proof (resume_spec (schedule turn mod Fanout.waiting promises) promises Hnd Hs)
        as (Hf & He & Hsu & Hn & _ & Hc & Ha).
      destruct (Fanout.resume (schedule turn mod Fanout.waiting promises) promises)
        as [t1 promises1]. simpl in *.
      assert (Hnd1 : NoDup (map fst promises1)) by now rewrite Hf.
      pose proof (IH (S turn) promises1 Hnd1 Hsu) as (Hf2 & He2 & Hn2 & Hc2 & Hall).
      destruct (Fanout.eventLoop fuel schedule (S turn) promises1) as [t2 promises2].
      simpl in *.
      split; [now rewrite Hf2|]. split; [now rewrite He2|].
      split; [now rewrite eventsOf_app, Hn, Hn2|].
      split.
      * intros s. rewrite eventsOf_app, <- app_assoc, Hc2. apply Hc.
      * intros Hle. apply Hall.
        assert (schedule turn mod Fanout.waiting promises < Fanout.waiting promises)%nat
          by (apply Nat.mod_upper_bound; exact Ew).
        specialize (Ha H). lia.
Qed.

Lemma launch_spec config out newJobs sinks :
  NoDup sinks ->
  let t := fst (Fanout.launch config out sinks newJobs) in
  let promises := snd (Fanout.launch config out sinks newJobs) in
  map fst promises = List.filter (Enhanced.enabled config) sinks
  /\ endings promises
     = map (fun s => (s, ending (Fanout.send config out s newJobs)))
           (List.filter (Enhanced.enabled config) sinks)
  /\ Forall suspended promises
  /\ t = flat_map (fun s => Fanout.from (Some s)
                              (fst (upToAwait (Fanout.send config out s newJobs))))
                  (List.filter (Enhanced.enabled config) sinks)
  /\ Fanout.eventsOf None t = []
  /\ (forall s, ~ In s sinks ->
                Fanout.eventsOf (Some s) t = [] /\ Fanout.toCome s promises = [])
  /\ (forall s, In s sinks ->
                (Fanout.eventsOf (Some s) t ++ Fanout.toCome s promises)%list
                = if Enhanced.enabled config s
                  then eventsLeft (Fanout.send config out s newJobs) else []).
Proof.
  induction sinks as [|s0 sinks IH]; intros Hnd.
  - simpl. repeat split; auto. intros s [].
  - inversion Hnd as [|? ? Hnot Hnd']; subst.
    specialize (IH Hnd'). simpl in IH.
    destruct IH as (Hf & He & Hs & Ht & Hn & Hout & Hin).
    simpl. destruct (Enhanced.enabled config s0) eqn:En.
    + pose proof (upToAwait_spec (Fanout.send config out s0 newJobs))
        as (Hev & Hend & _ & Hsus).
      destruct (upToAwait (Fanout.send config out s0 newJobs)) as [t0 p0] eqn:Eu.
      destruct (Fanout.launch config out sinks newJobs) as [t' promises].
      simpl in *.
      split; [now rewrite Hf|]. split; [unfold endings in *; simpl; now rewrite He, Hend|].
      split; [constructor; assumption|]. split; [now rewrite Eu, Ht|].
      split; [now rewrite eventsOf_app, eventsOf_from, Hn|].
      split.
      * intros s Hs'. rewrite eventsOf_app, eventsOf_from. simpl.
        unfold Fanout.toCome. simpl. fold (Fanout.toCome s promises).
        destruct (Enhanced.sink_eqb s0 s) eqn:E.
        { apply sink_eqb_eq in E. subst. exfalso. apply Hs'. now left. }
        apply Hout. intros Hi. apply Hs'. now right.
      * intros s Hs'. rewrite eventsOf_app, eventsOf_from. simpl.
        unfold Fanout.toCome. simpl. fold (Fanout.toCome s promises).
        destruct (Enhanced.sink_eqb s0 s) eqn:E.
        { apply sink_eqb_eq in E. subst s0.
          destruct (Hout s Hnot) as [-> ->]. rewrite En, Hev, !app_nil_r. reflexivity. }
        destruct Hs' as [->|Hs']; [rewrite sink_eqb_refl in E; discriminate|].
        simpl. now apply Hin.
    + destruct (Fanout.launch config out sinks newJobs) as [t' promises]. simpl in *.
      split; [exact Hf|]. split; [exact He|]. split; [exact Hs|]. split; [exact Ht|].
      split; [exact Hn|]. split.
      * intros s Hs'. apply Hout. intros Hi. apply Hs'. now right.
      * intros s [->|Hs']; [|now apply Hin].
        rewrite En. destruct (Hout s Hnot) as [-> ->]. reflexivity.
Qed.
End Loop.

Lemma all_sinks_NoDup : NoDup Enhanced.all_sinks.
Proof.
  unfold Enhanced.all_sinks.
  repeat (constructor; [simpl; intuition discriminate|]). constructor.
Qed.

Lemma all_sinks_complete s : In s Enhanced.all_sinks.
Proof. destruct s; simpl; auto 6. Qed.

(** A sink's body with its [await]s marked does what the sink run to its
    end does, and ends the same way. *)
Lemma send_marked config out s newJobs :
  eventsLeft (Fanout.send config out s newJobs)
  = trace (Enhanced.send config out s newJobs ∅)
  /\ ending (Fanout.send config out s newJobs)
     = completion (Enhanced.send config out s newJobs ∅).
Proof.
  destruct s;
    unfold Fanout.send, Fanout.sendEmailNotification, Fanout.sendDiscordNotification,
      Fanout.sendTelegramNotification, Fanout.sendWebhookNotification, Fanout.logToFile,
      Enhanced.send, Enhanced.sendEmailNotification, Enhanced.sendDiscordNotification,
      Enhanced.sendTelegramNotification, Enhanced.sendWebhookNotification,
      Enhanced.logToFile, does, returns, awaiting;
    eff_unfold; simpl; run_cases; split; reflexivity.
Qed.

Lemma sendNotifications_settles config out schedule newJobs :
  let t := fst (Fanout.sendNotifications config out schedule newJobs) in
  let notifications := snd (Fanout.sendNotifications config out schedule newJobs) in
  notifications
  = map (fun s => (s, Finished (completion (Enhanced.send config out s newJobs ∅))))
        (List.filter (Enhanced.enabled config) Enhanced.all_sinks)
  /\ (forall s, Fanout.eventsOf (Some s) t
                = if Enhanced.enabled config s
                  then trace (Enhanced.send config out s newJobs ∅) else [])
  /\ Fanout.eventsOf None t
     = map Enhanced.ConsoleLog (Fanout.consoleLines config newJobs)
  /\ exists waited,
       t = (Fanout.from None (map Enhanced.ConsoleLog (Fanout.consoleLines config newJobs))
            ++ flat_map (fun s => Fanout.from (Some s)
                                    (fst (upToAwait (Fanout.send config out s newJobs))))
                        (List.filter (Enhanced.enabled config) Enhanced.all_sinks)
            ++ waited)%list.
Proof.
  unfold Fanout.sendNotifications, Fanout.awaitAllSettled.
  pose proof (launch_spec config out newJobs Enhanced.all_sinks all_sinks_NoDup)
    as (Hf & He & Hs & Ht & Hn & _ & Hin).
  destruct (Fanout.launch config out Enhanced.all_sinks newJobs) as [started promises].
  cbn [fst snd] in Hf, He, Hs, Ht, Hn, Hin.
  assert (Hnd : NoDup (map fst promises)).
  { rewrite Hf. apply List.NoDup_filter, all_sinks_NoDup. }
  pose proof (eventLoop_spec (Fanout.awaits promises) schedule 0 promises Hnd Hs)
    as (Hf2 & He2 & Hn2 & Hc2 & Hall).
  destruct (Fanout.eventLoop _ schedule 0 promises) as [waited settled].
  cbn [fst snd] in *. specialize (Hall (le_n _)).
  assert (Hgone : forall s, Fanout.toCome s settled = []).
  { intros s. unfold Fanout.toCome. clear -Hall.
    induction Hall as [|[s' p] rest Hp Hrest IH]; [reflexivity|].
    simpl in *. rewrite Hp. simpl. rewrite IH. now destruct (Enhanced.sink_eqb s' s). }
  split; [|split; [|split]].
  - rewrite He in He2. clear -He2 Hall.
    revert He2. generalize (List.filter (Enhanced.enabled config) Enhanced.all_sinks).
    induction Hall as [|[s' p] rest Hp Hrest IH]; intros [|s sinks] H;
      try discriminate; [reflexivity|].
    simpl in *. injection H as -> He Hr.
    rewrite Hp, He. f_equal; [|now apply IH].
    now rewrite (proj2 (send_marked config out s newJobs)).
  - intros s. rewrite !eventsOf_app, eventsOf_from. simpl.
    specialize (Hc2 s). rewrite Hgone, app_nil_r in Hc2. rewrite Hc2.
    rewrite (Hin s (all_sinks_complete s)).
    now rewrite (proj1 (send_marked config out s newJobs)).
  - rewrite !eventsOf_app, eventsOf_from, Hn, Hn2. simpl. now rewrite app_nil_r.
  - exists waited. now rewrite Ht.
Qed.

(** C4: [sendNotifications] starts every enabled sink, whatever the outside
    world answers to any of them, and records for each how its own run
    ended; it completes normally and leaves the set of seen links alone
    even when sinks fail.  What the outside world answers to one sink
    changes neither the run nor the recorded outcome of another.  In the
    event loop, whatever order the pending sinks are let go on in: every
    enabled sink is called, and runs to its first [await], before
    anything is waited for; [sendNotifications] returns only when every
    promise of the array is settled, each the way its sink ended; by then
    every sink has done all it does, its events in its own order and none
    missing; and neither the order nor what another sink is answered
    changes the events of a sink. *)
Theorem fanout_isolation
        (config : Enhanced.Config) (out : Enhanced.Outside)
        (newJobs : list Job) (previousJobs : gset string) :
  let r := Enhanced.sendNotifications config out newJobs previousJobs in
  completion r = Normal tt
  /\ final_state r = previousJobs
  /\ completion (Enhanced.launch config out Enhanced.all_sinks newJobs previousJobs)
     = Normal (map (Enhanced.entry config out newJobs)
                   (List.filter (Enhanced.enabled config) Enhanced.all_sinks))
  /\ Enhanced.outbound (trace r)
     = Enhanced.outbound
         (flat_map (fun s => trace (Enhanced.send config out s newJobs ∅))
                   (List.filter (Enhanced.enabled config) Enhanced.all_sinks))
  /\ (forall s other imp del,
        s <> other ->
        Enhanced.send config (Enhanced.override out other imp del) s newJobs previousJobs
        = Enhanced.send config out s newJobs previousJobs
        /\ Enhanced.entry config (Enhanced.override out other imp del) newJobs s
           = Enhanced.entry config out newJobs s)
  /\ (forall schedule,
        let happened := fst (Fanout.sendNotifications config out schedule newJobs) in
        let notifications := snd (Fanout.sendNotifications config out schedule newJobs) in
        notifications
        = map (fun s => (s, Finished (completion (Enhanced.send config out s newJobs ∅))))
              (List.filter (Enhanced.enabled config) Enhanced.all_sinks)
        /\ (forall s,
              Fanout.eventsOf (Some s) happened
              = if Enhanced.enabled config s
                then trace (Enhanced.send config out s newJobs ∅) else [])
        /\ Fanout.eventsOf None happened
           = map Enhanced.ConsoleLog (Fanout.consoleLines config newJobs)
        /\ exists waited,
             happened
             = (Fanout.from None
                  (map Enhanced.ConsoleLog (Fanout.consoleLines config newJobs))
                ++ flat_map
                     (fun s => Fanout.from (Some s)
                                 (fst (upToAwait (Fanout.send config out s newJobs))))
                     (List.filter (Enhanced.enabled config) Enhanced.all_sinks)
                ++ waited)%list)
  /\ (forall schedule schedule' s other imp del,
        s <> other ->
        Fanout.eventsOf (Some s)
          (fst (Fanout.sendNotifications config (Enhanced.override out other imp del)
                                         schedule' newJobs))
        = Fanout.eventsOf (Some s)
            (fst (Fanout.sendNotifications config out schedule newJobs))).
Proof.
  intros r.
  destruct (EnhancedRuns.sendNotifications_run config out newJobs previousJobs)
    as [console [E [Ho _]]].
  subst r. rewrite E.
  split; [reflexivity|]. split; [reflexivity|].
  split; [now rewrite EnhancedRuns.launch_run|].
  split; [unfold trace; cbn [fst snd]; rewrite outbound_app, Ho; reflexivity|].
  split; [|split].
  - intros s other imp del Hne. split.
    + now apply EnhancedRuns.send_override.
    + unfold Enhanced.entry. now rewrite EnhancedRuns.send_override.
  - intros schedule. apply sendNotifications_settles.
  - intros schedule schedule' s other imp del Hne.
    destruct (sendNotifications_settles config out schedule newJobs) as (_ & H & _).
    destruct (sendNotifications_settles config (Enhanced.override out other imp del)
                                        schedule' newJobs) as (_ & H' & _).
    rewrite H, H'. now rewrite EnhancedRuns.send_override.
Qed.

Lemma fanout_isolation_witness :
  Enhanced.send threeHooks telegramDown Enhanced.Discord [posting "C"] ∅
  = Enhanced.send threeHooks allDelivered Enhanced.Discord [posting "C"] ∅
  /\ Enhanced.entry threeHooks telegramDown [posting "C"] Enhanced.Webhook
     = Enhanced.entry threeHooks allDelivered [posting "C"] Enhanced.Webhook
  /\ Fanout.eventsOf (Some Enhanced.Webhook)
       (fst (Fanout.sendNotifications threeHooks telegramDown (fun turn => turn)
                                      [posting "C"]))
     = Fanout.eventsOf (Some Enhanced.Webhook)
         (fst (Fanout.sendNotifications threeHooks allDelivered (fun _ => 0%nat)
                                        [posting "C"])).
Proof.
  split; [|split].
  - apply (proj1 (proj2 (proj2 (proj2 (proj2
             (fanout_isolation threeHooks allDelivered [posting "C"] ∅)))))
             Enhanced.Discord Enhanced.Telegram (Fulfilled tt) (Rejected "ETIMEDOUT")).
    discriminate.
  - apply (proj1 (proj2 (proj2 (proj2 (proj2
             (fanout_isolation threeHooks allDelivered [posting "C"] ∅)))))
             Enhanced.Webhook Enhanced.Telegram (Fulfilled tt) (Rejected "ETIMEDOUT")).
    discriminate.
  - apply (proj2 (proj2 (proj2 (proj2 (proj2 (proj2
             (fanout_isolation threeHooks allDelivered [posting "C"] ∅))))))
             (fun _ => 0%nat) (fun turn => turn)
             Enhanced.Webhook Enhanced.Telegram (Fulfilled tt) (Rejected "ETIMEDOUT")).
    discriminate.
Defined.

(** Called, the three hooks are all pending at their import of node-fetch:
    it is the wait for the array that lets them post. *)
Example three_hooks_wait :
  map (fun p => pending (snd p))
      (snd (Fanout.launch threeHooks allDelivered Enhanced.all_sinks [posting "C"]))
  = [true; true; true]
  /\ Fanout.eventsOf (Some Enhanced.Discord)
       (fst (Fanout.launch threeHooks allDelivered Enhanced.all_sinks [posting "C"])) = [].
Proof. vm_compute. split; reflexivity. Qed.

(** With Telegram failing between Discord and the web hook, three requests
    still leave the process, and all three promises are fulfilled: the
    failure is caught and printed by the Telegram sink itself. *)
Example three_hooks_one_down :
  let r := Enhanced.sendNotifications threeHooks telegramDown [posting "C"] ∅ in
  length (Enhanced.outbound (trace r)) = 3%nat
  /\ completion (Enhanced.launch threeHooks telegramDown Enhanced.all_sinks [posting "C"] ∅)
     = Normal [ (Enhanced.Discord, Fulfilled tt); (Enhanced.Telegram, Fulfilled tt);
                (Enhanced.Webhook, Fulfilled tt) ]
  /\ In (Enhanced.ConsoleError "❌ Error sending Telegram notification: ETIMEDOUT") (trace r)
  /\ In (Enhanced.ConsoleLog "✅ Discord notification sent successfully") (trace r)
  /\ In (Enhanced.ConsoleLog "✅ Webhook notification sent successfully") (trace r).
Proof. vm_compute. intuition. Qed.

(** C5, as stated, fails: with nothing set in the environment the console
    is the one enabled sink, it prints the record, and the array of
    promises that is awaited is empty; the count of entries is 0, not 1. *)
Lemma console_sink_leaves_no_entry :
  spec_enabledSinks consoleOnly = 1%nat
  /\ completion (Enhanced.launch consoleOnly allDelivered Enhanced.all_sinks
                                 [posting "C"] ∅) = Normal []
  /\ trace (Enhanced.sendNotifications consoleOnly allDelivered [posting "C"] ∅) <> [].
Proof. vm_compute. repeat split. discriminate. Qed.

Lemma settled_entry config out newJobs s :
  snd (Enhanced.entry config out newJobs s) = Fulfilled tt
  \/ exists reason,
       snd (Enhanced.entry config out newJobs s) = Rejected reason
       /\ Enhanced.importFetch out s = Rejected reason.
Proof.
  unfold Enhanced.entry.
  destruct s; unfold Enhanced.send, Enhanced.sendEmailNotification,
    Enhanced.sendDiscordNotification, Enhanced.sendTelegramNotification,
    Enhanced.sendWebhookNotification, Enhanced.logToFile;
    eff_unfold; simpl; run_cases; eauto.
Qed.

(** C5, amended: the array of promises [sendNotifications] awaits has no
    entry for a disabled sink and exactly one for each enabled sink among
    e-mail, Discord, Telegram, web hook and file log, in that order, so
    its length is the number of those that are enabled; the console writes
    directly and has no entry.  An entry is rejected only when the sink's
    import of node-fetch is; a delivery that fails is caught and printed by
    the sink and leaves its entry fulfilled.  [sendNotifications] itself
    completes normally with no value. *)
Theorem fanout_entries
        (config : Enhanced.Config) (out : Enhanced.Outside)
        (newJobs : list Job) (previousJobs : gset string) :
  exists entries,
    completion (Enhanced.launch config out Enhanced.all_sinks newJobs previousJobs)
    = Normal entries
    /\ map fst entries = List.filter (Enhanced.enabled config) Enhanced.all_sinks
    /\ length entries
       = length (List.filter (Enhanced.enabled config) Enhanced.all_sinks)
    /\ (forall s,
          length (List.filter (fun e => Enhanced.sink_eqb (fst e) s) entries)
          = if Enhanced.enabled config s then 1%nat else 0%nat)
    /\ (forall s p,
          In (s, p) entries ->
          p = Fulfilled tt
          \/ exists reason,
               p = Rejected reason /\ Enhanced.importFetch out s = Rejected reason)
    /\ completion (Enhanced.sendNotifications config out newJobs previousJobs) = Normal tt.
Proof.
  exists (map (Enhanced.entry config out newJobs)
              (List.filter (Enhanced.enabled config) Enhanced.all_sinks)).
  split; [now rewrite EnhancedRuns.launch_run|].
  split; [rewrite map_map; apply map_id|].
  split; [apply length_map|].
  split; [|split].
  - intros s. unfold Enhanced.entry, Enhanced.all_sinks, Enhanced.enabled.
    destruct s;
      destruct (Enhanced.email_enabled config), (Enhanced.discord_enabled config),
        (Enhanced.telegram_enabled config), (Enhanced.webhook_enabled config),
        (Enhanced.fileLog_enabled config); reflexivity.
  - intros s p Hin. apply in_map_iff in Hin as [s' [Heq _]].
    unfold Enhanced.entry in Heq. inversion Heq; subst.
    apply (settled_entry config out newJobs s).
  - destruct (EnhancedRuns.sendNotifications_run config out newJobs previousJobs)
      as [console [E _]].
    now rewrite E.
Qed.

Lemma fanout_entries_witness :
  exists entries,
    completion (Enhanced.launch threeHooks telegramDown Enhanced.all_sinks
                                [posting "C"] ∅) = Normal entries
    /\ length entries = 3%nat
    /\ In (Enhanced.Telegram, Fulfilled tt) entries
    /\ (Fulfilled tt = Fulfilled tt
        \/ exists reason,
             Fulfilled tt = Rejected reason
             /\ Enhanced.importFetch telegramDown Enhanced.Telegram = Rejected reason).
Proof.
  destruct (fanout_entries threeHooks telegramDown [posting "C"] ∅)
    as (entries & Hc & _ & Hl & _ & Hin & _).
  assert (Hi : In (Enhanced.Telegram, Fulfilled tt) entries).
  { vm_compute in Hc. injection Hc as <-. right. left. reflexivity. }
  exists entries. split; [exact Hc|]. split; [exact Hl|]. split; [exact Hi|].
  exact (Hin Enhanced.Telegram (Fulfilled tt) Hi).
Defined.


(** ** What each sink renders *)

Lemma append_assoc (a b c : string) : (a +:+ b) +:+ c = a +:+ (b +:+ c).
Proof.
  induction a as [|x a IH]; [reflexivity|].
  change (String x ((a +:+ b) +:+ c) = String x (a +:+ (b +:+ c))). now rewrite IH.
Qed.

Lemma append_nil_r (a : string) : a +:+ "" = a.
Proof.
  induction a as [|x a IH]; [reflexivity|].
  change (String x (a +:+ "") = String x a). now rewrite IH.
Qed.



Lemma printJobs_trace newJobs (st : gset string) :
  trace (Enhanced.printJobs newJobs st)
  = map Enhanced.ConsoleLog
        ([nl +:+ "🎉 NEW JOBS FOUND!"]
           ++ concat (mapi_from 0 Enhanced.consoleBlock newJobs) ++ [nl])%list.
Proof.
  unfold Enhanced.printJobs.
  generalize ([nl +:+ "🎉 NEW JOBS FOUND!"]
                ++ concat (mapi_from 0 Enhanced.consoleBlock newJobs) ++ [nl])%list.
  intros lines.
  assert (H : fold_right
                (fun line rest => bind (emit (Enhanced.ConsoleLog line)) (fun _ => rest))
                (ret tt) lines st
              = (st, map Enhanced.ConsoleLog lines, Normal tt)).
  { induction lines as [|line lines IH]; [reflexivity|].
    exact (emit_then (Enhanced.ConsoleLog line) _ st st _ (Normal tt) IH). }
  now rewrite H.
Qed.


Lemma mapi_from_nth {A B : Type} (f : nat -> A -> B) (l : list A) :
  forall k i x, nth_error l i = Some x -> In (f (k + i)%nat x) (mapi_from k f l).
Proof.
  induction l as [|y l IH]; intros k [|i] x H; simpl in *; try discriminate.
  - injection H as ->. left. now rewrite Nat.add_0_r.
  - right. replace (k + S i)%nat with (S k + i)%nat by lia. now apply IH.
Qed.

Lemma printJobs_prints newJobs (st : gset string) i job line :
  nth_error newJobs i = Some job ->
  In line (Enhanced.consoleBlock i job) ->
  In (Enhanced.ConsoleLog line) (trace (Enhanced.printJobs newJobs st)).
Proof.
  intros Hnth Hl. rewrite printJobs_trace.
  apply in_map, in_or_app. right. apply in_or_app. left.
  apply in_concat. exists (Enhanced.consoleBlock i job). split; [|exact Hl].
  exact (mapi_from_nth Enhanced.consoleBlock newJobs 0 i job Hnth).
Qed.






(** * Further properties of the code *)

(** ** The shape of a digest *)

Lemma string_length_app (a b : string) :
  String.length (a +:+ b) = (String.length a + String.length b)%nat.
Proof.
  induction a as [|x a IH]; [reflexivity|].
  change (S (String.length (a +:+ b)) = S (String.length a + String.length b)).
  now rewrite IH.
Qed.

Lemma hex_digit_length z : 0 <= z < 16 -> String.length (hex_digit z) = 1%nat.
Proof.
  intros H.
  assert (In z [0; 1; 2; 3; 4; 5; 6; 7; 8; 9; 10; 11; 12; 13; 14; 15]) as C
    by (simpl; lia).
  simpl in C.
  repeat (destruct C as [<-|C]; [reflexivity|]).
  contradiction.
Qed.

Lemma hex_byte_length b : 0 <= b < 256 -> String.length (hex_byte b) = 2%nat.
Proof.
  intros H. unfold hex_byte. rewrite string_length_app, !hex_digit_length; [reflexivity| |].
  - apply Z.mod_pos_bound. lia.
  - split; [apply Z.div_pos; lia | apply Z.div_lt_upper_bound; lia].
Qed.

Lemma join_empty_length parts n :
  Forall (fun p => String.length p = n) parts ->
  String.length (join "" parts) = (n * length parts)%nat.
Proof.
  induction 1 as [|p parts Hp Hps IH]; [simpl; lia|].
  unfold join in *. destruct parts as [|q parts].
  - simpl String.concat. simpl length. lia.
  - change (String.concat "" (p :: q :: parts))
      with (p +:+ "" +:+ String.concat "" (q :: parts)).
    rewrite !string_length_app, IH, Hp. simpl. lia.
Qed.

Lemma compress_length h block : length h = 8%nat -> length (Sha256.compress h block) = 8%nat.
Proof.
  intros H. unfold Sha256.compress. rewrite length_map, length_combine, H. reflexivity.
Qed.

Lemma fold_compress_length blocks :
  forall h, length h = 8%nat -> length (fold_left Sha256.compress blocks h) = 8%nat.
Proof.
  induction blocks as [|b blocks IH]; intros h H; [exact H|].
  simpl. apply IH. now apply compress_length.
Qed.

Lemma flat_map_length_const {A B : Type} (f : A -> list B) n l :
  (forall x, length (f x) = n) -> length (flat_map f l) = (n * length l)%nat.
Proof.
  intros H. induction l as [|x l IH]; [simpl; lia|].
  simpl. rewrite length_app, H, IH. lia.
Qed.

Lemma digest_length msg : length (Sha256.digest msg) = 32%nat.
Proof.
  unfold Sha256.digest.
  rewrite (flat_map_length_const (Sha256.be_bytes 4) 4).
  - rewrite fold_compress_length; reflexivity.
  - intros x. unfold Sha256.be_bytes. now rewrite length_map, length_rev, length_seq.
Qed.

Lemma sha256_hex_length s : String.length (sha256_hex s) = 64%nat.
Proof.
  unfold sha256_hex. rewrite (join_empty_length _ 2).
  - now rewrite length_map, digest_length.
  - apply Forall_forall. intros p Hp. apply in_map_iff in Hp as [b [<- Hb]].
    apply hex_byte_length.
    pose proof (digest_range (bytes_of_string s)) as R.
    rewrite Forall_forall in R. now apply R.
Qed.

Lemma substring_length n s :
  String.length (String.substring 0 n s) = Nat.min n (String.length s).
Proof.
  revert s. induction n as [|n IH]; intros [|c s]; simpl; try reflexivity.
  now rewrite IH.
Qed.

(** X1: whatever the records, the digest is 64 characters, all of them
    digits or the letters a to f; [trim], applied when the digest is read
    back from jobs-hash.txt, returns it unchanged; and the prefix shown in
    logs has 12 characters. *)
Theorem digest_shape (localeCompare : string -> string -> Z) (jobs : list Job) :
  let digest := generateJobsHash localeCompare jobs in
  String.length digest = 64%nat
  /\ Forall (fun b => is_hex b = true) (bytes_of_string digest)
  /\ trim digest = digest
  /\ String.length (short_hash digest) = 12%nat.
Proof.
  intros digest. subst digest. unfold generateJobsHash.
  split; [apply sha256_hex_length|].
  split; [apply sha256_hex_is_hex|].
  split; [apply trim_sha256_hex|].
  unfold short_hash, substring_to. now rewrite substring_length, sha256_hex_length.
Qed.


(** ** A scrape that fails *)

(** X2: when [scrapeJobs()] rejects, every scraper ends its cycle in the
    [catch] and completes normally.  mailslurp-scraper.js keeps the digest
    and jobs files, sends nothing, and asks for a "check_failed" entry to be
    appended to the activity log; src/worker.js keeps the stored digest and
    records, resolves to the failure with the error's message, and asks for
    an error entry to be appended to its log; enhanced-scraper.js and the
    archived scraper keep the set of seen links and only print the error. *)
Theorem scrape_failure_aborts_cycle (error : string) :
  (forall lc tl config es out files,
      let r := Mailslurp.checkForJobs lc tl config es out (Rejected error) files in
      completion r = Normal tt
      /\ Mailslurp.hashFile (final_state r) = Mailslurp.hashFile files
      /\ Mailslurp.jobsFile (final_state r) = Mailslurp.jobsFile files
      /\ Mailslurp.emails (trace r) = []
      /\ Mailslurp.hashWrites (trace r) = []
      /\ Mailslurp.jobsWrites (trace r) = []
      /\ In (Mailslurp.WriteLog
               (Mailslurp.last_entries 100
                  (Mailslurp.logFile files
                     ++ [ {| Mailslurp.timestamp := Mailslurp.clock out;
                             Mailslurp.activity := Mailslurp.CheckFailed error |} ])%list))
            (trace r))
  /\ (forall lc tl env out kv,
        let r := Worker.checkForJobs lc tl env out (Rejected error) kv in
        completion r = Normal (Worker.Failed error)
        /\ Worker.jobs_hash (final_state r) = Worker.jobs_hash kv
        /\ Worker.latest_jobs (final_state r) = Worker.latest_jobs kv
        /\ Worker.emails (trace r) = []
        /\ Worker.hashPuts (trace r) = []
        /\ In (Worker.PutLogs
                 (Worker.last_entries 10
                    (Worker.activity_logs kv
                       ++ [Worker.ErrorLogged (Worker.clock out) error])%list))
              (trace r))
  /\ (forall config out previousJobs,
        let r := Enhanced.checkForNewJobs config out (Rejected error) previousJobs in
        completion r = Normal tt
        /\ final_state r = previousJobs
        /\ trace r
           = [Enhanced.ConsoleLog ("🔍 Checking for new jobs at "
                                   +:+ Enhanced.localTime out +:+ "...");
              Enhanced.ConsoleError ("💥 Error checking for new jobs: " +:+ error)])
  /\ (forall config sendMail previousJobs,
        let r := Archive.checkForNewJobs config sendMail (Rejected error) previousJobs in
        completion r = Normal tt
        /\ final_state r = previousJobs
        /\ trace r = [Archive.ConsoleError ("Error checking for new jobs: " +:+ error)]).
Proof.
  split; [|split; [|split]].
  - intros lc tl config es out files.
    unfold Mailslurp.checkForJobs, Mailslurp.logActivity. eff_unfold. simpl.
    destruct (Mailslurp.logWrite out); simpl; repeat split; auto.
  - intros lc tl env out kv.
    unfold Worker.checkForJobs, Worker.appendLog, Worker.put_activity_logs, Worker.putKey.
    eff_unfold. simpl.
    destruct (Worker.putLogs out); simpl; repeat split; auto.
  - intros config out previousJobs.
    unfold Enhanced.checkForNewJobs. eff_unfold. simpl. repeat split.
  - intros config sendMail previousJobs.
    unfold Archive.checkForNewJobs. eff_unfold. simpl. repeat split.
Qed.

(** ** No cycle throws *)

Lemma worker_cycle_completes lc tl env out scraped kv :
  exists result, completion (Worker.checkForJobs lc tl env out scraped kv) = Normal result.
Proof.
  unfold Worker.checkForJobs, Worker.notifyByEmail, Worker.newWorkerEmailService,
    Worker.sendJobAlert, Worker.put_jobs_hash, Worker.put_latest_jobs, Worker.appendLog,
    Worker.put_activity_logs, Worker.putKey.
  eff_unfold. simpl.
  destruct scraped as [jobs|e]; simpl.
  - destruct (length jobs =? 0)%nat; simpl; [eauto|].
    case_bool_decide; simpl; [eauto|].
    destruct (length (filterJobsByKeywords tl jobs (Some (Worker.keywords env))) =? 0)%nat;
      simpl.
    + destruct (Worker.putHash out), (Worker.putJobs out), (Worker.putLogs out);
        simpl; eauto.
    + destruct (Worker.emailOn env); simpl.
      * destruct (truthy (Worker.MAILSLURP_API_KEY env)); simpl.
        -- destruct (Worker.inbox out); simpl.
           ++ destruct (length (filterJobsByKeywords tl
                                  (filterJobsByKeywords tl jobs (Some (Worker.keywords env)))
                                  (Some (Worker.keywords env))) =? 0)%nat; simpl;
                destruct (Worker.sendEmail out), (Worker.putHash out), (Worker.putJobs out),
                  (Worker.putLogs out); simpl; eauto.
           ++ destruct (Worker.putHash out), (Worker.putJobs out), (Worker.putLogs out);
                simpl; eauto.
        -- destruct (Worker.putLogs out); simpl; eauto.
      * destruct (Worker.putHash out), (Worker.putJobs out), (Worker.putLogs out);
          simpl; eauto.
  - destruct (Worker.putLogs out); simpl; eauto.
Qed.

Lemma mailslurp_cycle_completes lc tl config es out scraped files :
  completion (Mailslurp.checkForJobs lc tl config es out scraped files) = Normal tt.
Proof.
  destruct scraped as [jobs|e].
  - destruct jobs as [|j0 rest] eqn:Ej.
    + apply MailslurpRuns.mailslurp_run_empty.
    + rewrite <- Ej. assert (Hne : jobs <> []) by (rewrite Ej; discriminate).
      clear Ej.
      destruct (decide (option_map trim (Mailslurp.hashFile files)
                        = Some (generateJobsHash lc jobs))) as [E|N].
      * apply MailslurpRuns.mailslurp_run_unchanged; assumption.
      * destruct (filterJobsByKeywords tl jobs (Some (Mailslurp.keywords config))) eqn:Hf.
        -- apply MailslurpRuns.mailslurp_run_no_match; assumption.
        -- apply MailslurpRuns.mailslurp_run_match; try assumption.
           rewrite Hf. discriminate.
  - unfold Mailslurp.checkForJobs, Mailslurp.logActivity. eff_unfold. simpl.
    destruct (Mailslurp.logWrite out); reflexivity.
Qed.

(** X3: a cycle never ends in a throw, whatever the scrape produces and
    however the files, the store, the mail service and the hooks answer:
    [checkForJobs] and [checkForNewJobs] always complete normally, the
    worker's with a result object. *)
Theorem cycles_never_throw :
  (forall lc tl config es out scraped files,
      completion (Mailslurp.checkForJobs lc tl config es out scraped files) = Normal tt)
  /\ (forall lc tl env out scraped kv,
        exists result,
          completion (Worker.checkForJobs lc tl env out scraped kv) = Normal result)
  /\ (forall config out scraped previousJobs,
        completion (Enhanced.checkForNewJobs config out scraped previousJobs) = Normal tt)
  /\ (forall config sendMail scraped previousJobs,
        completion (Archive.checkForNewJobs config sendMail scraped previousJobs)
        = Normal tt).
Proof.
  split; [|split; [|split]].
  - apply mailslurp_cycle_completes.
  - apply worker_cycle_completes.
  - intros config out [current|e] previousJobs.
    + apply enhanced_check_run.
    + unfold Enhanced.checkForNewJobs. eff_unfold. reflexivity.
  - intros config sendMail [current|e] previousJobs.
    + apply archive_check_run.
    + unfold Archive.checkForNewJobs. eff_unfold. reflexivity.
Qed.


(** ** Running a cycle twice *)

Lemma filter_nil_iff {A : Type} (f : A -> bool) l :
  List.filter f l = [] <-> forall x, In x l -> f x = false.
Proof.
  induction l as [|y l IH]; simpl.
  - split; [intros _ x [] | reflexivity].
  - destruct (f y) eqn:E.
    + split; [discriminate|]. intros H. specialize (H y (or_introl eq_refl)). congruence.
    + rewrite IH. split.
      * intros H x [<-|Hx]; [exact E | now apply H].
      * intros H x Hx. apply H. now right.
Qed.

Lemma nothing_new_after (previous : gset string) current :
  let seen := if (0 <? length (List.filter (Enhanced.unseen previous) current))%nat
              then list_to_set (map link current) else previous in
  List.filter (Enhanced.unseen seen) current = [].
Proof.
  intros seen. apply filter_nil_iff. intros job Hjob.
  unfold Enhanced.unseen. apply negb_false_iff, bool_decide_eq_true.
  subst seen. destruct (List.filter (Enhanced.unseen previous) current) eqn:Hf; simpl.
  - rewrite filter_nil_iff in Hf. specialize (Hf job Hjob).
    unfold Enhanced.unseen in Hf. now apply negb_false_iff, bool_decide_eq_true in Hf.
  - apply elem_of_list_to_set, list_elem_of_In, in_map, Hjob.
Qed.

(** X4: in the identity-set scrapers, a cycle that scrapes the records the
    previous cycle scraped lets nothing leave the process and leaves the
    set of seen links as the previous cycle left it, whatever the hooks
    answer either time. *)
Theorem identity_set_second_cycle_is_quiet
        (current : list Job) (previous : gset string) :
  (forall config out out',
      let first := Enhanced.checkForNewJobs config out (Fulfilled current) previous in
      let second :=
        Enhanced.checkForNewJobs config out' (Fulfilled current) (final_state first) in
      Enhanced.outbound (trace second) = []
      /\ final_state second = final_state first)
  /\ (forall config sendMail sendMail',
        let first := Archive.checkForNewJobs config sendMail (Fulfilled current) previous in
        let second :=
          Archive.checkForNewJobs config sendMail' (Fulfilled current) (final_state first) in
        Archive.mails (trace second) = []
        /\ final_state second = final_state first).
Proof.
  pose proof (nothing_new_after previous current) as Hq. simpl in Hq.
  split.
  - intros config out out' first second.
    destruct (enhanced_check_run config out current previous) as (_ & Hs & _).
    fold first in Hs.
    destruct (enhanced_check_run config out' current (final_state first)) as (_ & Hs2 & Ho2).
    fold second in Hs2, Ho2.
    assert (Hq' : List.filter (Enhanced.unseen (final_state first)) current = [])
      by (rewrite Hs; exact Hq).
    rewrite Hq' in Hs2, Ho2. simpl in Hs2, Ho2.
    split; [exact Ho2 | exact Hs2].
  - intros config sendMail sendMail' first second.
    destruct (archive_check_run config sendMail current previous) as (_ & Hs & _).
    fold first in Hs.
    destruct (archive_check_run config sendMail' current (final_state first))
      as (_ & Hs2 & Hm2).
    fold second in Hs2, Hm2.
    change (fun job => negb (bool_decide (link job ∈ ?s))) with (Enhanced.unseen s)
      in Hs, Hs2, Hm2.
    assert (Hq' : List.filter (Enhanced.unseen (final_state first)) current = [])
      by (rewrite Hs; exact Hq).
    rewrite Hq' in Hs2, Hm2. simpl in Hs2, Hm2.
    split; [exact Hm2 | exact Hs2].
Qed.

(** X5: a link seen before that the current scrape no longer lists stays in
    the set of seen links when the scrape brings no new link, and is
    dropped from it when the scrape brings one: the set is replaced only
    in a cycle that notifies. *)
Theorem seen_links_forgotten_only_with_news
        (config : Enhanced.Config) (out : Enhanced.Outside)
        (current : list Job) (previous : gset string) (l : string) :
  l ∈ previous ->
  ~ In l (map link current) ->
  let r := Enhanced.checkForNewJobs config out (Fulfilled current) previous in
  l ∈ final_state r <-> List.filter (Enhanced.unseen previous) current = [].
Proof.
  intros Hin Hgone r.
  destruct (enhanced_check_run config out current previous) as (_ & Hs & _).
  fold r in Hs. rewrite Hs.
  destruct (List.filter (Enhanced.unseen previous) current) eqn:Hf; simpl.
  - tauto.
  - split; [|discriminate].
    intros H. apply elem_of_list_to_set, list_elem_of_In in H. contradiction.
Qed.

Lemma seen_links_forgotten_only_with_news_witness :
  ("D" ∈ final_state (Enhanced.checkForNewJobs consoleOnly allDelivered
                        (Fulfilled [posting "A"; posting "B"]) {[ "A"; "B"; "D" ]})
   <-> List.filter (Enhanced.unseen {[ "A"; "B"; "D" ]}) [posting "A"; posting "B"] = [])
  /\ ("D" ∈ final_state (Enhanced.checkForNewJobs consoleOnly allDelivered
                           (Fulfilled [posting "A"; posting "C"]) {[ "A"; "B"; "D" ]})
      <-> List.filter (Enhanced.unseen {[ "A"; "B"; "D" ]}) [posting "A"; posting "C"] = []).
Proof.
  split.
  - apply (seen_links_forgotten_only_with_news consoleOnly allDelivered
             [posting "A"; posting "B"] {[ "A"; "B"; "D" ]} "D").
    + set_solver.
    + vm_compute. intuition discriminate.
  - apply (seen_links_forgotten_only_with_news consoleOnly allDelivered
             [posting "A"; posting "C"] {[ "A"; "B"; "D" ]} "D").
    + set_solver.
    + vm_compute. intuition discriminate.
Defined.


Lemma mailslurp_digest_after lc tl config es out files jobs :
  jobs <> [] ->
  Mailslurp.hashWrite out = Fulfilled tt ->
  option_map trim
    (Mailslurp.hashFile
       (final_state (Mailslurp.checkForJobs lc tl config es out (Fulfilled jobs) files)))
  = Some (generateJobsHash lc jobs).
Proof.
  intros Hne Hw.
  destruct (decide (option_map trim (Mailslurp.hashFile files)
                    = Some (generateJobsHash lc jobs))) as [E|N].
  - destruct (MailslurpRuns.mailslurp_run_unchanged lc tl config es out files jobs Hne E)
      as (Hhf & _).
    now rewrite Hhf.
  - destruct (filterJobsByKeywords tl jobs (Some (Mailslurp.keywords config))) eqn:Hf.
    + destruct (MailslurpRuns.mailslurp_run_no_match lc tl config es out files jobs
                  Hne N Hf) as (_ & _ & _ & Hhf & _).
      rewrite Hhf, Hw. simpl. now rewrite trim_generateJobsHash.
    + assert (Hsome : filterJobsByKeywords tl jobs (Some (Mailslurp.keywords config)) <> [])
        by (rewrite Hf; discriminate).
      destruct (MailslurpRuns.mailslurp_run_match lc tl config es out files jobs
                  Hne N Hsome) as (_ & _ & _ & _ & Hhf & _).
      rewrite Hhf, Hw. simpl. now rewrite trim_generateJobsHash.
Qed.

Lemma worker_digest_after lc tl env out kv jobs :
  jobs <> [] ->
  Worker.putHash out = Fulfilled tt ->
  Worker.serviceBuilds env = true ->
  Worker.jobs_hash
    (final_state (Worker.checkForJobs lc tl env out (Fulfilled jobs) kv))
  = Some (generateJobsHash lc jobs).
Proof.
  intros Hne Hw Hb.
  destruct (decide (Worker.jobs_hash kv = Some (generateJobsHash lc jobs))) as [E|N].
  - destruct (WorkerRuns.worker_run_unchanged lc tl env out kv jobs Hne E) as (Hs & _).
    now rewrite Hs.
  - destruct (filterJobsByKeywords tl jobs (Some (Worker.keywords env))) eqn:Hf.
    + destruct (WorkerRuns.worker_run_no_match lc tl env out kv jobs Hne N Hf)
        as (_ & _ & _ & Hhf & _).
      now rewrite Hhf, Hw.
    + assert (Hsome : filterJobsByKeywords tl jobs (Some (Worker.keywords env)) <> [])
        by (rewrite Hf; discriminate).
      destruct (WorkerRuns.worker_run_match lc tl env out kv jobs Hne N Hsome Hb)
        as (_ & _ & _ & Hhf & _).
      now rewrite Hhf, Hw.
Qed.

(** X6: in the content-hash scrapers, after a cycle on a non-empty scrape
    in which the store accepted the digest, a cycle on the same records,
    whatever their timestamps, is a cycle without change: it sends no
    e-mail, asks for no digest or records to be written, and leaves the
    digest in place.  This holds whether or not the first cycle found a
    change or a keyword match; in src/worker.js the e-mail service must be
    one that can be built. *)
Theorem content_hash_second_cycle_is_quiet
        (lc : string -> string -> Z) (tl : string -> string) (jobs jobs' : list Job) :
  jobs <> [] ->
  map hashed jobs' = map hashed jobs ->
  (forall config es out config' es' out' files,
      Mailslurp.hashWrite out = Fulfilled tt ->
      let first := Mailslurp.checkForJobs lc tl config es out (Fulfilled jobs) files in
      let second := Mailslurp.checkForJobs lc tl config' es' out' (Fulfilled jobs')
                                           (final_state first) in
      Mailslurp.emails (trace second) = []
      /\ Mailslurp.hashWrites (trace second) = []
      /\ Mailslurp.jobsWrites (trace second) = []
      /\ Mailslurp.hashFile (final_state second) = Mailslurp.hashFile (final_state first))
  /\ (forall env out env' out' kv,
        Worker.putHash out = Fulfilled tt ->
        Worker.serviceBuilds env = true ->
        let first := Worker.checkForJobs lc tl env out (Fulfilled jobs) kv in
        let second := Worker.checkForJobs lc tl env' out' (Fulfilled jobs')
                                          (final_state first) in
        completion second = Normal Worker.NoChanges
        /\ Worker.emails (trace second) = []
        /\ Worker.hashPuts (trace second) = []
        /\ Worker.jobsPuts (trace second) = []
        /\ final_state second = final_state first).
Proof.
  intros Hne Hsame.
  pose proof (hashed_nonempty jobs jobs' Hne Hsame) as Hne'.
  pose proof (generateJobsHash_hashed lc jobs jobs' Hsame) as Hd.
  split.
  - intros config es out config' es' out' files Hw first second.
    pose proof (mailslurp_digest_after lc tl config es out files jobs Hne Hw) as Hstored.
    fold first in Hstored. rewrite <- Hd in Hstored.
    destruct (MailslurpRuns.mailslurp_run_unchanged lc tl config' es' out'
                (final_state first) jobs' Hne' Hstored)
      as (Hhf & _ & He & Hh & Hj & _).
    split; [exact He|]. split; [exact Hh|]. split; [exact Hj | exact Hhf].
  - intros env out env' out' kv Hw Hb first second.
    pose proof (worker_digest_after lc tl env out kv jobs Hne Hw Hb) as Hstored.
    fold first in Hstored. rewrite <- Hd in Hstored.
    destruct (WorkerRuns.worker_run_unchanged lc tl env' out' (final_state first) jobs'
                Hne' Hstored)
      as (Hs & He & Hh & Hj & Hc).
    split; [exact Hc|]. split; [exact He|]. split; [exact Hh|].
    split; [exact Hj | exact Hs].
Qed.

Lemma content_hash_second_cycle_is_quiet_witness :
  Mailslurp.emails
    (trace (Mailslurp.checkForJobs codeUnitCompare asciiLower backendOnly true calmDay
              (Fulfilled [designer])
              (final_state
                 (Mailslurp.checkForJobs codeUnitCompare asciiLower backendOnly true calmDay
                    (Fulfilled [designer]) noFiles)))) = []
  /\ completion
       (Worker.checkForJobs codeUnitCompare asciiLower workerWithKey calmWorkerDay
          (Fulfilled [designer])
          (final_state
             (Worker.checkForJobs codeUnitCompare asciiLower workerWithKey calmWorkerDay
                (Fulfilled [designer]) emptyKV)))
     = Normal Worker.NoChanges.
Proof.
  pose proof (content_hash_second_cycle_is_quiet codeUnitCompare asciiLower
                [designer] [designer] ltac:(discriminate) eq_refl) as [Hm Hw].
  split.
  - exact (proj1 (Hm backendOnly true calmDay backendOnly true calmDay noFiles eq_refl)).
  - exact (proj1 (Hw workerWithKey calmWorkerDay workerWithKey calmWorkerDay emptyKV
                     eq_refl eq_refl)).
Defined.


(** ** The activity logs *)

Lemma skipn_suffix {A : Type} k (l : list A) : exists dropped, l = (dropped ++ skipn k l)%list.
Proof. exists (firstn k l). symmetry. apply firstn_skipn. Qed.

Lemma skipn_keeps_last {A : Type} k (l : list A) (x : A) :
  (k <= length l)%nat -> skipn k (l ++ [x]) = (skipn k l ++ [x])%list.
Proof. intros H. rewrite skipn_app. replace (k - length l)%nat with 0%nat by lia. reflexivity. Qed.

Lemma length_snoc {A : Type} (l : list A) (x : A) : length (l ++ [x]) = S (length l).
Proof. rewrite length_app. simpl. lia. Qed.

Lemma mailslurp_last_entries_spec logs entry :
  let kept := Mailslurp.last_entries 100 (logs ++ [entry])%list in
  length kept = Nat.min 100 (S (length logs))
  /\ (exists older, kept = (older ++ [entry])%list)
  /\ (exists dropped, (logs ++ [entry])%list = (dropped ++ kept)%list).
Proof.
  intros kept. subst kept. unfold Mailslurp.last_entries.
  rewrite length_snoc.
  destruct (100 <? S (length logs))%nat eqn:E.
  - apply Nat.ltb_lt in E. split; [rewrite length_skipn, length_snoc; lia|].
    split; [|apply skipn_suffix].
    exists (skipn (S (length logs) - 100) logs). apply skipn_keeps_last. lia.
  - apply Nat.ltb_ge in E. split; [rewrite length_snoc; lia|].
    split; [now exists logs | now exists []].
Qed.

Lemma worker_last_entries_spec logs entry :
  let kept := Worker.last_entries 10 (logs ++ [entry])%list in
  length kept = Nat.min 10 (S (length logs))
  /\ (exists older, kept = (older ++ [entry])%list)
  /\ (exists dropped, (logs ++ [entry])%list = (dropped ++ kept)%list).
Proof.
  intros kept. subst kept. unfold Worker.last_entries.
  rewrite length_snoc.
  split; [rewrite length_skipn, length_snoc; lia|].
  split; [|apply skipn_suffix].
  exists (skipn (S (length logs) - 10) logs). apply skipn_keeps_last. lia.
Qed.

(** X7: [logActivity] never throws and never touches the digest or the
    jobs file.  When scraper-log.json can be written, the log afterwards
    ends with the new entry, holds at most 100 entries, and is the tail of
    the old log with the entry added; when it cannot, the log is as it
    was.  The worker's log is kept the same way, to 10 entries. *)
Theorem activity_logs_are_bounded :
  (forall out activity files,
      let entry := {| Mailslurp.timestamp := Mailslurp.clock out;
                      Mailslurp.activity := activity |} in
      let r := Mailslurp.logActivity out activity files in
      completion r = Normal tt
      /\ Mailslurp.hashFile (final_state r) = Mailslurp.hashFile files
      /\ Mailslurp.jobsFile (final_state r) = Mailslurp.jobsFile files
      /\ match Mailslurp.logWrite out with
         | Fulfilled _ =>
             (length (Mailslurp.logFile (final_state r)) <= 100)%nat
             /\ (exists older, Mailslurp.logFile (final_state r) = (older ++ [entry])%list)
             /\ (exists dropped,
                    (Mailslurp.logFile files ++ [entry])%list
                    = (dropped ++ Mailslurp.logFile (final_state r))%list)
             /\ ((length (Mailslurp.logFile files) < 100)%nat ->
                 Mailslurp.logFile (final_state r)
                 = (Mailslurp.logFile files ++ [entry])%list)
         | Rejected _ => Mailslurp.logFile (final_state r) = Mailslurp.logFile files
         end)
  /\ (forall out entry kv,
        let r := Worker.appendLog out entry kv in
        Worker.jobs_hash (final_state r) = Worker.jobs_hash kv
        /\ Worker.latest_jobs (final_state r) = Worker.latest_jobs kv
        /\ match Worker.putLogs out with
           | Fulfilled _ =>
               completion r = Normal tt
               /\ (length (Worker.activity_logs (final_state r)) <= 10)%nat
               /\ (exists older,
                      Worker.activity_logs (final_state r) = (older ++ [entry])%list)
               /\ (exists dropped,
                      (Worker.activity_logs kv ++ [entry])%list
                      = (dropped ++ Worker.activity_logs (final_state r))%list)
           | Rejected reason =>
               completion r = Throw reason
               /\ Worker.activity_logs (final_state r) = Worker.activity_logs kv
           end).
Proof.
  split.
  - intros out activity files entry r. subst r.
    pose proof (mailslurp_last_entries_spec (Mailslurp.logFile files) entry)
      as (Hlen & Hlast & Htail).
    unfold Mailslurp.logActivity. eff_unfold. simpl.
    destruct (Mailslurp.logWrite out); simpl; repeat split; auto.
    + fold entry. rewrite Hlen. lia.
    + intros Hshort. unfold Mailslurp.last_entries.
      rewrite length_snoc.
      destruct (100 <? S (length (Mailslurp.logFile files)))%nat eqn:E; [|reflexivity].
      apply Nat.ltb_lt in E. lia.
  - intros out entry kv r. subst r.
    pose proof (worker_last_entries_spec (Worker.activity_logs kv) entry)
      as (Hlen & Hlast & Htail).
    unfold Worker.appendLog, Worker.put_activity_logs, Worker.putKey. eff_unfold. simpl.
    destruct (Worker.putLogs out); simpl; repeat split; auto.
    rewrite Hlen. lia.
Qed.

Lemma activity_logs_are_bounded_witness :
  Mailslurp.logFile
    (final_state (Mailslurp.logActivity calmDay (Mailslurp.CheckFailed "timeout") noFiles))
  = [ {| Mailslurp.timestamp := Mailslurp.clock calmDay;
         Mailslurp.activity := Mailslurp.CheckFailed "timeout" |} ].
Proof.
  pose proof (proj1 activity_logs_are_bounded calmDay (Mailslurp.CheckFailed "timeout")
                    noFiles) as (_ & _ & _ & H).
  simpl in H. destruct H as (_ & _ & _ & H). apply H. simpl. lia.
Defined.

(** ** Keywords from the environment *)

Lemma split_commas_nonempty cur s : split_commas cur s <> [].
Proof.
  revert cur. induction s as [|c s IH]; intros cur; simpl; [discriminate|].
  destruct (Ascii.eqb c ","%char); [discriminate | apply IH].
Qed.

Lemma includes_empty s : includes s "" = true.
Proof. apply includes_spec. now exists "", s. Qed.

Lemma filter_all {A : Type} (f : A -> bool) l :
  (forall x, In x l -> f x = true) -> List.filter f l = l.
Proof.
  induction l as [|x l IH]; intros H; simpl; [reflexivity|].
  rewrite (H x (or_introl eq_refl)). f_equal. apply IH. intros y Hy. apply H. now right.
Qed.

Lemma keywordsFromEnv_nonempty value defaults :
  defaults <> [] -> keywordsFromEnv value defaults <> [].
Proof.
  destruct value as [s|]; intros Hd; unfold keywordsFromEnv; [|exact Hd].
  destruct (truthy (Some s)); [|exact Hd].
  intros H. apply map_eq_nil in H. now apply split_commas_nonempty in H.
Qed.

Lemma worker_keywords_present env : noKeywords (Some (Worker.keywords env)) = false.
Proof.
  unfold noKeywords, Worker.keywords.
  pose proof (keywordsFromEnv_nonempty (Worker.JOB_KEYWORDS env) Worker.DEFAULT_KEYWORDS
                ltac:(discriminate)) as Hne.
  destruct (keywordsFromEnv _ _); [congruence | reflexivity].
Qed.

(** X8: the keyword list a scraper reads from JOB_KEYWORDS is never empty:
    an unset or empty variable gives the defaults, and any other value
    gives at least one keyword.  So in a worker cycle the keyword filter is
    always applied; the branch of the filter that lets every record
    through for want of keywords is not reached from the environment. *)
Theorem keywords_from_env_never_empty :
  (forall defaults, keywordsFromEnv None defaults = defaults)
  /\ (forall defaults, keywordsFromEnv (Some "") defaults = defaults)
  /\ (forall value defaults, defaults <> [] -> keywordsFromEnv value defaults <> [])
  /\ (forall env, noKeywords (Some (Worker.keywords env)) = false)
  /\ (forall tl env jobs,
        filterJobsByKeywords tl jobs (Some (Worker.keywords env))
        = List.filter (matchesAny tl (Worker.keywords env)) jobs).
Proof.
  split; [reflexivity|]. split; [reflexivity|].
  split; [exact keywordsFromEnv_nonempty|]. split; [exact worker_keywords_present|].
  intros tl env jobs. unfold filterJobsByKeywords. now rewrite worker_keywords_present.
Qed.

Lemma keywords_from_env_never_empty_witness :
  keywordsFromEnv (Some ",") ["Software"; "Backend"] <> [].
Proof.
  apply (proj1 (proj2 (proj2 keywords_from_env_never_empty))). discriminate.
Defined.

(** X9: a keyword that is empty once lower-cased selects every record.
    JOB_KEYWORDS with a trailing comma yields such a keyword, since the
    pieces of the split are trimmed but not dropped when empty. *)
Theorem empty_keyword_selects_everything
        (toLowerCase : string -> string) (jobs : list Job) (keywords : list string)
        (keyword : string) :
  In keyword keywords ->
  toLowerCase keyword = "" ->
  filterJobsByKeywords toLowerCase jobs (Some keywords) = jobs
  /\ matchingJobs (shouldSendEmail toLowerCase jobs (Some keywords)) = jobs.
Proof.
  intros Hin Hlow.
  assert (H : filterJobsByKeywords toLowerCase jobs (Some keywords) = jobs).
  { unfold filterJobsByKeywords. destruct (noKeywords (Some keywords)); [reflexivity|].
    apply filter_all. intros job _. unfold matchesAny. apply existsb_exists.
    exists keyword. split; [exact Hin|]. rewrite Hlow. apply includes_empty. }
  split; [exact H|]. now rewrite shouldSendEmail_matching.
Qed.

Lemma empty_keyword_selects_everything_witness :
  keywordsFromEnv (Some "Backend,") Worker.DEFAULT_KEYWORDS = ["Backend"; ""]
  /\ filterJobsByKeywords asciiLower [designer; dataAnalyst]
                          (Some (keywordsFromEnv (Some "Backend,") Worker.DEFAULT_KEYWORDS))
     = [designer; dataAnalyst].
Proof.
  split; [vm_compute; reflexivity|].
  refine (proj1 (empty_keyword_selects_everything asciiLower [designer; dataAnalyst]
                   (keywordsFromEnv (Some "Backend,") Worker.DEFAULT_KEYWORDS) "" _ _)).
  - vm_compute. right. left. reflexivity.
  - reflexivity.
Defined.


(** ** What an alert holds *)

Lemma getMatchedKeywords_spec tl job keywords keyword :
  In keyword (getMatchedKeywords tl job keywords)
  <-> In keyword keywords /\ includes (searchText tl job) (tl keyword) = true.
Proof. unfold getMatchedKeywords. now rewrite filter_In. Qed.

Lemma getMatchedKeywords_nonempty tl job keywords :
  getMatchedKeywords tl job keywords <> [] <-> matchesAny tl keywords job = true.
Proof.
  unfold matchesAny. rewrite existsb_exists. split.
  - intros H. destruct (getMatchedKeywords tl job keywords) as [|k ks] eqn:E; [congruence|].
    exists k. apply getMatchedKeywords_spec. rewrite E. now left.
  - intros [k Hk] E. apply getMatchedKeywords_spec in Hk. rewrite E in Hk. contradiction.
Qed.

Lemma worker_run_match_emails lc tl env out kv jobs :
  jobs <> [] ->
  Worker.jobs_hash kv <> Some (generateJobsHash lc jobs) ->
  filterJobsByKeywords tl jobs (Some (Worker.keywords env)) <> [] ->
  Worker.emails (trace (Worker.checkForJobs lc tl env out (Fulfilled jobs) kv))
  = if Worker.emailOn env && truthy (Worker.MAILSLURP_API_KEY env) then
      match Worker.inbox out with
      | Fulfilled _ =>
          [ {| alert_to := Worker.EMAIL_RECEIVER env;
               alert_keywords := Worker.keywords env;
               alert_cards :=
                 map (fun job => (job, getMatchedKeywords tl job (Worker.keywords env)))
                     (filterJobsByKeywords tl jobs (Some (Worker.keywords env))) |} ]
      | Rejected _ => []
      end
    else [].
Proof.
  intros Hne Hprev Hsome.
  pose proof (filterJobsByKeywords_idem tl jobs (Some (Worker.keywords env))) as Hi.
  set (matching := filterJobsByKeywords tl jobs (Some (Worker.keywords env))) in *.
  assert (Hmlen : (length matching =? 0)%nat = false)
    by (destruct matching; [congruence | reflexivity]).
  destruct jobs as [|j0 jobs0]; [congruence|].
  remember (j0 :: jobs0) as jobs eqn:Ejobs.
  assert (Hlen : (length jobs =? 0)%nat = false) by (subst jobs; reflexivity).
  unfold Worker.checkForJobs, Worker.notifyByEmail, Worker.newWorkerEmailService,
    Worker.sendJobAlert, Worker.put_jobs_hash, Worker.put_latest_jobs, Worker.appendLog,
    Worker.put_activity_logs, Worker.putKey.
  eff_unfold. simpl. fold matching. rewrite Hlen, Hmlen.
  case_bool_decide; [congruence|]. simpl.
  destruct (Worker.emailOn env); simpl.
  - destruct (truthy (Worker.MAILSLURP_API_KEY env)); simpl.
    + rewrite Hi, Hmlen.
      destruct (Worker.inbox out), (Worker.sendEmail out), (Worker.putHash out),
        (Worker.putJobs out), (Worker.putLogs out); reflexivity.
    + destruct (Worker.putLogs out); reflexivity.
  - destruct (Worker.putHash out), (Worker.putJobs out), (Worker.putLogs out); reflexivity.
Qed.

Lemma alert_cards_agree tl keywords jobs receiver :
  keywords <> [] ->
  cards_agree tl keywords (filterJobsByKeywords tl jobs (Some keywords))
    {| alert_to := receiver;
       alert_keywords := keywords;
       alert_cards := map (fun job => (job, getMatchedKeywords tl job keywords))
                          (filterJobsByKeywords tl jobs (Some keywords)) |}.
Proof.
  intros Hk. split; [reflexivity|]. split.
  - simpl. rewrite map_map. apply map_id.
  - simpl. intros job matched Hin.
    apply in_map_iff in Hin as [job' [Heq Hjob]]. inversion Heq; subst. split.
    + apply getMatchedKeywords_nonempty.
      unfold filterJobsByKeywords in Hjob.
      assert (Hno : noKeywords (Some keywords) = false)
        by (destruct keywords; [congruence | reflexivity]).
      rewrite Hno in Hjob. now apply filter_In in Hjob.
    + intros keyword. apply getMatchedKeywords_spec.
Qed.

(** X10: when a cycle of a content-hash scraper finds a change and
    matching records, and its mail service has an inbox, it asks for
    exactly one e-mail; the e-mail has one card per matching record, in
    the order scraped, and each card lists the configured keywords found
    in that record's title and department, at least one.  Without a
    service, or with an inbox that cannot be initialised, no e-mail is
    asked for. *)
Theorem alert_lists_the_matching_records
        (lc : string -> string -> Z) (tl : string -> string) (jobs : list Job) :
  jobs <> [] ->
  (forall config es out files,
      Mailslurp.keywords config <> [] ->
      option_map trim (Mailslurp.hashFile files) <> Some (generateJobsHash lc jobs) ->
      filterJobsByKeywords tl jobs (Some (Mailslurp.keywords config)) <> [] ->
      let sent :=
        Mailslurp.emails
          (trace (Mailslurp.checkForJobs lc tl config es out (Fulfilled jobs) files)) in
      match es, Mailslurp.inbox out with
      | true, Fulfilled _ =>
          exists alert,
            sent = [alert]
            /\ alert_to alert = Mailslurp.email_receiver config
            /\ cards_agree tl (Mailslurp.keywords config)
                 (filterJobsByKeywords tl jobs (Some (Mailslurp.keywords config))) alert
      | _, _ => sent = []
      end)
  /\ (forall env out kv,
        Worker.jobs_hash kv <> Some (generateJobsHash lc jobs) ->
        filterJobsByKeywords tl jobs (Some (Worker.keywords env)) <> [] ->
        let sent :=
          Worker.emails (trace (Worker.checkForJobs lc tl env out (Fulfilled jobs) kv)) in
        match Worker.emailOn env && truthy (Worker.MAILSLURP_API_KEY env),
              Worker.inbox out with
        | true, Fulfilled _ =>
            exists alert,
              sent = [alert]
              /\ alert_to alert = Worker.EMAIL_RECEIVER env
              /\ cards_agree tl (Worker.keywords env)
                   (filterJobsByKeywords tl jobs (Some (Worker.keywords env))) alert
        | _, _ => sent = []
        end).
Proof.
  intros Hne. split.
  - intros config es out files Hk Hprev Hsome sent. subst sent.
    destruct (MailslurpRuns.mailslurp_run_match lc tl config es out files jobs
                Hne Hprev Hsome) as (He & _).
    rewrite He. destruct es; [|reflexivity].
    destruct (Mailslurp.inbox out); [|reflexivity].
    eexists. split; [reflexivity|]. split; [reflexivity|].
    now apply alert_cards_agree.
  - intros env out kv Hprev Hsome sent. subst sent.
    rewrite (worker_run_match_emails lc tl env out kv jobs Hne Hprev Hsome).
    destruct (Worker.emailOn env && truthy (Worker.MAILSLURP_API_KEY env)); [|reflexivity].
    destruct (Worker.inbox out); [|reflexivity].
    eexists. split; [reflexivity|]. split; [reflexivity|].
    apply alert_cards_agree.
    pose proof (worker_keywords_present env) as Hk.
    intros E. rewrite E in Hk. discriminate.
Qed.

Lemma alert_lists_the_matching_records_witness :
  exists alert,
    Mailslurp.emails
      (trace (Mailslurp.checkForJobs codeUnitCompare asciiLower backendOnly true calmDay
                                     (Fulfilled [backendEngineer; designer]) noFiles))
    = [alert]
    /\ alert_to alert = Some "me@example.com"
    /\ cards_agree asciiLower ["Backend"]
         (filterJobsByKeywords asciiLower [backendEngineer; designer] (Some ["Backend"]))
         alert.
Proof.
  exact (proj1 (alert_lists_the_matching_records codeUnitCompare asciiLower
                  [backendEngineer; designer] ltac:(discriminate))
               backendOnly true calmDay noFiles
               ltac:(discriminate) ltac:(simpl; discriminate)
               ltac:(vm_compute; discriminate)).
Defined.


(** ** The seen links across restarts *)

Lemma enhanced_check_completes config out scraped (previous : gset string) :
  completion (Enhanced.checkForNewJobs config out scraped previous) = Normal tt.
Proof.
  destruct scraped as [current|e].
  - apply enhanced_check_run.
  - unfold Enhanced.checkForNewJobs. eff_unfold. reflexivity.
Qed.

Lemma savePreviousJobs_run fileWrite p :
  Seen.savePreviousJobs fileWrite p
  = match fileWrite with
    | Fulfilled _ =>
        ({| Seen.previousJobs := Seen.previousJobs p;
            Seen.savedJobs := Some (elements (Seen.previousJobs p)) |},
         [Seen.WriteSeen (elements (Seen.previousJobs p))], Normal tt)
    | Rejected error =>
        (p, [Seen.WriteSeen (elements (Seen.previousJobs p));
             Seen.ConsoleError ("Error saving previous jobs: " +:+ error)], Normal tt)
    end.
Proof. unfold Seen.savePreviousJobs. eff_unfold. destruct fileWrite; reflexivity. Qed.

Lemma loadPreviousJobs_state p :
  completion (Seen.loadPreviousJobs p) = Normal tt
  /\ Seen.savedJobs (final_state (Seen.loadPreviousJobs p)) = Seen.savedJobs p
  /\ Seen.previousJobs (final_state (Seen.loadPreviousJobs p))
     = match Seen.savedJobs p with
       | Some jobs => list_to_set jobs
       | None => Seen.previousJobs p
       end
  /\ Seen.outbound (trace (Seen.loadPreviousJobs p)) = [].
Proof.
  unfold Seen.loadPreviousJobs. eff_unfold.
  destruct p as [s [jobs|]]; simpl; repeat split.
Qed.

Lemma seen_outbound_app t1 t2 :
  Seen.outbound (t1 ++ t2) = (Seen.outbound t1 ++ Seen.outbound t2)%list.
Proof.
  unfold Seen.outbound. now rewrite flat_map_app, outbound_app.
Qed.

Lemma seen_outbound_cycle t :
  Seen.outbound (map Seen.FromCycle t) = Enhanced.outbound t.
Proof.
  unfold Seen.outbound. f_equal.
  induction t as [|e t IH]; simpl; [reflexivity | now rewrite IH].
Qed.

Lemma scheduledTask_run config out fileWrite scraped p :
  let cycle := Enhanced.checkForNewJobs config out scraped (Seen.previousJobs p) in
  let task := Seen.scheduledTask config out fileWrite scraped p in
  completion task = Normal tt
  /\ Seen.previousJobs (final_state task) = final_state cycle
  /\ Seen.savedJobs (final_state task)
     = match fileWrite with
       | Fulfilled _ => Some (elements (final_state cycle))
       | Rejected _ => Seen.savedJobs p
       end
  /\ Seen.outbound (trace task) = Enhanced.outbound (trace cycle).
Proof.
  intros cycle task. subst task.
  pose proof (enhanced_check_completes config out scraped (Seen.previousJobs p)) as Hc.
  fold cycle in Hc.
  unfold Seen.scheduledTask, bind, Seen.onSet. fold cycle.
  destruct cycle as [[s t] r]. unfold completion in Hc. simpl in Hc. subst r.
  rewrite savePreviousJobs_run.
  destruct fileWrite as [[]|error]; unfold final_state, trace, completion; simpl;
    (split; [reflexivity|]; split; [reflexivity|]; split; [reflexivity|]);
    rewrite seen_outbound_app, seen_outbound_cycle; unfold Seen.outbound; simpl;
    now rewrite app_nil_r.
Qed.

Lemma start_run config out fileWrite scraped p :
  let loaded := match Seen.savedJobs p with
                | Some jobs => list_to_set jobs
                | None => Seen.previousJobs p
                end in
  let cycle := Enhanced.checkForNewJobs config out scraped loaded in
  let started := Seen.start config out fileWrite scraped p in
  completion started = Normal tt
  /\ Seen.previousJobs (final_state started) = final_state cycle
  /\ Seen.savedJobs (final_state started)
     = match fileWrite with
       | Fulfilled _ => Some (elements (final_state cycle))
       | Rejected _ => Seen.savedJobs p
       end
  /\ Seen.outbound (trace started) = Enhanced.outbound (trace cycle).
Proof.
  intros loaded cycle started. subst started.
  destruct (loadPreviousJobs_state p) as (Hc & Hf & Hs & Ho).
  change (Seen.start config out fileWrite scraped p)
    with (bind Seen.loadPreviousJobs
               (fun _ => Seen.scheduledTask config out fileWrite scraped) p).
  destruct (Seen.loadPreviousJobs p) as [[p1 t1] r1] eqn:El.
  unfold completion, final_state, trace in Hc, Hf, Hs, Ho. simpl in Hc, Hf, Hs, Ho.
  subst r1. rewrite (bind_run _ _ _ _ _ _ El).
  destruct (scheduledTask_run config out fileWrite scraped p1) as (Tc & Ts & Tf & To).
  rewrite Hs in Ts, To. fold loaded in Ts, To. fold cycle in Ts, To.
  rewrite Hs in Tf. fold loaded in Tf. fold cycle in Tf. rewrite Hf in Tf.
  destruct (Seen.scheduledTask config out fileWrite scraped p1) as [[p2 t2] r2].
  unfold completion, final_state, trace in *. simpl in *.
  split; [exact Tc|]. split; [exact Ts|]. split; [exact Tf|].
  rewrite seen_outbound_app, Ho, To. reflexivity.
Qed.

(** ** The empty scrape *)

Lemma scheduledTask_empty config out fileWrite p :
  let r := Seen.scheduledTask config out fileWrite (Fulfilled []) p in
  completion r = Normal tt
  /\ Seen.previousJobs (final_state r) = Seen.previousJobs p
  /\ Seen.outbound (trace r) = []
  /\ In (Seen.WriteSeen (elements (Seen.previousJobs p))) (trace r)
  /\ Seen.savedJobs (final_state r)
     = match fileWrite with
       | Fulfilled _ => Some (elements (Seen.previousJobs p))
       | Rejected _ => Seen.savedJobs p
       end.
Proof.
  unfold Seen.scheduledTask, bind, Seen.onSet.
  assert (E : Enhanced.checkForNewJobs config out (Fulfilled []) (Seen.previousJobs p)
              = (Seen.previousJobs p,
                 [Enhanced.ConsoleLog ("🔍 Checking for new jobs at "
                                       +:+ Enhanced.localTime out +:+ "...");
                  Enhanced.ConsoleLog
                    "⚠️ No jobs found - this might indicate a scraping issue"],
                 Normal tt))
    by (unfold Enhanced.checkForNewJobs; eff_unfold; reflexivity).
  rewrite E, savePreviousJobs_run.
  destruct fileWrite as [[]|error]; unfold completion, final_state, trace; simpl;
    repeat split; auto.
Qed.

(** C6, as stated, fails in enhanced-scraper.js: the task that runs a
    cycle calls [savePreviousJobs] after [checkForNewJobs] whatever the
    scrape gave.  On a first run with an empty scrape previous-jobs.json,
    which was not there, is created holding an empty array; and a file
    left behind by an earlier refused write is overwritten with the set in
    memory. *)
Lemma empty_scrape_still_writes_the_seen_file :
  let first := Seen.scheduledTask consoleOnly allDelivered (Fulfilled tt) (Fulfilled [])
                                  (Seen.fresh None) in
  let stale := {| Seen.previousJobs := {[ "A" ]}; Seen.savedJobs := Some ["B"] |} in
  let later := Seen.scheduledTask consoleOnly allDelivered (Fulfilled tt) (Fulfilled [])
                                  stale in
  Seen.savedJobs (Seen.fresh None) = None
  /\ Seen.savedJobs (final_state first) = Some []
  /\ In (Seen.WriteSeen []) (trace first)
  /\ Seen.savedJobs (final_state later) = Some ["A"]
  /\ In (Seen.WriteSeen ["A"]) (trace later).
Proof.
  intros first stale later.
  destruct (scheduledTask_empty consoleOnly allDelivered (Fulfilled tt) (Seen.fresh None))
    as (_ & _ & _ & Hw & Hs).
  destruct (scheduledTask_empty consoleOnly allDelivered (Fulfilled tt) stale)
    as (_ & _ & _ & Hw' & Hs').
  fold first in Hw, Hs. fold later in Hw', Hs'.
  simpl in Hw, Hs, Hw', Hs'.
  rewrite elements_empty in Hw, Hs. rewrite elements_singleton in Hw', Hs'.
  repeat split; assumption.
Qed.

(** C6, amended: when the scrape yields no record, the cycle stops at the
    guard: nothing is detected and no sink is reached.  In
    mailslurp-scraper.js the digest file and the jobs file keep their
    contents, nothing is asked to be written to them, no e-mail is sent
    and the warning is printed (and logged); in src/worker.js the store is
    untouched and the result is "No jobs found"; in enhanced-scraper.js
    the set of seen links in memory is untouched and the cycle only
    prints, but the task that ran the cycle then writes that set to
    previous-jobs.json all the same, so there persistence is not skipped:
    the file holds the set in memory afterwards, whatever it held
    before, unless the write is refused.  [start()] does the same with
    the set it has just loaded. *)
Theorem empty_scrape_guard :
  (forall lc tl config es out files,
      let r := Mailslurp.checkForJobs lc tl config es out (Fulfilled []) files in
      Mailslurp.hashFile (final_state r) = Mailslurp.hashFile files
      /\ Mailslurp.jobsFile (final_state r) = Mailslurp.jobsFile files
      /\ Mailslurp.emails (trace r) = []
      /\ Mailslurp.hashWrites (trace r) = []
      /\ Mailslurp.jobsWrites (trace r) = []
      /\ completion r = Normal tt
      /\ In (Mailslurp.ConsoleLog "⚠️ No jobs found - this might indicate a scraping issue")
            (trace r))
  /\ (forall lc tl env out kv,
        let r := Worker.checkForJobs lc tl env out (Fulfilled []) kv in
        final_state r = kv
        /\ Worker.emails (trace r) = []
        /\ Worker.hashPuts (trace r) = []
        /\ Worker.jobsPuts (trace r) = []
        /\ completion r = Normal Worker.NoJobsFound)
  /\ (forall config out previousJobs,
        let r := Enhanced.checkForNewJobs config out (Fulfilled []) previousJobs in
        final_state r = previousJobs
        /\ trace r
           = [Enhanced.ConsoleLog ("🔍 Checking for new jobs at "
                                   +:+ Enhanced.localTime out +:+ "...");
              Enhanced.ConsoleLog "⚠️ No jobs found - this might indicate a scraping issue"]
        /\ Enhanced.outbound (trace r) = []
        /\ completion r = Normal tt)
  /\ (forall config out fileWrite p,
        let r := Seen.scheduledTask config out fileWrite (Fulfilled []) p in
        completion r = Normal tt
        /\ Seen.previousJobs (final_state r) = Seen.previousJobs p
        /\ Seen.outbound (trace r) = []
        /\ In (Seen.WriteSeen (elements (Seen.previousJobs p))) (trace r)
        /\ Seen.savedJobs (final_state r)
           = match fileWrite with
             | Fulfilled _ => Some (elements (Seen.previousJobs p))
             | Rejected _ => Seen.savedJobs p
             end)
  /\ (forall config out fileWrite file,
        let loaded : gset string :=
          match file with Some jobs => list_to_set jobs | None => ∅ end in
        let r := Seen.start config out fileWrite (Fulfilled []) (Seen.fresh file) in
        completion r = Normal tt
        /\ Seen.previousJobs (final_state r) = loaded
        /\ Seen.outbound (trace r) = []
        /\ Seen.savedJobs (final_state r)
           = match fileWrite with
             | Fulfilled _ => Some (elements loaded)
             | Rejected _ => file
             end).
Proof.
  split; [|split; [|split; [|split]]].
  - intros. apply MailslurpRuns.mailslurp_run_empty.
  - intros. apply WorkerRuns.worker_run_empty.
  - intros. unfold Enhanced.checkForNewJobs. eff_unfold. simpl. repeat split.
  - intros. apply scheduledTask_empty.
  - intros config out fileWrite file loaded r.
    destruct (start_run config out fileWrite (Fulfilled []) (Seen.fresh file))
      as (Hc & Hs & Hf & Ho).
    fold r in Hc, Hs, Hf, Ho.
    change (match Seen.savedJobs (Seen.fresh file) with
            | Some jobs => list_to_set jobs
            | None => Seen.previousJobs (Seen.fresh file)
            end) with loaded in Hs, Hf, Ho.
    assert (E : Enhanced.checkForNewJobs config out (Fulfilled []) loaded
                = (loaded,
                   [Enhanced.ConsoleLog ("🔍 Checking for new jobs at "
                                         +:+ Enhanced.localTime out +:+ "...");
                    Enhanced.ConsoleLog
                      "⚠️ No jobs found - this might indicate a scraping issue"],
                   Normal tt))
      by (unfold Enhanced.checkForNewJobs; eff_unfold; reflexivity).
    rewrite E in Hs, Hf, Ho.
    split; [exact Hc|]. split; [exact Hs|]. split; [exact Ho | exact Hf].
Qed.

(** X11: the set of seen links survives a restart.  After a scheduled task
    whose write of previous-jobs.json succeeds, a process started afresh
    loads from the file exactly the set the task left in memory; and when
    its first check scrapes the records the task scraped, nothing leaves
    the process and the file is written back with the same set. *)
Theorem seen_links_survive_restart
        (config config' : Enhanced.Config) (out out' : Enhanced.Outside)
        (scraped : Settled (list Job)) (p : Seen.Process) :
  let before := final_state (Seen.scheduledTask config out (Fulfilled tt) scraped p) in
  let restarted := Seen.fresh (Seen.savedJobs before) in
  Seen.previousJobs (final_state (Seen.loadPreviousJobs restarted))
  = Seen.previousJobs before
  /\ forall fileWrite,
      let again := Seen.start config' out' fileWrite scraped restarted in
      completion again = Normal tt
      /\ Seen.outbound (trace again) = []
      /\ Seen.previousJobs (final_state again) = Seen.previousJobs before.
Proof.
  intros before restarted.
  destruct (scheduledTask_run config out (Fulfilled tt) scraped p) as (_ & Hs & Hf & _).
  fold before in Hs, Hf.
  assert (Hl : (list_to_set (elements (Seen.previousJobs before)) : gset string)
               = Seen.previousJobs before)
    by (apply leibniz_equiv, list_to_set_elements).
  assert (Hsaved : Seen.savedJobs restarted = Some (elements (Seen.previousJobs before)))
    by (subst restarted; simpl; rewrite Hf, Hs; reflexivity).
  split.
  - destruct (loadPreviousJobs_state restarted) as (_ & _ & H & _).
    rewrite H, Hsaved. exact Hl.
  - intros fileWrite again.
    destruct (start_run config' out' fileWrite scraped restarted) as (Hc & Hs' & _ & Ho).
    fold again in Hc, Hs', Ho.
    rewrite Hsaved, Hl in Hs', Ho.
    split; [exact Hc|].
    destruct scraped as [current|error].
    + destruct (enhanced_check_run config out current (Seen.previousJobs p))
        as (_ & Hfirst & _).
      rewrite <- Hs in Hfirst.
      pose proof (nothing_new_after (Seen.previousJobs p) current) as Hq. simpl in Hq.
      rewrite <- Hfirst in Hq.
      destruct (enhanced_check_run config' out' current (Seen.previousJobs before))
        as (_ & Hst & Hob).
      rewrite Hq in Hst, Hob. simpl in Hst, Hob.
      rewrite Ho, Hs'. split; [exact Hob | exact Hst].
    + rewrite Ho, Hs'. unfold Enhanced.checkForNewJobs. eff_unfold. simpl.
      split; reflexivity.
Qed.

(** X12: persisting the seen links is never fatal and never touches the
    set in memory.  [savePreviousJobs] asks for the whole set to be
    written, completes normally whether the write succeeds or is refused,
    and leaves the set in memory as it was; a refused write is reported on
    the console.  [loadPreviousJobs] completes normally too, and with no
    readable file leaves the set as it was. *)
Theorem saving_seen_links_never_fails (p : Seen.Process) :
  (forall fileWrite,
      let r := Seen.savePreviousJobs fileWrite p in
      completion r = Normal tt
      /\ Seen.previousJobs (final_state r) = Seen.previousJobs p
      /\ In (Seen.WriteSeen (elements (Seen.previousJobs p))) (trace r)
      /\ (forall l, In l (elements (Seen.previousJobs p)) <-> l ∈ Seen.previousJobs p)
      /\ NoDup (elements (Seen.previousJobs p)))
  /\ (forall error,
        In (Seen.ConsoleError ("Error saving previous jobs: " +:+ error))
           (trace (Seen.savePreviousJobs (Rejected error) p)))
  /\ completion (Seen.loadPreviousJobs p) = Normal tt
  /\ (Seen.savedJobs p = None ->
      final_state (Seen.loadPreviousJobs p) = p).
Proof.
  split; [|split; [|split]].
  - intros fileWrite r. subst r. rewrite savePreviousJobs_run.
    destruct fileWrite as [[]|error]; unfold completion, final_state, trace; simpl;
      (split; [reflexivity|]; split; [reflexivity|]; split; [now left|]; split;
       [intros l; rewrite <- list_elem_of_In; apply elem_of_elements
       | apply NoDup_ListNoDup, NoDup_elements]).
  - intros error. rewrite savePreviousJobs_run. unfold trace. simpl. right. now left.
  - apply loadPreviousJobs_state.
  - intros Hnone. unfold Seen.loadPreviousJobs. eff_unfold. rewrite Hnone. reflexivity.
Qed.

Lemma saving_seen_links_never_fails_witness :
  final_state (Seen.loadPreviousJobs (Seen.fresh None)) = Seen.fresh None.
Proof.
  apply (proj2 (proj2 (proj2 (saving_seen_links_never_fails (Seen.fresh None))))).
  reflexivity.
Defined.

Lemma sendNotifications_trace config out newJobs (st : gset string) :
  trace (Enhanced.sendNotifications config out newJobs st)
  = ((if Enhanced.console_enabled config
      then trace (Enhanced.printJobs newJobs st) else [])
     ++ flat_map (fun s => trace (Enhanced.send config out s newJobs ∅))
                 (List.filter (Enhanced.enabled config) Enhanced.all_sinks))%list.
Proof.
  assert (Hc : (if Enhanced.console_enabled config
                then Enhanced.printJobs newJobs else ret tt) st
               = (st,
                  if Enhanced.console_enabled config
                  then trace (Enhanced.printJobs newJobs st) else [],
                  Normal tt)).
  { destruct (Enhanced.console_enabled config); [|reflexivity].
    destruct (EnhancedRuns.printJobs_run newJobs st) as [t [E _]]. now rewrite E. }
  unfold Enhanced.sendNotifications.
  rewrite (bind_run _ _ st st _ tt Hc).
  rewrite (bind_run _ _ st st _ _
             (EnhancedRuns.launch_run config out Enhanced.all_sinks newJobs st)).
  generalize (flat_map (fun s => trace (Enhanced.send config out s newJobs ∅))
                       (List.filter (Enhanced.enabled config) Enhanced.all_sinks)).
  intros t. unfold bind, await, ret, allSettled, awaited, trace. simpl.
  now rewrite !app_nil_r.
Qed.

Lemma enhanced_check_includes config out current (previous : gset string) e :
  List.filter (Enhanced.unseen previous) current <> [] ->
  In e (trace (Enhanced.sendNotifications config out
                 (List.filter (Enhanced.unseen previous) current) previous)) ->
  In e (trace (Enhanced.checkForNewJobs config out (Fulfilled current) previous)).
Proof.
  intros Hnew Hin.
  destruct current as [|j0 rest]; [now elim Hnew|].
  remember (j0 :: rest) as current eqn:Ec.
  set (newJobs := List.filter (Enhanced.unseen previous) current) in *.
  destruct (EnhancedRuns.sendNotifications_run config out newJobs previous)
    as [console [E _]].
  set (sent := (console ++ flat_map (fun s => trace (Enhanced.send config out s newJobs ∅))
                             (List.filter (Enhanced.enabled config) Enhanced.all_sinks))%list)
    in E.
  rewrite E in Hin. change (In e sent) in Hin.
  clearbody sent.
  assert (Hpos : (0 <? length newJobs)%nat = true)
    by (destruct newJobs; [congruence | reflexivity]).
  assert (Hlen : (length current =? 0)%nat = false) by (subst current; reflexivity).
  unfold Enhanced.checkForNewJobs.
  eff_unfold. simpl. rewrite Hlen. fold newJobs. rewrite Hpos, E. simpl.
  rewrite ?app_nil_r. right. right. rewrite !in_app_iff. tauto.
Qed.

Lemma start_includes_cycle config out fileWrite scraped file e :
  In e (trace (Enhanced.checkForNewJobs config out scraped
                 (match file with Some jobs => list_to_set jobs | None => ∅ end))) ->
  In (Seen.FromCycle e)
     (trace (Seen.start config out fileWrite scraped (Seen.fresh file))).
Proof.
  intros Hin.
  pose proof (enhanced_check_completes config out scraped
                (match file with Some jobs => list_to_set jobs | None => ∅ end)) as Hc.
  unfold Seen.start, Seen.loadPreviousJobs, Seen.fresh, Seen.onSet. eff_unfold.
  destruct file as [jobs|]; simpl in *.
  - destruct (Enhanced.checkForNewJobs config out scraped (list_to_set jobs))
      as [[s t] r]. simpl in *. subst r.
    rewrite savePreviousJobs_run. destruct fileWrite as [[]|error]; simpl;
      right; apply in_or_app; left; now apply in_map.
  - destruct (Enhanced.checkForNewJobs config out scraped ∅) as [[s t] r].
    simpl in *. subst r.
    rewrite savePreviousJobs_run. destruct fileWrite as [[]|error]; simpl;
      right; apply in_or_app; left; now apply in_map.
Qed.

(** X13: a first start with no previous-jobs.json treats every scraped
    record as new.  For a non-empty scrape the console, when enabled,
    prints every record, its number with the title, the department, the
    location and the link; each enabled sink is handed the whole scrape;
    and the links of the scrape become the set in memory and, when the
    write succeeds, the content of the file. *)
Theorem first_start_reports_every_record
        (config : Enhanced.Config) (out : Enhanced.Outside)
        (current : list Job) (fileWrite : Settled unit) :
  current <> [] ->
  let started := Seen.start config out fileWrite (Fulfilled current) (Seen.fresh None) in
  Seen.outbound (trace started)
  = Enhanced.outbound
      (flat_map (fun s => trace (Enhanced.send config out s current ∅))
                (List.filter (Enhanced.enabled config) Enhanced.all_sinks))
  /\ Seen.previousJobs (final_state started) = list_to_set (map link current)
  /\ (fileWrite = Fulfilled tt ->
      forall l, (exists jobs, Seen.savedJobs (final_state started) = Some jobs /\ In l jobs)
                <-> In l (map link current))
  /\ (Enhanced.console_enabled config = true ->
      forall i job,
        nth_error current i = Some job ->
        In (Seen.FromCycle
              (Enhanced.ConsoleLog (nl +:+ decimal (i + 1) +:+ ". " +:+ title job)))
           (trace started)
        /\ In (Seen.FromCycle (Enhanced.ConsoleLog ("   Department: " +:+ department job)))
              (trace started)
        /\ In (Seen.FromCycle (Enhanced.ConsoleLog ("   Location: " +:+ location job)))
              (trace started)
        /\ In (Seen.FromCycle (Enhanced.ConsoleLog ("   Link: " +:+ link job)))
              (trace started)).
Proof.
  intros Hne started.
  destruct (start_run config out fileWrite (Fulfilled current) (Seen.fresh None))
    as (_ & Hs & Hf & Ho).
  fold started in Hs, Hf, Ho. simpl in Hs, Hf, Ho.
  destruct (enhanced_check_run config out current ∅) as (_ & Hst & Hob).
  assert (Hall : List.filter (Enhanced.unseen ∅) current = current).
  { clear. induction current as [|j l IH]; [reflexivity|]. simpl.
    unfold Enhanced.unseen at 1. rewrite bool_decide_eq_false_2 by set_solver.
    simpl. now rewrite IH. }
  rewrite Hall in Hst, Hob.
  assert (Hpos : (0 <? length current)%nat = true)
    by (destruct current; [congruence | reflexivity]).
  rewrite Hpos in Hst, Hob.
  split; [rewrite Ho, Hob; reflexivity|]. split; [rewrite Hs, Hst; reflexivity|].
  split.
  - intros ->. rewrite Hf, Hst. intros l. split.
    + intros (jobs & [= <-] & Hin).
      apply list_elem_of_In, elem_of_elements, elem_of_list_to_set in Hin.
      now apply list_elem_of_In.
    + intros Hin. eexists. split; [reflexivity|].
      apply list_elem_of_In, elem_of_elements, elem_of_list_to_set, list_elem_of_In, Hin.
  - intros Hcon i job Hnth.
    assert (Hline : forall line, In line (Enhanced.consoleBlock i job) ->
                                 In (Seen.FromCycle (Enhanced.ConsoleLog line))
                                    (trace started)).
    { intros line Hl. subst started.
      apply (start_includes_cycle config out fileWrite (Fulfilled current) None).
      apply enhanced_check_includes; rewrite Hall; [exact Hne|].
      rewrite sendNotifications_trace, Hcon. apply in_or_app. left.
      now apply (printJobs_prints current ∅ i job). }
    unfold Enhanced.consoleBlock in Hline.
    split; [|split; [|split]]; apply Hline; simpl; auto.
Qed.

Lemma first_start_reports_every_record_witness :
  Seen.previousJobs
    (final_state (Seen.start consoleOnly allDelivered (Fulfilled tt)
                             (Fulfilled [posting "A"; posting "B"]) (Seen.fresh None)))
  = list_to_set (map link [posting "A"; posting "B"])
  /\ In (Seen.FromCycle (Enhanced.ConsoleLog (nl +:+ "2. Job B")))
        (trace (Seen.start consoleOnly allDelivered (Fulfilled tt)
                           (Fulfilled [posting "A"; posting "B"]) (Seen.fresh None))).
Proof.
  pose proof (first_start_reports_every_record consoleOnly allDelivered
                [posting "A"; posting "B"] (Fulfilled tt) ltac:(discriminate))
    as (_ & Hs & _ & Hc).
  split; [exact Hs|].
  exact (proj1 (Hc eq_refl 1%nat (posting "B") eq_refl)).
Defined.


(** ** The text that is hashed *)

Lemma append_cons (c : ascii) (s t : string) : String c s +:+ t = String c (s +:+ t).
Proof. reflexivity. Qed.

Lemma append_inv_l (a b c : string) : a +:+ b = a +:+ c -> b = c.
Proof.
  induction a as [|x a IH]; intros H; [exact H|].
  rewrite !append_cons in H. injection H as H. now apply IH.
Qed.

Lemma join_empty_cons (p : string) (parts : list string) :
  join "" (p :: parts) = p +:+ join "" parts.
Proof.
  unfold join. destruct parts as [|q parts].
  - simpl String.concat. now rewrite append_nil_r.
  - reflexivity.
Qed.

Lemma unescape_escape (c : ascii) (rest : string) :
  unescape (json_escape (byte_of c) +:+ rest) = Some (byte_of c, rest).
Proof.
  destruct c as [[] [] [] [] [] [] [] []]; reflexivity.
Qed.

Lemma unescape_dquote (rest : string) : unescape (dquote +:+ rest) = None.
Proof. reflexivity. Qed.

Lemma escaped_body_inj (cs : list ascii) :
  forall (cs' : list ascii) (rest rest' : string),
    join "" (map json_escape (map byte_of cs)) +:+ dquote +:+ rest
    = join "" (map json_escape (map byte_of cs')) +:+ dquote +:+ rest' ->
    cs = cs' /\ rest = rest'.
Proof.
  induction cs as [|c cs IH]; intros [|c' cs'] rest rest' H.
  - split; [reflexivity|]. exact (append_inv_l dquote _ _ H).
  - apply (f_equal unescape) in H.
    change (map json_escape (map byte_of (c' :: cs')))
      with (json_escape (byte_of c') :: map json_escape (map byte_of cs')) in H.
    rewrite join_empty_cons, append_assoc, unescape_escape in H.
    change (join "" (map json_escape (map byte_of [])) +:+ dquote +:+ rest)
      with (dquote +:+ rest) in H.
    rewrite unescape_dquote in H. discriminate.
  - apply (f_equal unescape) in H.
    change (map json_escape (map byte_of (c :: cs)))
      with (json_escape (byte_of c) :: map json_escape (map byte_of cs)) in H.
    rewrite join_empty_cons, append_assoc, unescape_escape in H.
    change (join "" (map json_escape (map byte_of [])) +:+ dquote +:+ rest')
      with (dquote +:+ rest') in H.
    rewrite unescape_dquote in H. discriminate.
  - apply (f_equal unescape) in H.
    change (map json_escape (map byte_of (c :: cs)))
      with (json_escape (byte_of c) :: map json_escape (map byte_of cs)) in H.
    change (map json_escape (map byte_of (c' :: cs')))
      with (json_escape (byte_of c') :: map json_escape (map byte_of cs')) in H.
    rewrite !join_empty_cons, !append_assoc, !unescape_escape in H.
    injection H as Hb Hr.
    destruct (IH cs' rest rest' Hr) as [-> ->].
    split; [|reflexivity]. f_equal.
    unfold byte_of in Hb. apply N2Z.inj in Hb.
    rewrite <- (ascii_N_embedding c), <- (ascii_N_embedding c'). now rewrite Hb.
Qed.

Lemma json_string_inj (s s' rest rest' : string) :
  json_string s +:+ rest = json_string s' +:+ rest' -> s = s' /\ rest = rest'.
Proof.
  unfold json_string, bytes_of_string. intros H.
  rewrite !append_assoc in H. apply append_inv_l in H.
  fold byte_of in H.
  apply escaped_body_inj in H. destruct H as [Hcs ->]. split; [|reflexivity].
  rewrite <- (string_of_list_ascii_of_string s), <- (string_of_list_ascii_of_string s').
  now rewrite Hcs.
Qed.

Lemma json_member_inj (key value value' rest rest' : string) :
  json_member key value +:+ rest = json_member key value' +:+ rest' ->
  value = value' /\ rest = rest'.
Proof.
  unfold json_member. intros H. rewrite !append_assoc in H.
  apply json_string_inj in H. destruct H as [_ H].
  apply (append_inv_l ":") in H. now apply json_string_inj in H.
Qed.

Lemma json_object_inj (o o' : HashedJob) (rest rest' : string) :
  json_object o +:+ rest = json_object o' +:+ rest' -> o = o' /\ rest = rest'.
Proof.
  unfold json_object, join. simpl String.concat. intros H.
  rewrite !append_assoc in H.
  apply (append_inv_l "{") in H.
  apply json_member_inj in H. destruct H as [Ht H]. apply (append_inv_l ",") in H.
  apply json_member_inj in H. destruct H as [Hl H]. apply (append_inv_l ",") in H.
  apply json_member_inj in H. destruct H as [Hd H]. apply (append_inv_l ",") in H.
  apply json_member_inj in H. destruct H as [Hc H]. apply (append_inv_l "}") in H.
  split; [|exact H].
  destruct o, o'. simpl in *. congruence.
Qed.

Lemma json_object_opens (o : HashedJob) (rest : string) :
  exists tail, json_object o +:+ rest = String "{" tail.
Proof.
  unfold json_object. rewrite !append_assoc. eexists. reflexivity.
Qed.

Lemma join_comma_cons (p q : string) (parts : list string) :
  join "," (p :: q :: parts) = p +:+ "," +:+ join "," (q :: parts).
Proof. reflexivity. Qed.

Lemma json_array_inj (os : list HashedJob) :
  forall os' : list HashedJob,
    join "," (map json_object os) +:+ "]" = join "," (map json_object os') +:+ "]" ->
    os = os'.
Proof.
  induction os as [|o os IH]; intros [|o' os'] H.
  - reflexivity.
  - exfalso. destruct os' as [|q os'].
    + change (map json_object [o']) with [json_object o'] in H. unfold join in H.
      simpl String.concat in H.
      destruct (json_object_opens o' "]") as [tail E]. rewrite E in H. discriminate.
    + change (map json_object (o' :: q :: os'))
        with (json_object o' :: json_object q :: map json_object os') in H.
      rewrite join_comma_cons, append_assoc in H.
      destruct (json_object_opens o' ("," +:+ join "," (json_object q :: map json_object os')
                                          +:+ "]")) as [tail E].
      rewrite append_assoc in H. rewrite E in H. discriminate.
  - exfalso. destruct os as [|q os].
    + change (map json_object [o]) with [json_object o] in H. unfold join in H.
      simpl String.concat in H.
      destruct (json_object_opens o "]") as [tail E]. rewrite E in H. discriminate.
    + change (map json_object (o :: q :: os))
        with (json_object o :: json_object q :: map json_object os) in H.
      rewrite join_comma_cons, append_assoc in H.
      destruct (json_object_opens o ("," +:+ join "," (json_object q :: map json_object os)
                                         +:+ "]")) as [tail E].
      rewrite append_assoc in H. rewrite E in H. discriminate.
  - assert (Hstep : forall (x : HashedJob) (l : list HashedJob),
               join "," (map json_object (x :: l)) +:+ "]"
               = json_object x +:+ match l with
                                   | [] => "]"
                                   | _ => "," +:+ join "," (map json_object l) +:+ "]"
                                   end).
    { intros x [|y l].
      - unfold join. simpl String.concat. reflexivity.
      - change (map json_object (x :: y :: l))
          with (json_object x :: json_object y :: map json_object l).
        now rewrite join_comma_cons, !append_assoc. }
    rewrite !Hstep in H. apply json_object_inj in H. destruct H as [-> H].
    f_equal. destruct os as [|q os], os' as [|q' os'].
    + reflexivity.
    + discriminate.
    + discriminate.
    + apply IH. apply (append_inv_l ",") in H. exact H.
Qed.

(** X14: the text that [generateJobsHash] hashes determines the canonical
    records it was made from: two arrays of (title, link, department,
    location) objects have the same [JSON.stringify] text only when they
    are the same array, whatever characters the fields hold.  A changed
    field, an added or removed record, or a different order always changes
    the text given to SHA-256. *)
Theorem hashed_text_determines_records (os os' : list HashedJob) :
  JSON_stringify os = JSON_stringify os' -> os = os'.
Proof.
  unfold JSON_stringify. intros H.
  apply (append_inv_l "[") in H. now apply json_array_inj.
Qed.

Lemma hashed_text_determines_records_witness :
  [hashed backendEngineer; hashed designer] = [hashed backendEngineer; hashed designer].
Proof.
  apply (hashed_text_determines_records
           [hashed backendEngineer; hashed designer]
           [hashed backendEngineer; hashed designer]).
  reflexivity.
Defined.


(** ** What the worker's result says about the store *)

Lemma worker_run_no_match_logs lc tl env out kv jobs :
  jobs <> [] ->
  Worker.jobs_hash kv <> Some (generateJobsHash lc jobs) ->
  filterJobsByKeywords tl jobs (Some (Worker.keywords env)) = [] ->
  let r := Worker.checkForJobs lc tl env out (Fulfilled jobs) kv in
  completion r = Normal Worker.NoMatchingJobs ->
  Worker.activity_logs (final_state r) = Worker.activity_logs kv.
Proof.
  intros Hne Hprev Hnone.
  destruct jobs as [|j0 jobs0]; [congruence|].
  remember (j0 :: jobs0) as jobs eqn:Ejobs.
  assert (Hlen : (length jobs =? 0)%nat = false) by (subst jobs; reflexivity).
  unfold Worker.checkForJobs, Worker.put_jobs_hash, Worker.put_latest_jobs,
    Worker.appendLog, Worker.put_activity_logs, Worker.putKey.
  eff_unfold. simpl. rewrite Hlen, Hnone.
  case_bool_decide; [congruence|]. simpl.
  destruct (Worker.putHash out), (Worker.putJobs out), (Worker.putLogs out); simpl;
    intros Hdone; try discriminate Hdone; reflexivity.
Qed.

Lemma worker_run_match_result lc tl env out kv jobs :
  jobs <> [] ->
  Worker.jobs_hash kv <> Some (generateJobsHash lc jobs) ->
  filterJobsByKeywords tl jobs (Some (Worker.keywords env)) <> [] ->
  Worker.serviceBuilds env = true ->
  let matching := filterJobsByKeywords tl jobs (Some (Worker.keywords env)) in
  let found :=
    Worker.JobsFound (Worker.clock out) (length jobs) (length matching)
                     (short_hash (generateJobsHash lc jobs))
                     (map (fun job => (title job, link job)) matching) in
  let r := Worker.checkForJobs lc tl env out (Fulfilled jobs) kv in
  match Worker.putHash out, Worker.putJobs out, Worker.putLogs out with
  | Fulfilled _, Fulfilled _, Fulfilled _ =>
      completion r = Normal (Worker.Processed (length matching) (length jobs) matching)
      /\ Worker.activity_logs (final_state r)
         = Worker.last_entries 10 (Worker.activity_logs kv ++ [found])%list
  | Rejected e, _, _ => completion r = Normal (Worker.Failed e)
  | _, Rejected e, _ => completion r = Normal (Worker.Failed e)
  | _, _, Rejected e => completion r = Normal (Worker.Failed e)
  end.
Proof.
  intros Hne Hprev Hsome Hbuilds.
  pose proof (filterJobsByKeywords_idem tl jobs (Some (Worker.keywords env))) as Hi.
  set (matching := filterJobsByKeywords tl jobs (Some (Worker.keywords env))) in *.
  assert (Hmlen : (length matching =? 0)%nat = false)
    by (destruct matching; [congruence | reflexivity]).
  destruct jobs as [|j0 jobs0]; [congruence|].
  remember (j0 :: jobs0) as jobs eqn:Ejobs.
  assert (Hlen : (length jobs =? 0)%nat = false) by (subst jobs; reflexivity).
  unfold Worker.serviceBuilds in Hbuilds.
  unfold Worker.checkForJobs, Worker.notifyByEmail, Worker.newWorkerEmailService,
    Worker.sendJobAlert, Worker.put_jobs_hash, Worker.put_latest_jobs, Worker.appendLog,
    Worker.put_activity_logs, Worker.putKey.
  eff_unfold. simpl. fold matching. rewrite Hlen, Hmlen.
  case_bool_decide; [congruence|]. simpl.
  destruct (Worker.emailOn env); simpl in *.
  - rewrite Hbuilds. simpl. rewrite Hi, Hmlen.
    destruct (Worker.inbox out), (Worker.sendEmail out), (Worker.putHash out),
      (Worker.putJobs out), (Worker.putLogs out); simpl; repeat split; auto.
  - destruct (Worker.putHash out), (Worker.putJobs out), (Worker.putLogs out);
      simpl; repeat split; auto.
Qed.

Lemma worker_run_rejected lc tl env out kv error :
  completion (Worker.checkForJobs lc tl env out (Rejected error) kv)
  = Normal (Worker.Failed error).
Proof.
  unfold Worker.checkForJobs, Worker.appendLog, Worker.put_activity_logs, Worker.putKey.
  eff_unfold. simpl. destruct (Worker.putLogs out); reflexivity.
Qed.

Lemma worker_result_cases
        (lc : string -> string -> Z) (tl : string -> string)
        (env : Worker.Env) (out : Worker.Outside)
        (scraped : Settled (list Job)) (kv : Worker.KV) (result : Worker.Result) :
  let r := Worker.checkForJobs lc tl env out scraped kv in
  completion r = Normal result ->
  match result with
  | Worker.NoJobsFound =>
      scraped = Fulfilled []
      /\ final_state r = kv
      /\ Worker.hashPuts (trace r) = [] /\ Worker.jobsPuts (trace r) = []
      /\ Worker.emails (trace r) = []
  | Worker.NoChanges =>
      (exists jobs, scraped = Fulfilled jobs
                    /\ Worker.jobs_hash kv = Some (generateJobsHash lc jobs))
      /\ final_state r = kv
      /\ Worker.hashPuts (trace r) = [] /\ Worker.jobsPuts (trace r) = []
      /\ Worker.emails (trace r) = []
  | Worker.NoMatchingJobs =>
      exists jobs,
        scraped = Fulfilled jobs
        /\ filterJobsByKeywords tl jobs (Some (Worker.keywords env)) = []
        /\ Worker.jobs_hash (final_state r) = Some (generateJobsHash lc jobs)
        /\ Worker.latest_jobs (final_state r) = Some jobs
        /\ Worker.activity_logs (final_state r) = Worker.activity_logs kv
        /\ Worker.emails (trace r) = []
  | Worker.Processed matchingJobsCount totalJobsCount matching =>
      exists jobs,
        scraped = Fulfilled jobs
        /\ matching = filterJobsByKeywords tl jobs (Some (Worker.keywords env))
        /\ matching <> []
        /\ matchingJobsCount = length matching
        /\ totalJobsCount = length jobs
        /\ Worker.jobs_hash (final_state r) = Some (generateJobsHash lc jobs)
        /\ Worker.latest_jobs (final_state r) = Some jobs
        /\ Worker.activity_logs (final_state r)
           = Worker.last_entries 10
               (Worker.activity_logs kv
                  ++ [Worker.JobsFound (Worker.clock out) totalJobsCount matchingJobsCount
                        (short_hash (generateJobsHash lc jobs))
                        (map (fun job => (title job, link job)) matching)])%list
  | Worker.Failed _ => True
  end.
Proof.
  intros r Hr. subst r.
  destruct scraped as [jobs|error].
  2:{ rewrite worker_run_rejected in Hr. injection Hr as <-. exact I. }
  destruct jobs as [|j0 rest] eqn:Ej.
  { destruct (WorkerRuns.worker_run_empty lc tl env out kv) as (Hs & He & Hh & Hj & Hc).
    rewrite Hc in Hr. injection Hr as <-. repeat split; assumption. }
  rewrite <- Ej in *. assert (Hne : jobs <> []) by (rewrite Ej; discriminate). clear Ej.
  destruct (decide (Worker.jobs_hash kv = Some (generateJobsHash lc jobs))) as [E|N].
  { destruct (WorkerRuns.worker_run_unchanged lc tl env out kv jobs Hne E)
      as (Hs & He & Hh & Hj & Hc).
    rewrite Hc in Hr. injection Hr as <-.
    split; [exists jobs; split; [reflexivity | exact E]|].
    repeat split; assumption. }
  destruct (filterJobsByKeywords tl jobs (Some (Worker.keywords env))) as [|m ms] eqn:Hf.
  { pose proof (worker_run_no_match_logs lc tl env out kv jobs Hne N Hf) as Hlogs.
    destruct (WorkerRuns.worker_run_no_match lc tl env out kv jobs Hne N Hf)
      as (He & _ & _ & Hh & Hj & Hc).
    simpl in Hlogs.
    destruct (Worker.putHash out) as [[]|e1].
    - destruct (Worker.putJobs out) as [[]|e2].
      + rewrite Hc in Hr. injection Hr as <-.
        exists jobs. split; [reflexivity|]. split; [exact Hf|].
        split; [exact Hh|]. split; [exact Hj|]. split; [apply Hlogs; exact Hc | exact He].
      + rewrite Hc in Hr. injection Hr as <-. exact I.
    - rewrite Hc in Hr. injection Hr as <-. exact I. }
  assert (Hsome : filterJobsByKeywords tl jobs (Some (Worker.keywords env)) <> [])
    by (rewrite Hf; discriminate).
  destruct (Worker.serviceBuilds env) eqn:Hb.
  - pose proof (worker_run_match_result lc tl env out kv jobs Hne N Hsome Hb) as Hres.
    destruct (WorkerRuns.worker_run_match lc tl env out kv jobs Hne N Hsome Hb)
      as (_ & _ & _ & Hh & Hj & _).
    simpl in Hres.
    destruct (Worker.putHash out) as [[]|e1].
    + destruct (Worker.putJobs out) as [[]|e2].
      * destruct (Worker.putLogs out) as [[]|e3].
        -- destruct Hres as [Hc Hlogs]. rewrite Hc in Hr. injection Hr as <-.
           exists jobs. split; [reflexivity|]. split; [reflexivity|].
           split; [exact Hsome|]. split; [reflexivity|]. split; [reflexivity|].
           split; [exact Hh|]. split; [exact Hj | exact Hlogs].
        -- rewrite Hres in Hr. injection Hr as <-. exact I.
      * rewrite Hres in Hr. injection Hr as <-. exact I.
    + rewrite Hres in Hr. injection Hr as <-. exact I.
  - destruct (WorkerRuns.worker_run_match_no_key lc tl env out kv jobs Hne N Hsome Hb)
      as (_ & _ & _ & _ & _ & Hc).
    rewrite Hc in Hr. injection Hr as <-. exact I.
Qed.

(** X15: the object [checkForJobs] of src/worker.js resolves to tells what
    happened to the store.  "No jobs found" and "No changes detected" mean
    the store was left alone and nothing was asked of it.  "No matching
    jobs found" means the store now holds the digest and the records of
    this scrape, with the log as it was.  The result with counts means the
    same, that the counts and the records in it are those of the keyword
    filter, and that an entry for this cycle ends the log.  Any refused
    write turns the result into a failure. *)
Theorem worker_result_tells_what_was_stored
        (lc : string -> string -> Z) (tl : string -> string)
        (env : Worker.Env) (out : Worker.Outside)
        (scraped : Settled (list Job)) (kv : Worker.KV) (result : Worker.Result) :
  let r := Worker.checkForJobs lc tl env out scraped kv in
  completion r = Normal result ->
  match result with
  | Worker.NoJobsFound =>
      scraped = Fulfilled []
      /\ final_state r = kv
      /\ Worker.hashPuts (trace r) = [] /\ Worker.jobsPuts (trace r) = []
      /\ Worker.emails (trace r) = []
  | Worker.NoChanges =>
      (exists jobs, scraped = Fulfilled jobs
                    /\ Worker.jobs_hash kv = Some (generateJobsHash lc jobs))
      /\ final_state r = kv
      /\ Worker.hashPuts (trace r) = [] /\ Worker.jobsPuts (trace r) = []
      /\ Worker.emails (trace r) = []
  | Worker.NoMatchingJobs =>
      exists jobs,
        scraped = Fulfilled jobs
        /\ filterJobsByKeywords tl jobs (Some (Worker.keywords env)) = []
        /\ Worker.jobs_hash (final_state r) = Some (generateJobsHash lc jobs)
        /\ Worker.latest_jobs (final_state r) = Some jobs
        /\ Worker.activity_logs (final_state r) = Worker.activity_logs kv
        /\ Worker.emails (trace r) = []
  | Worker.Processed matchingJobsCount totalJobsCount matching =>
      exists jobs,
        scraped = Fulfilled jobs
        /\ matching = filterJobsByKeywords tl jobs (Some (Worker.keywords env))
        /\ matching <> []
        /\ matchingJobsCount = length matching
        /\ totalJobsCount = length jobs
        /\ Worker.jobs_hash (final_state r) = Some (generateJobsHash lc jobs)
        /\ Worker.latest_jobs (final_state r) = Some jobs
        /\ Worker.activity_logs (final_state r)
           = Worker.last_entries 10
               (Worker.activity_logs kv
                  ++ [Worker.JobsFound (Worker.clock out) totalJobsCount matchingJobsCount
                        (short_hash (generateJobsHash lc jobs))
                        (map (fun job => (title job, link job)) matching)])%list
  | Worker.Failed _ => True
  end.
Proof. exact (worker_result_cases lc tl env out scraped kv result). Qed.

Lemma worker_result_tells_what_was_stored_witness :
  Worker.jobs_hash
    (final_state (Worker.checkForJobs codeUnitCompare asciiLower workerWithKey calmWorkerDay
                                      (Fulfilled [backendEngineer; designer]) emptyKV))
  = Some (generateJobsHash codeUnitCompare [backendEngineer; designer]).
Proof.
  destruct (worker_result_tells_what_was_stored codeUnitCompare asciiLower workerWithKey
              calmWorkerDay (Fulfilled [backendEngineer; designer]) emptyKV
              (Worker.Processed 1 2 [backendEngineer]) ltac:(vm_compute; reflexivity))
    as (jobs & Hs & _ & _ & _ & _ & Hh & _).
  injection Hs as <-. exact Hh.
Defined.


(** ** A digest stored without its records *)

Lemma mailslurp_changed_state lc tl config es out files jobs :
  jobs <> [] ->
  option_map trim (Mailslurp.hashFile files) <> Some (generateJobsHash lc jobs) ->
  let r := Mailslurp.checkForJobs lc tl config es out (Fulfilled jobs) files in
  Mailslurp.hashFile (final_state r)
  = match Mailslurp.hashWrite out with
    | Fulfilled _ => Some (generateJobsHash lc jobs)
    | Rejected _ => Mailslurp.hashFile files
    end
  /\ Mailslurp.jobsFile (final_state r)
     = match Mailslurp.jobsWrite out with
       | Fulfilled _ => Some jobs
       | Rejected _ => Mailslurp.jobsFile files
       end.
Proof.
  intros Hne N.
  destruct (filterJobsByKeywords tl jobs (Some (Mailslurp.keywords config))) eqn:Hf.
  - destruct (MailslurpRuns.mailslurp_run_no_match lc tl config es out files jobs
                Hne N Hf) as (_ & _ & _ & Hh & Hj & _).
    split; [exact Hh | exact Hj].
  - assert (Hsome : filterJobsByKeywords tl jobs (Some (Mailslurp.keywords config)) <> [])
      by (rewrite Hf; discriminate).
    destruct (MailslurpRuns.mailslurp_run_match lc tl config es out files jobs
                Hne N Hsome) as (_ & _ & _ & _ & Hh & Hj & _).
    split; [exact Hh | exact Hj].
Qed.

Lemma worker_changed_state lc tl env out kv jobs :
  jobs <> [] ->
  Worker.jobs_hash kv <> Some (generateJobsHash lc jobs) ->
  Worker.serviceBuilds env = true ->
  Worker.putHash out = Fulfilled tt ->
  forall e, Worker.putJobs out = Rejected e ->
  let r := Worker.checkForJobs lc tl env out (Fulfilled jobs) kv in
  completion r = Normal (Worker.Failed e)
  /\ Worker.latest_jobs (final_state r) = Worker.latest_jobs kv.
Proof.
  intros Hne N Hb Hh e Hj.
  destruct (filterJobsByKeywords tl jobs (Some (Worker.keywords env))) eqn:Hf.
  - destruct (WorkerRuns.worker_run_no_match lc tl env out kv jobs Hne N Hf)
      as (_ & _ & _ & _ & Hl & Hc).
    rewrite Hh, Hj in Hl, Hc. split; [exact Hc | exact Hl].
  - assert (Hsome : filterJobsByKeywords tl jobs (Some (Worker.keywords env)) <> [])
      by (rewrite Hf; discriminate).
    pose proof (worker_run_match_result lc tl env out kv jobs Hne N Hsome Hb) as Hres.
    destruct (WorkerRuns.worker_run_match lc tl env out kv jobs Hne N Hsome Hb)
      as (_ & _ & _ & _ & Hl & _).
    simpl in Hres. rewrite Hh, Hj in Hres, Hl. split; [exact Hres | exact Hl].
Qed.

(** X16: when the store takes the new digest and refuses the records, the
    records on store stay the old ones for good.  mailslurp-scraper.js
    swallows the refusal and completes; src/worker.js resolves to a
    failure; in both the digest is already stored, so the next cycle on the
    same records sees no change, asks for no records to be written and
    leaves the old records where they are. *)
Theorem refused_records_write_is_not_repaired
        (lc : string -> string -> Z) (tl : string -> string)
        (jobs : list Job) (e : string) :
  jobs <> [] ->
  (forall config es out config' es' out' files,
      option_map trim (Mailslurp.hashFile files) <> Some (generateJobsHash lc jobs) ->
      Mailslurp.hashWrite out = Fulfilled tt ->
      Mailslurp.jobsWrite out = Rejected e ->
      let first := Mailslurp.checkForJobs lc tl config es out (Fulfilled jobs) files in
      let second := Mailslurp.checkForJobs lc tl config' es' out' (Fulfilled jobs)
                                           (final_state first) in
      completion first = Normal tt
      /\ Mailslurp.hashFile (final_state first) = Some (generateJobsHash lc jobs)
      /\ Mailslurp.jobsFile (final_state first) = Mailslurp.jobsFile files
      /\ Mailslurp.jobsWrites (trace second) = []
      /\ Mailslurp.jobsFile (final_state second) = Mailslurp.jobsFile files)
  /\ (forall env out env' out' kv,
        Worker.jobs_hash kv <> Some (generateJobsHash lc jobs) ->
        Worker.serviceBuilds env = true ->
        Worker.putHash out = Fulfilled tt ->
        Worker.putJobs out = Rejected e ->
        let first := Worker.checkForJobs lc tl env out (Fulfilled jobs) kv in
        let second := Worker.checkForJobs lc tl env' out' (Fulfilled jobs)
                                          (final_state first) in
        completion first = Normal (Worker.Failed e)
        /\ Worker.jobs_hash (final_state first) = Some (generateJobsHash lc jobs)
        /\ Worker.latest_jobs (final_state first) = Worker.latest_jobs kv
        /\ completion second = Normal Worker.NoChanges
        /\ Worker.jobsPuts (trace second) = []
        /\ Worker.latest_jobs (final_state second) = Worker.latest_jobs kv).
Proof.
  intros Hne. split.
  - intros config es out config' es' out' files N Hh Hj first second.
    destruct (mailslurp_changed_state lc tl config es out files jobs Hne N) as (Sh & Sj).
    fold first in Sh, Sj. rewrite Hh in Sh. rewrite Hj in Sj.
    pose proof (mailslurp_digest_after lc tl config es out files jobs Hne Hh) as Hd.
    fold first in Hd.
    destruct (MailslurpRuns.mailslurp_run_unchanged lc tl config' es' out'
                (final_state first) jobs Hne Hd) as (_ & Uj & _ & _ & Uw & _).
    fold second in Uj, Uw.
    split; [apply mailslurp_cycle_completes|].
    split; [exact Sh|]. split; [exact Sj|]. split; [exact Uw|].
    rewrite Uj. exact Sj.
  - intros env out env' out' kv N Hb Hh Hj first second.
    destruct (worker_changed_state lc tl env out kv jobs Hne N Hb Hh e Hj) as (Sc & Sl).
    fold first in Sc, Sl.
    pose proof (worker_digest_after lc tl env out kv jobs Hne Hh Hb) as Hd.
    fold first in Hd.
    destruct (WorkerRuns.worker_run_unchanged lc tl env' out' (final_state first) jobs
                Hne Hd) as (Us & _ & _ & Uj & Uc).
    fold second in Us, Uj, Uc.
    split; [exact Sc|]. split; [exact Hd|]. split; [exact Sl|].
    split; [exact Uc|]. split; [exact Uj|].
    rewrite Us. exact Sl.
Qed.

Lemma refused_records_write_is_not_repaired_witness :
  let first := Mailslurp.checkForJobs codeUnitCompare asciiLower backendOnly true
                 recordsRefused (Fulfilled [backendEngineer; designer]) noFiles in
  Mailslurp.hashFile (final_state first)
  = Some (generateJobsHash codeUnitCompare [backendEngineer; designer])
  /\ Mailslurp.jobsFile
       (final_state (Mailslurp.checkForJobs codeUnitCompare asciiLower backendOnly true
                       calmDay (Fulfilled [backendEngineer; designer])
                       (final_state first))) = None.
Proof.
  pose proof (proj1 (refused_records_write_is_not_repaired codeUnitCompare asciiLower
                       [backendEngineer; designer] "ENOSPC" ltac:(discriminate))
                    backendOnly true recordsRefused backendOnly true calmDay noFiles
                    ltac:(simpl; discriminate) eq_refl eq_refl)
    as (_ & Hh & _ & _ & Hj).
  split; [exact Hh | exact Hj].
Defined.


(** ** The status page after a cycle *)

Lemma digest_truthy lc jobs : truthy (Some (generateJobsHash lc jobs)) = true.
Proof.
  unfold generateJobsHash.
  pose proof (sha256_hex_length (JSON_stringify (sort (by_link lc) (map hashed jobs)))) as H.
  destruct (sha256_hex _); [discriminate H | reflexivity].
Qed.

Lemma nth_error_last {A : Type} (l : list A) (x : A) :
  nth_error (l ++ [x]) (length (l ++ [x]) - 1) = Some x.
Proof.
  rewrite length_snoc. replace (S (length l) - 1)%nat with (length l) by lia.
  rewrite nth_error_app2 by lia. now rewrite Nat.sub_diag.
Qed.

Lemma slice_last_snoc n (l : list Worker.LogEntry) (x : Worker.LogEntry) :
  (0 < n)%nat ->
  exists older, Status.slice_last n (l ++ [x]) = (older ++ [x])%list.
Proof.
  intros Hn. unfold Status.slice_last. rewrite length_snoc.
  exists (skipn (S (length l) - n) l). apply skipn_keeps_last. lia.
Qed.

Lemma report_ext now kv kv' :
  Worker.jobs_hash kv' = Worker.jobs_hash kv ->
  Worker.latest_jobs kv' = Worker.latest_jobs kv ->
  Worker.activity_logs kv' = Worker.activity_logs kv ->
  Status.report now kv' = Status.report now kv.
Proof. intros H1 H2 H3. unfold Status.report. now rewrite H1, H2, H3. Qed.

(** X17: what [/status] shows after a cycle of src/worker.js follows the
    cycle's result.  After a result with counts, the last check is the
    time of that cycle, the hash shown is the first 12 characters of the
    digest of the scrape, the number of jobs is that of the scrape, and
    the recent logs end with the cycle's entry.  After "No matching jobs
    found" the hash and the number of jobs are those of the scrape, while
    the last check and the recent logs stay as they were: such a cycle
    leaves no log entry.  After "No changes detected" or "No jobs found"
    the page is as before. *)
Theorem status_follows_the_cycle
        (lc : string -> string -> Z) (tl : string -> string)
        (env : Worker.Env) (out : Worker.Outside)
        (jobs : list Job) (kv : Worker.KV) (result : Worker.Result) (now : string) :
  let r := Worker.checkForJobs lc tl env out (Fulfilled jobs) kv in
  completion r = Normal result ->
  Worker.clock out <> "" ->
  let before := Status.report now kv in
  let after := Status.report now (final_state r) in
  match result with
  | Worker.Processed matchingJobsCount totalJobsCount matching =>
      Status.lastCheck after = Worker.clock out
      /\ Status.currentHash after = short_hash (generateJobsHash lc jobs)
      /\ Status.jobsCount after = totalJobsCount
      /\ exists older,
           Status.recentLogs after
           = (older ++ [Worker.JobsFound (Worker.clock out) totalJobsCount
                          matchingJobsCount (Status.currentHash after)
                          (map (fun job => (title job, link job)) matching)])%list
  | Worker.NoMatchingJobs =>
      Status.currentHash after = short_hash (generateJobsHash lc jobs)
      /\ Status.jobsCount after = length jobs
      /\ Status.lastCheck after = Status.lastCheck before
      /\ Status.recentLogs after = Status.recentLogs before
  | Worker.NoChanges | Worker.NoJobsFound => after = before
  | Worker.Failed _ => True
  end.
Proof.
  intros r Hr Hclock before after.
  pose proof (worker_result_cases lc tl env out (Fulfilled jobs) kv result Hr) as H.
  fold r in H. subst before after.
  assert (Hhash : forall kv', Worker.jobs_hash kv' = Some (generateJobsHash lc jobs) ->
                              Status.currentHash (Status.report now kv')
                              = short_hash (generateJobsHash lc jobs)).
  { intros kv' E. unfold Status.report, Status.orElse. cbn [Status.currentHash].
    rewrite E. now rewrite digest_truthy. }
  assert (Hcount : forall kv', Worker.latest_jobs kv' = Some jobs ->
                               Status.jobsCount (Status.report now kv') = length jobs).
  { intros kv' E. unfold Status.report. simpl. now rewrite E. }
  destruct result as [| | |m n matching|e].
  - destruct H as (_ & -> & _). reflexivity.
  - destruct H as (_ & -> & _). reflexivity.
  - destruct H as (jobs0 & [= <-] & _ & Hh & Hj & Hl & _).
    split; [now apply Hhash|]. split; [now apply Hcount|].
    unfold Status.report. simpl. rewrite Hl. split; reflexivity.
  - destruct H as (jobs0 & [= <-] & -> & _ & -> & -> & Hh & Hj & Hl).
    rewrite (Hhash _ Hh), (Hcount _ Hj).
    destruct (worker_last_entries_spec (Worker.activity_logs kv)
                (Worker.JobsFound (Worker.clock out) (length jobs)
                   (length (filterJobsByKeywords tl jobs (Some (Worker.keywords env))))
                   (short_hash (generateJobsHash lc jobs))
                   (map (fun job => (title job, link job))
                        (filterJobsByKeywords tl jobs (Some (Worker.keywords env))))))
      as (_ & [older Hlast] & _).
    rewrite Hlast in Hl.
    split; [|split; [reflexivity|split; [reflexivity|]]].
    + unfold Status.report. simpl. rewrite Hl, nth_error_last. simpl.
      unfold Status.orElse, truthy.
      destruct (String.eqb (Worker.clock out) "") eqn:E; [|reflexivity].
      apply String.eqb_eq in E. contradiction.
    + unfold Status.report. simpl. rewrite Hl. apply slice_last_snoc. lia.
  - exact I.
Qed.

Lemma status_follows_the_cycle_witness :
  Status.lastCheck
    (Status.report "2025-01-02T00:00:00.000Z"
       (final_state (Worker.checkForJobs codeUnitCompare asciiLower workerWithKey
                       calmWorkerDay (Fulfilled [backendEngineer; designer]) emptyKV)))
  = "2025-01-01T00:00:00.000Z".
Proof.
  exact (proj1 (status_follows_the_cycle codeUnitCompare asciiLower workerWithKey
                  calmWorkerDay [backendEngineer; designer] emptyKV
                  (Worker.Processed 1 2 [backendEngineer]) "2025-01-02T00:00:00.000Z"
                  ltac:(vm_compute; reflexivity) ltac:(discriminate))).
Defined.


(** ** A sink without its settings *)

(** X18: a sink of enhanced-scraper.js reaches the outside world at most
    once per call, and not at all when a setting it needs is missing, even
    if it is enabled: no web hook URL for Discord or the web hook, no bot
    token or chat id for Telegram, no transporter or recipient for e-mail.
    The three sinks that post leave no trace of any kind in that case.
    Nor is anything posted when the import of node-fetch is rejected. *)
Theorem sink_without_settings_is_silent
        (config : Enhanced.Config) (out : Enhanced.Outside)
        (newJobs : list Job) (st : gset string) :
  (forall s,
      (length (Enhanced.outbound (trace (Enhanced.send config out s newJobs st))) <= 1)%nat)
  /\ (truthy (Enhanced.discord_webhookUrl config) = false ->
      trace (Enhanced.sendDiscordNotification config out newJobs st) = [])
  /\ (truthy (Enhanced.telegram_botToken config) = false
      \/ truthy (Enhanced.telegram_chatId config) = false ->
      trace (Enhanced.sendTelegramNotification config out newJobs st) = [])
  /\ (truthy (Enhanced.webhook_url config) = false ->
      trace (Enhanced.sendWebhookNotification config out newJobs st) = [])
  /\ (Enhanced.transporter config = false \/ truthy (Enhanced.email_to config) = false ->
      Enhanced.outbound (trace (Enhanced.sendEmailNotification config out newJobs st)) = [])
  /\ (forall s reason,
        s <> Enhanced.Email -> s <> Enhanced.FileLog ->
        Enhanced.importFetch out s = Rejected reason ->
        Enhanced.outbound (trace (Enhanced.send config out s newJobs st)) = []).
Proof.
  split; [|split; [|split; [|split; [|split]]]].
  - intros s.
    destruct s; unfold Enhanced.send, Enhanced.sendEmailNotification,
      Enhanced.sendDiscordNotification, Enhanced.sendTelegramNotification,
      Enhanced.sendWebhookNotification, Enhanced.logToFile;
      eff_unfold; simpl; run_cases; simpl; lia.
  - intros H. unfold Enhanced.sendDiscordNotification. rewrite H.
    rewrite orb_true_r. reflexivity.
  - intros H. unfold Enhanced.sendTelegramNotification.
    destruct H as [H|H]; rewrite H; rewrite ?orb_true_r; reflexivity.
  - intros H. unfold Enhanced.sendWebhookNotification. rewrite H.
    rewrite orb_true_r. reflexivity.
  - intros H. unfold Enhanced.sendEmailNotification.
    destruct H as [H|H]; rewrite H; rewrite ?orb_true_r; reflexivity.
  - intros s reason Hmail Hfile Himport.
    destruct s; try congruence;
      unfold Enhanced.send, Enhanced.sendDiscordNotification,
        Enhanced.sendTelegramNotification, Enhanced.sendWebhookNotification;
      eff_unfold; rewrite Himport; simpl; run_cases; reflexivity.
Qed.

Lemma sink_without_settings_is_silent_witness :
  trace (Enhanced.sendDiscordNotification consoleOnly allDelivered [posting "A"] ∅) = [].
Proof.
  apply (proj1 (proj2 (sink_without_settings_is_silent consoleOnly allDelivered
                         [posting "A"] ∅))).
  reflexivity.
Defined.


(** ** What the activity log says about an alert *)

Lemma mailslurp_run_match_log lc tl config es out files jobs :
  jobs <> [] ->
  option_map trim (Mailslurp.hashFile files) <> Some (generateJobsHash lc jobs) ->
  filterJobsByKeywords tl jobs (Some (Mailslurp.keywords config)) <> [] ->
  let matching := filterJobsByKeywords tl jobs (Some (Mailslurp.keywords config)) in
  let digest := short_hash (generateJobsHash lc jobs) in
  let r := Mailslurp.checkForJobs lc tl config es out (Fulfilled jobs) files in
  Mailslurp.logFile (final_state r)
  = match es, Mailslurp.logWrite out with
    | true, Fulfilled _ =>
        Mailslurp.last_entries 100
          (Mailslurp.logFile files
             ++ [ {| Mailslurp.timestamp := Mailslurp.clock out;
                     Mailslurp.activity :=
                       match Mailslurp.inbox out, Mailslurp.sendEmail out with
                       | Fulfilled _, Fulfilled emailId =>
                           Mailslurp.EmailSent (length jobs) (length matching) emailId digest
                       | Fulfilled _, Rejected error =>
                           Mailslurp.EmailFailed (length jobs) (length matching) error digest
                       | Rejected error, _ =>
                           Mailslurp.EmailFailed (length jobs) (length matching) error digest
                       end |} ])%list
    | _, _ => Mailslurp.logFile files
    end.
Proof.
  intros Hne Hprev Hsome.
  pose proof (match_shouldSend tl jobs (Mailslurp.keywords config) Hsome) as Hs.
  pose proof (shouldSendEmail_matching tl jobs (Some (Mailslurp.keywords config))) as Hm.
  pose proof (filterJobsByKeywords_idem tl jobs (Some (Mailslurp.keywords config))) as Hi.
  set (matching := filterJobsByKeywords tl jobs (Some (Mailslurp.keywords config))) in *.
  assert (Hmlen : (length matching =? 0)%nat = false)
    by (destruct matching; [congruence | reflexivity]).
  destruct jobs as [|j0 jobs0]; [congruence|].
  remember (j0 :: jobs0) as jobs eqn:Ejobs.
  assert (Hlen : (length jobs =? 0)%nat = false) by (subst jobs; reflexivity).
  unfold Mailslurp.checkForJobs, Mailslurp.loadPreviousHash, Mailslurp.notifyByEmail,
    Mailslurp.sendJobAlert, Mailslurp.saveHash, Mailslurp.saveJobs, Mailslurp.logActivity,
    Mailslurp.alertFor.
  eff_unfold. simpl. rewrite Hlen, Hs, Hm, Hi, Hmlen.
  clearbody matching.
  destruct (Mailslurp.hashFile files) as [stored|] eqn:Ef; simpl in *;
    [case_bool_decide; [congruence|] | ]; simpl;
    destruct es, (Mailslurp.inbox out), (Mailslurp.sendEmail out), (Mailslurp.logWrite out),
      (Mailslurp.hashWrite out), (Mailslurp.jobsWrite out); simpl;
    match goal with
    | |- context [Mailslurp.showMatching ?js ?s] =>
        destruct (showMatching_run js s) as (t & -> & _)
    end; reflexivity.
Qed.

(** X19: in mailslurp-scraper.js a cycle that finds a change and matching
    records and has a mail service records how the alert went: when
    scraper-log.json can be written, the log ends with an entry stamped
    with the time of the cycle, "email_sent" with the id MailSlurp
    returned, or "email_failed" with the error of the inbox or of the
    send, either with the two counts and the first 12 characters of the
    digest.  Without a mail service the same cycle writes no log entry at
    all, though it stores the digest and the records. *)
Theorem alert_outcome_is_logged
        (lc : string -> string -> Z) (tl : string -> string)
        (config : Mailslurp.Config) (out : Mailslurp.Outside)
        (files : Mailslurp.Files) (jobs : list Job) :
  jobs <> [] ->
  option_map trim (Mailslurp.hashFile files) <> Some (generateJobsHash lc jobs) ->
  filterJobsByKeywords tl jobs (Some (Mailslurp.keywords config)) <> [] ->
  let matching := filterJobsByKeywords tl jobs (Some (Mailslurp.keywords config)) in
  let digest := short_hash (generateJobsHash lc jobs) in
  (Mailslurp.logWrite out = Fulfilled tt ->
   exists older,
     Mailslurp.logFile
       (final_state (Mailslurp.checkForJobs lc tl config true out (Fulfilled jobs) files))
     = (older
          ++ [ {| Mailslurp.timestamp := Mailslurp.clock out;
                  Mailslurp.activity :=
                    match Mailslurp.inbox out, Mailslurp.sendEmail out with
                    | Fulfilled _, Fulfilled emailId =>
                        Mailslurp.EmailSent (length jobs) (length matching) emailId digest
                    | Fulfilled _, Rejected error =>
                        Mailslurp.EmailFailed (length jobs) (length matching) error digest
                    | Rejected error, _ =>
                        Mailslurp.EmailFailed (length jobs) (length matching) error digest
                    end |} ])%list)
  /\ (let r := Mailslurp.checkForJobs lc tl config false out (Fulfilled jobs) files in
      Mailslurp.logFile (final_state r) = Mailslurp.logFile files
      /\ Mailslurp.hashWrites (trace r) = [generateJobsHash lc jobs]
      /\ Mailslurp.jobsWrites (trace r) = [jobs]).
Proof.
  intros Hne Hprev Hsome matching digest. split.
  - intros Hw.
    pose proof (mailslurp_run_match_log lc tl config true out files jobs Hne Hprev Hsome)
      as Hlog.
    simpl in Hlog. rewrite Hw in Hlog. rewrite Hlog.
    apply mailslurp_last_entries_spec.
  - pose proof (mailslurp_run_match_log lc tl config false out files jobs Hne Hprev Hsome)
      as Hlog.
    destruct (MailslurpRuns.mailslurp_run_match lc tl config false out files jobs
                Hne Hprev Hsome) as (_ & _ & Hh & Hj & _).
    split; [exact Hlog|]. split; [exact Hh | exact Hj].
Qed.

Lemma alert_outcome_is_logged_witness :
  exists older,
    Mailslurp.logFile
      (final_state (Mailslurp.checkForJobs codeUnitCompare asciiLower backendOnly true
                      mailDown (Fulfilled [backendEngineer; designer]) noFiles))
    = (older
         ++ [ {| Mailslurp.timestamp := "2025-01-01T00:00:00.000Z";
                 Mailslurp.activity :=
                   Mailslurp.EmailFailed 2
                     (length (filterJobsByKeywords asciiLower [backendEngineer; designer]
                                (Some ["Backend"])))
                     "503"
                     (short_hash
                        (generateJobsHash codeUnitCompare [backendEngineer; designer]))
              |} ])%list.
Proof.
  exact (proj1 (alert_outcome_is_logged codeUnitCompare asciiLower backendOnly mailDown
                  noFiles [backendEngineer; designer]
                  ltac:(discriminate) ltac:(simpl; discriminate)
                  ltac:(vm_compute; discriminate))
               eq_refl).
Defined.
